(** * Fuel-price cleaning pipeline (ass1-5339.py): a shallow embedding

    The script cleans tables of fuel prices with pandas and Python's [re]
    module.  This development embeds the cleaning functions of the script
    as Rocq functions over an explicit table type and proves the properties
    stated about them.

    Conventions of the embedding:
    - text is a sequence of characters given by their codes.  The character
      classes and the case mapping are Python's on the ASCII characters
      (codes below 128).  Python's classes are those of Unicode; on the
      characters from 128 on the embedding does not follow them, and the
      statements about text are made for ASCII text ([ascii_text]);
    - a table is a list of column names and a list of rows; pandas' row
      index and column dtypes are not represented.  Where the dtype of a
      column decides what pandas does (an integer column that is converted
      to floats, a column without text under the [.str] accessor), this is
      said at the definition and the statements exclude such tables;
    - a function that can raise returns a [result]; printing is returned as
      an explicit report value. *)

From Stdlib Require Import ZArith QArith Qcanon Ascii String DecimalString.
From Stdlib Require Import Sorted Permutation.
From Stdlib Require DecimalZ.
From stdpp Require Import base tactics option numbers list strings sorting.

Open Scope string_scope.
Open Scope list_scope.
Open Scope nat_scope.

(** ** Characters *)

Module Chars.

Definition code (c : ascii) : nat := nat_of_ascii c.

(** [str.isspace] and the class [\s] on ASCII: tab, line feed, vertical
    tab, form feed, carriage return, the four separators 0x1c..0x1f and
    the blank. *)
Definition is_space (c : ascii) : bool :=
  let n := code c in
  ((9 <=? n) && (n <=? 13)) || ((28 <=? n) && (n <=? 31)) || (n =? 32).

Definition is_digit (c : ascii) : bool :=
  let n := code c in (48 <=? n) && (n <=? 57).

Definition is_upper (c : ascii) : bool :=
  let n := code c in (65 <=? n) && (n <=? 90).

Definition is_lower (c : ascii) : bool :=
  let n := code c in (97 <=? n) && (n <=? 122).

Definition is_alpha (c : ascii) : bool := is_upper c || is_lower c.

(** The class [\w]: letters, digits and the underscore. *)
Definition is_word (c : ascii) : bool :=
  is_alpha c || is_digit c || (code c =? 95).

Definition lower (c : ascii) : ascii :=
  if is_upper c then ascii_of_nat (code c + 32) else c.

Definition upper (c : ascii) : ascii :=
  if is_lower c then ascii_of_nat (code c - 32) else c.

Definition newline : ascii := ascii_of_nat 10.

(** An ASCII character: on these the classes above are Python's. *)
Definition is_ascii (c : ascii) : bool := code c <? 128.

End Chars.

(** ** Regular expressions: the fragment of Python's [re] the script uses

    The matcher is a backtracking matcher written with lists of successes:
    [run r st] lists the states in which a match of [r] started in [st] can
    end, in the order in which Python's engine tries them (greedy
    repetition first).  The head of the list is the match Python reports. *)

Module Re.

Inductive cls := Space | Word | Digit | AnyButNewline.

Definition in_cls (k : cls) (c : ascii) : bool :=
  match k with
  | Space => Chars.is_space c
  | Word => Chars.is_word c
  | Digit => Chars.is_digit c
  | AnyButNewline => negb (Chars.code c =? 10)
  end.

Inductive regex :=
| Empty
| Lit (c : ascii)
| Cls (k : cls)
| Seq (r1 r2 : regex)
| Star (r : regex)
| Opt (r : regex)
| Group (r : regex)
| Bol
| Eol.

Definition Plus (r : regex) : regex := Seq r (Star r).

Fixpoint Rep (n : nat) (r : regex) : regex :=
  match n with
  | 0 => Empty
  | S n' => Seq r (Rep n' r)
  end.

Fixpoint Lits (s : list ascii) : regex :=
  match s with
  | [] => Empty
  | c :: s' => Seq (Lit c) (Lits s')
  end.

(** A matcher state: the number of characters before the current
    position, the text from the current position on, and the text
    captured by group 1 if the group has taken part in the match. *)
Record mstate := MState {
  consumed : nat;
  rest : list ascii;
  group1 : option (list ascii)
}.

Definition step (st : mstate) : mstate :=
  MState (S (consumed st)) (tl (rest st)) (group1 st).

(** With IGNORECASE a literal matches a character with the same lower
    case (among ASCII characters; Python folds the case of all of
    Unicode). *)
Definition lit_matches (ic : bool) (c x : ascii) : bool :=
  if ic then Ascii.eqb (Chars.lower c) (Chars.lower x) else Ascii.eqb c x.

Definition one (p : ascii -> bool) (st : mstate) : list mstate :=
  match rest st with
  | x :: _ => if p x then [step st] else []
  | [] => []
  end.

(** Greedy repetition: as many rounds as possible first, each round
    consuming at least one character. *)
Fixpoint star_loop (body : mstate -> list mstate) (fuel : nat)
    (st : mstate) : list mstate :=
  match fuel with
  | 0 => [st]
  | S fuel' =>
      (filter (fun st' => consumed st <? consumed st') (body st)
         ≫= star_loop body fuel') ++ [st]
  end.

(** [$] matches at the end of the text and just before a line feed that
    ends the text. *)
Definition at_eol (st : mstate) : bool :=
  match rest st with
  | [] => true
  | [c] => Chars.code c =? 10
  | _ => false
  end.

Fixpoint run (ic : bool) (r : regex) (st : mstate) : list mstate :=
  match r with
  | Empty => [st]
  | Lit c => one (lit_matches ic c) st
  | Cls k => one (in_cls k) st
  | Seq r1 r2 => run ic r1 st ≫= run ic r2
  | Star r1 => star_loop (run ic r1) (S (length (rest st))) st
  | Opt r1 => run ic r1 st ++ [st]
  | Group r1 =>
      (fun st' => MState (consumed st') (rest st')
                    (Some (take (consumed st' - consumed st) (rest st))))
        <$> run ic r1 st
  | Bol => if consumed st =? 0 then [st] else []
  | Eol => if at_eol st then [st] else []
  end.

(** One attempt at position [pos].  [must_advance] is set by [sub] after
    an empty match: the next match may not end where it starts. *)
Definition match_at (ic : bool) (r : regex) (pos : nat) (txt : list ascii)
    (must_advance : bool) : option mstate :=
  head (filter (fun st' => negb (must_advance && (consumed st' =? pos)))
          (run ic r (MState pos txt None))).

(** Leftmost match at or after [pos]; [txt] is the text from [pos] on. *)
Fixpoint search (ic : bool) (r : regex) (pos : nat) (txt : list ascii)
    (must_advance : bool) : option (nat * mstate) :=
  match match_at ic r pos txt must_advance with
  | Some st' => Some (pos, st')
  | None =>
      match txt with
      | [] => None
      | _ :: txt' => search ic r (S pos) txt' false
      end
  end.

(** [re.match]: a match at the start of the text. *)
Definition re_match (ic : bool) (r : regex) (s : list ascii) : bool :=
  bool_decide (is_Some (match_at ic r 0 s false)).

(** [re.search], returning group 1. *)
Definition re_search_group1 (ic : bool) (r : regex) (s : list ascii)
    : option (list ascii) :=
  match search ic r 0 s false with
  | Some (_, st') => group1 st'
  | None => None
  end.

(** [re.sub] with a constant replacement: every non-overlapping match,
    from left to right, is replaced. *)
Fixpoint sub_loop (fuel : nat) (ic : bool) (r : regex) (repl : list ascii)
    (pos : nat) (txt : list ascii) (must_advance : bool) : list ascii :=
  match fuel with
  | 0 => txt
  | S fuel' =>
      match search ic r pos txt must_advance with
      | None => txt
      | Some (b, st') =>
          take (b - pos) txt ++ repl ++
          sub_loop fuel' ic r repl (consumed st') (rest st')
            (consumed st' =? b)
      end
  end.

Definition re_sub (ic : bool) (r : regex) (repl s : list ascii)
    : list ascii :=
  sub_loop (2 * length s + 2) ic r repl 0 s false.

End Re.

(** ** Cell values, errors and tables *)

Definition chars (s : string) : list ascii := list_ascii_of_string s.
Definition text (l : list ascii) : string := string_of_list_ascii l.

Record date := Date { year : Z; month : Z; day : Z }.

(** A time stamp as [pd.to_datetime] produces it: a calendar date and a
    time of day. *)
Record datetime := DateTime {
  dt_date : date;
  hour : Z;
  minute : Z;
  second : Z;
  nanosecond : Z
}.

(** The values a cell can hold.  [VNull] stands for pandas' missing-value
    markers (NaN, None, NaT).  A finite float is written as the number
    Python prints for it (159.9 for the float nearest to 159.9); the two
    infinite floats are [VInf]. *)
Inductive value :=
| VNull
| VStr (s : string)
| VInt (z : Z)
| VFloat (q : Qc)
| VInf (negative : bool)
| VDate (d : date).

#[global] Instance date_eq_dec : EqDecision date.
Proof. solve_decision. Defined.

#[global] Instance Qc_eq_decision : EqDecision Qc := Qc_eq_dec.

#[global] Instance value_eq_dec : EqDecision value.
Proof. solve_decision. Defined.

Definition isna (v : value) : bool :=
  match v with VNull => true | _ => false end.

(** What a Python call can raise.  [Unmodelled] is no exception of Python:
    it marks an input on which the embedding says nothing about the call (a
    pattern text with regular-expression operators in it, the text of a
    float that is not a whole number, a column whose dtype decides).  No
    statement concludes from it that the script raises or returns. *)
Inductive exn := TypeError | AttributeError | ValueError | Unmodelled.

Inductive result (A : Type) :=
| Ok (a : A)
| Raise (e : exn).
Arguments Ok {A} a.
Arguments Raise {A} e.

Definition bind {A B} (m : result A) (f : A -> result B) : result B :=
  match m with
  | Ok a => f a
  | Raise e => Raise e
  end.

Notation "'do' x <- m ; k" := (bind m (fun x => k))
  (at level 10, x name, m at level 100, k at level 200).

(** [for x in xs: f x], stopping at the first exception. *)
Fixpoint traverse {A B} (f : A -> result B) (xs : list A) : result (list B) :=
  match xs with
  | [] => Ok []
  | x :: xs' => do y <- f x; do ys <- traverse f xs'; Ok (y :: ys)
  end.

Abbreviation row := (list value) (only parsing).

Record DataFrame := mkDF {
  columns : list string;
  rows : list row
}.

(** The invariant of a table: every row has one cell per column. *)
Definition wf (df : DataFrame) : Prop :=
  Forall (fun r : row => length r = length (columns df)) (rows df).

Fixpoint index_of (c : string) (cols : list string) : option nat :=
  match cols with
  | [] => None
  | c' :: cols' =>
      if String.eqb c c' then Some 0 else S <$> index_of c cols'
  end.

(** [c in df.columns] *)
Definition has_col (c : string) (df : DataFrame) : bool :=
  bool_decide (is_Some (index_of c (columns df))).

Definition cell (i : nat) (r : row) : value := default VNull (r !! i).

(** [row[c]] on a row of [df] *)
Definition row_get (df : DataFrame) (c : string) (r : row) : value :=
  match index_of c (columns df) with
  | Some i => cell i r
  | None => VNull
  end.

(** [df[c]] *)
Definition get_col (df : DataFrame) (c : string) : list value :=
  row_get df c <$> rows df.

(** [df[c] = vals]: overwrites the column, or appends it when the table has
    no column of that name. *)
Definition set_col (df : DataFrame) (c : string) (vals : list value)
    : DataFrame :=
  match index_of c (columns df) with
  | Some i =>
      mkDF (columns df) (zip_with (fun r v => <[i:=v]> r) (rows df) vals)
  | None =>
      mkDF (columns df ++ [c]) (zip_with (fun r v => r ++ [v]) (rows df) vals)
  end.

Definition nrows (df : DataFrame) : nat := length (rows df).

(** ** Python conversions *)

Definition str_of_Z (z : Z) : string :=
  DecimalString.NilZero.string_of_int (Z.to_int z).

Definition pad2 (z : Z) : string :=
  if (z <? 10)%Z then "0" +:+ str_of_Z z else str_of_Z z.

Definition pad4 (z : Z) : string :=
  if (z <? 10)%Z then "000" +:+ str_of_Z z
  else if (z <? 100)%Z then "00" +:+ str_of_Z z
  else if (z <? 1000)%Z then "0" +:+ str_of_Z z
  else str_of_Z z.

(** [str(x)].  A missing value is the float NaN, whose text is "nan".  The
    text of a float is given for whole numbers below [10^16] only. *)
Definition py_str (v : value) : result string :=
  match v with
  | VNull => Ok "nan"
  | VStr s => Ok s
  | VInt z => Ok (str_of_Z z)
  | VFloat q =>
      let n := Qnum (this q) in
      if (Zpos (Qden (this q)) =? 1)%Z && (Z.abs n <? 10 ^ 16)%Z
      then Ok (str_of_Z n +:+ ".0") else Raise Unmodelled
  | VInf negative => Ok (if negative then "-inf" else "inf")
  | VDate d =>
      Ok (pad4 (year d) +:+ "-" +:+ pad2 (month d) +:+ "-" +:+ pad2 (day d))
  end.

(** [str.strip()]: white space removed at both ends. *)
Fixpoint lstrip (s : list ascii) : list ascii :=
  match s with
  | c :: s' => if Chars.is_space c then lstrip s' else s
  | [] => []
  end.

Definition rstrip (s : list ascii) : list ascii := rev (lstrip (rev s)).

Definition strip (s : list ascii) : list ascii := rstrip (lstrip s).

Fixpoint Z_of_digits (acc : Z) (s : list ascii) : Z :=
  match s with
  | [] => acc
  | c :: s' => Z_of_digits (10 * acc + Z.of_nat (Chars.code c - 48)) s'
  end.

(** [int(s)] on text: white space around the number is ignored, a sign may
    precede the digits.  (Python also accepts underscores between digits;
    the script calls [int] only on text that passed the four-digit test.) *)
Definition py_int (s : string) : option Z :=
  match strip (chars s) with
  | [] => None
  | c :: ds =>
      if Ascii.eqb c "-" then
        if forallb Chars.is_digit ds && negb (length ds =? 0)
        then Some (- Z_of_digits 0 ds)%Z else None
      else if Ascii.eqb c "+" then
        if forallb Chars.is_digit ds && negb (length ds =? 0)
        then Some (Z_of_digits 0 ds) else None
      else
        if forallb Chars.is_digit (c :: ds)
        then Some (Z_of_digits 0 (c :: ds)) else None
  end.

(** [str.title()] on ASCII text: a letter is put in upper case when the
    character before it is not a letter, in lower case otherwise. *)
Fixpoint title_from (prev_cased : bool) (s : list ascii) : list ascii :=
  match s with
  | [] => []
  | c :: s' =>
      if Chars.is_lower c then
        (if prev_cased then c else Chars.upper c) :: title_from true s'
      else if Chars.is_upper c then
        (if prev_cased then Chars.lower c else c) :: title_from true s'
      else c :: title_from false s'
  end.

Definition title (s : string) : string := text (title_from false (chars s)).

(** A method of the [.str] accessor applied to one cell: a cell that is not
    text gives a missing value.  (Whether the column is granted the
    accessor is [str_accessor], below.) *)
Definition str_map (f : string -> value) (v : value) : value :=
  match v with
  | VStr s => f s
  | _ => VNull
  end.

(** The rows of [rs] that equal no earlier row and no element of [seen],
    in their order: what [drop_duplicates] and [unique] keep. *)
Fixpoint first_occurrences {A} `{EqDecision A} (seen rs : list A) : list A :=
  match rs with
  | [] => []
  | r :: rs' =>
      if decide (r ∈ seen) then first_occurrences seen rs'
      else r :: first_occurrences (r :: seen) rs'
  end.

(** ** The cleaning functions of the script *)

Import Re.

Definition DATE_FIELDS : list string := ["PriceUpdatedDate"].

(** [.dt.date] on one cell: the calendar date of a time stamp, the
    missing value for NaT. *)
Definition date_of (t : option datetime) : value :=
  match t with
  | Some t => VDate (dt_date t)
  | None => VNull
  end.

Section DateCleaning.

(** [pd.to_datetime(column, errors='coerce')] under the [.dt] accessor:
    the time stamps pandas reads from the cells of a column, nothing (NaT)
    for a cell it cannot read, or the exception the conversion or the
    accessor raises.  pandas reads a column as a whole: it settles on one
    format for the column, so what is read from a cell depends on the other
    cells.  The conversion is pandas', it is a parameter here. *)
Variable to_datetime : list value -> result (list (option datetime)).

(** [df[field] = pd.to_datetime(df[field], errors='coerce').dt.date] when
    the table has the field *)
Definition clean_datetime_field (df : DataFrame) (field : string)
    : result DataFrame :=
  if has_col field df then
    do ts <- to_datetime (get_col df field);
    Ok (set_col df field (date_of <$> ts))
  else Ok df.

Fixpoint clean_datetime_fields (df : DataFrame) (fields : list string)
    : result DataFrame :=
  match fields with
  | [] => Ok df
  | field :: fields' =>
      do df <- clean_datetime_field df field;
      clean_datetime_fields df fields'
  end.

End DateCleaning.

(** [df.drop_duplicates()] *)
Definition drop_duplicates (df : DataFrame) : DataFrame :=
  mkDF (columns df) (first_occurrences [] (rows df)).

(** [remove_duplicates]: the table without its duplicate rows, and the
    number the function prints. *)
Definition remove_duplicates (df : DataFrame) : DataFrame * nat :=
  let before := nrows df in
  let df' := drop_duplicates df in
  let after := nrows df' in
  (df', before - after).

(** [x.title() if pd.notna(x) else x] *)
Definition title_cell (v : value) : result value :=
  match v with
  | VNull => Ok VNull
  | VStr s => Ok (VStr (title s))
  | _ => Raise AttributeError
  end.

Definition standardize_suburb_names (df : DataFrame) : result DataFrame :=
  if has_col "Suburb" df then
    do vals <- traverse title_cell (get_col df "Suburb");
    Ok (set_col df "Suburb" vals)
  else Ok df.

(** [.str.replace('NEW SOUTH WALES', 'NSW', case=False)] on one text *)
Definition replace_state_name (s : string) : value :=
  VStr (text (re_sub true (Lits (chars "NEW SOUTH WALES")) (chars "NSW")
                (chars s))).

Definition is_text (v : value) : bool :=
  match v with VStr _ => true | _ => false end.

Definition is_number (v : value) : bool :=
  match v with VInt _ | VFloat _ | VInf _ => true | _ => false end.

Definition is_date (v : value) : bool :=
  match v with VDate _ => true | _ => false end.

(** The [.str] accessor of a column.  pandas grants it to a column that
    holds text, alone or among other values, and refuses it with an
    AttributeError to a column whose values are all numbers or all dates.
    A column that holds missing values only, or no cell at all, is granted
    the accessor or refused it according to its dtype, which is not
    represented. *)
Definition str_accessor (col : list value) : result unit :=
  if existsb is_text col then Ok tt
  else if forallb isna col then Raise Unmodelled
  else if forallb (fun v => isna v || is_number v) col then Raise AttributeError
  else if forallb (fun v => isna v || is_date v) col then Raise AttributeError
  else Ok tt.

Definition standardize_address_state (df : DataFrame) : result DataFrame :=
  if has_col "Address" df then
    do _ <- str_accessor (get_col df "Address");
    Ok (set_col df "Address"
          (str_map replace_state_name <$> get_col df "Address"))
  else Ok df.

(** *** Address decomposition *)

Definition is_special (c : ascii) : bool :=
  bool_decide (c ∈ chars ".^$*+?{}[]\|()").

(** The pattern a text denotes when it is spliced into a pattern without
    escaping: plain characters stand for themselves, a dot for any
    character but a line feed.  Texts with other operators are not
    covered. *)
Fixpoint pattern_of_text (s : list ascii) : option regex :=
  match s with
  | [] => Some Empty
  | c :: s' =>
      r ← pattern_of_text s';
      if Ascii.eqb c "." then Some (Seq (Cls AnyButNewline) r)
      else if is_special c then None
      else Some (Seq (Lit c) r)
  end.

(** [r'\s+' + p + r'\s*$'] *)
Definition postcode_pattern (p : string) : result regex :=
  match pattern_of_text (chars p) with
  | Some r => Ok (Seq (Plus (Cls Space)) (Seq r (Seq (Star (Cls Space)) Eol)))
  | None => Raise Unmodelled
  end.

(** [r'\s*,?\s*' + re.escape(s) + r'\s*$'] *)
Definition suburb_pattern (s : string) : regex :=
  Seq (Star (Cls Space)) (Seq (Opt (Lit ","))
    (Seq (Star (Cls Space)) (Seq (Lits (chars s))
      (Seq (Star (Cls Space)) Eol)))).

(** [r'\s*,\s*$'] *)
Definition comma_pattern : regex :=
  Seq (Star (Cls Space)) (Seq (Lit ",") (Seq (Star (Cls Space)) Eol)).

(** [r'(\w{3})\s*$'] *)
Definition state_pattern : regex :=
  Seq (Group (Rep 3 (Cls Word))) (Seq (Star (Cls Space)) Eol).

(** [r'\s+\w{3}\s*$'] *)
Definition state_tail_pattern : regex :=
  Seq (Plus (Cls Space)) (Seq (Rep 3 (Cls Word)) (Seq (Star (Cls Space)) Eol)).

(** [re.sub(pattern, '', address, flags=re.IGNORECASE)]: a type error when
    the address is not text. *)
Definition sub_in_address (r : regex) (addr : value) : result value :=
  match addr with
  | VStr a => Ok (VStr (text (re_sub true r [] (chars a))))
  | _ => Raise TypeError
  end.

Definition remove_postcode (postcode addr : value) : result value :=
  do p <- py_str postcode;
  do r <- postcode_pattern p;
  sub_in_address r addr.

Definition remove_suburb (suburb addr : value) : result value :=
  do s <- py_str suburb;
  sub_in_address (suburb_pattern s) addr.

Definition remove_comma (a : string) : value :=
  VStr (text (re_sub false comma_pattern [] (chars a))).

Definition strip_text (a : string) : value := VStr (text (strip (chars a))).

Definition extract_state (a : string) : value :=
  match re_search_group1 false state_pattern (chars a) with
  | Some g => VStr (text g)
  | None => VNull
  end.

Definition remove_state (a : string) : value :=
  VStr (text (re_sub false state_tail_pattern [] (chars a))).

(** [df[c] = df[c].str.method(...)] *)
Definition str_update (df : DataFrame) (c : string) (f : string -> value)
    : DataFrame :=
  set_col df c (str_map f <$> get_col df c).

(** [df.apply(f, axis=1)] as the script uses it, assigned to a column:
    one value per row, or the exception [f] raises on the first row where
    it raises.  For a table without rows, [apply] returns a table instead
    of a column and the assignment raises a ValueError. *)
Definition apply_rows (f : row -> result value) (df : DataFrame)
    : result (list value) :=
  match rows df with
  | [] => Raise ValueError
  | _ :: _ => traverse f (rows df)
  end.

(** [clean_address].  After the first assignment the Address column holds
    one text per row, so that the [.str] accessor is granted in the steps
    that follow. *)
Definition clean_address (df : DataFrame) : result DataFrame :=
  if has_col "Address" df && has_col "Postcode" df && has_col "Suburb" df then
    do a <- apply_rows (fun r => remove_postcode (row_get df "Postcode" r)
                                   (row_get df "Address" r)) df;
    let df := set_col df "Address" a in
    let df := str_update df "Address" remove_comma in
    let df := str_update df "Address" strip_text in
    let df := set_col df "State" (str_map extract_state <$> get_col df "Address") in
    let df := str_update df "Address" remove_state in
    let df := str_update df "Address" strip_text in
    do a <- apply_rows (fun r => remove_suburb (row_get df "Suburb" r)
                                   (row_get df "Address" r)) df;
    let df := set_col df "Address" a in
    Ok (str_update df "Address" strip_text)
  else Ok df.

(** *** Quality audits *)

(** The audits receive the table by reference; each is written as a
    function from the table to the table after the call and the report. *)

(** [check_missing_values]: the table after the call and the summary.  The
    function assigns nothing to the table.  The summary has a line for
    each column with missing cells; it is given as the number of missing
    cells it shows for a column, nothing for a column without a line.  (The
    percentage of a line is this number over the number of rows; the order
    of the lines, by descending percentage, is not represented.) *)
Definition check_missing_values (df : DataFrame)
    : DataFrame * (string -> option nat) :=
  let missing_values c :=
    length (filter (fun v => isna v = true) (get_col df c)) in
  (df, fun c => if has_col c df && (0 <? missing_values c)
                then Some (missing_values c) else None).

(** The numbers: the finite ones and the two infinite floats. *)
Inductive number :=
| Finite (q : Qc)
| Infinite (negative : bool).

Definition num_of (v : value) : option number :=
  match v with
  | VInt z => Some (Finite (Q2Qc (inject_Z z)))
  | VFloat q => Some (Finite q)
  | VInf negative => Some (Infinite negative)
  | _ => None
  end.

Definition number_compare (a b : number) : comparison :=
  match a, b with
  | Finite p, Finite q => Qccompare p q
  | Finite _, Infinite negative => if negative then Gt else Lt
  | Infinite negative, Finite _ => if negative then Lt else Gt
  | Infinite true, Infinite false => Lt
  | Infinite false, Infinite true => Gt
  | Infinite _, Infinite _ => Eq
  end.

Definition number_min (a b : number) : number :=
  match number_compare a b with Gt => b | _ => a end.

Definition number_max (a b : number) : number :=
  match number_compare a b with Lt => b | _ => a end.

Definition reduce (f : number -> number -> number) (l : list number)
    : option number :=
  match l with
  | [] => None
  | q :: l' => Some (foldl f q l')
  end.

(** What [check_invalid_values] prints for the Price column. *)
Record price_summary := PriceSummary {
  invalid_values : nat;
  min_value : option number;
  max_value : option number
}.

Section PriceAudit.

(** [pd.to_numeric(column, errors='coerce')]: the numbers pandas reads
    from the cells of a column, the missing value for a cell in which it
    reads none.  pandas gives the whole column one dtype: as soon as one
    cell is a float or missing, the integers of the column are converted
    to floats.  The coercion is pandas', it is a parameter here. *)
Variable to_numeric : list value -> list value.

(** [price.isna() | (price < 0)] on one cell of the coerced column *)
Definition invalid_price (v : value) : bool :=
  match num_of v with
  | Some q => bool_decide (number_compare q (Finite (Q2Qc 0)) = Lt)
  | None => true
  end.

Definition check_invalid_values (df : DataFrame)
    : DataFrame * option price_summary :=
  if has_col "Price" df then
    let df := set_col df "Price" (to_numeric (get_col df "Price")) in
    let price := get_col df "Price" in
    let invalid_count := length (filter (fun v => invalid_price v = true) price) in
    if 0 <? invalid_count then
      (df, Some (PriceSummary invalid_count
                   (reduce number_min (omap num_of price))
                   (reduce number_max (omap num_of price))))
    else (df, None)
  else (df, None).

End PriceAudit.

(** [r'^\d{4}$'] *)
Definition postcode_format : regex := Seq Bol (Seq (Rep 4 (Cls Digit)) Eol).

(** [.str.match(r'^\d{4}$')] on one text *)
Definition valid_postcode (s : string) : bool :=
  re_match false postcode_format (chars s).

(** [.astype(int)] on one text; [None] where [int] raises ValueError. *)
Definition int_cell (s : string) : option value := VInt <$> py_int s.

(** What [check_invalidate_postcodes] prints when it finds invalid
    postcodes: their number and their distinct values. *)
Record postcode_report := PostcodeReport {
  invalid_count : nat;
  invalid_postcodes : list string
}.

Definition check_invalidate_postcodes (df : DataFrame)
    : result (DataFrame * option postcode_report) :=
  if has_col "Postcode" df then
    do strs <- traverse py_str (get_col df "Postcode");
    let df := set_col df "Postcode" (VStr <$> strs) in
    let invalid := filter (fun s => valid_postcode s = false) strs in
    if 0 <? length invalid then
      let report := PostcodeReport (length invalid) (first_occurrences [] invalid) in
      do vals <- traverse (fun s =>
                   if valid_postcode s
                   then match int_cell s with
                        | Some v => Ok v
                        | None => Raise ValueError
                        end
                   else Ok (VStr s)) strs;
      Ok (set_col df "Postcode" vals, Some report)
    else
      do vals <- traverse (fun s =>
                   match int_cell s with
                   | Some v => Ok v
                   | None => Raise ValueError
                   end) strs;
      Ok (set_col df "Postcode" vals, None)
  else Ok (df, None).

(** *** Merging and sorting *)

(** The columns of [pd.concat(dfs)]: the union of the tables' columns in
    the order of their first appearance. *)
Definition union_columns (dfs : list DataFrame) : list string :=
  first_occurrences [] (dfs ≫= columns).

(** The rows of [df] laid out on the columns [cols]; a column [df] lacks
    is filled with missing values. *)
Definition reindex (cols : list string) (df : DataFrame) : list row :=
  (fun r => (fun c => row_get df c r) <$> cols) <$> rows df.

(** [pd.concat(dfs, ignore_index=True)] *)
Definition concat (dfs : list DataFrame) : DataFrame :=
  let cols := union_columns dfs in
  mkDF cols (dfs ≫= reindex cols).

Definition date_compare (d e : date) : comparison :=
  match Z.compare (year d) (year e) with
  | Eq => match Z.compare (month d) (month e) with
          | Eq => Z.compare (day d) (day e)
          | o => o
          end
  | o => o
  end.

(** Python's ordering of two cell values; [None] where [<] raises a type
    error. *)
Definition value_cmp (a b : value) : option comparison :=
  match a, b with
  | VStr s, VStr t => Some (String.compare s t)
  | VDate d, VDate e => Some (date_compare d e)
  | _, _ =>
      match num_of a, num_of b with
      | Some p, Some q => Some (number_compare p q)
      | _, _ => None
      end
  end.

Definition key_le (a b : value) : Prop :=
  value_cmp a b = Some Lt \/ value_cmp a b = Some Eq.

Definition has_key (df : DataFrame) (c : string) (r : row) : Prop :=
  isna (row_get df c r) = false.

Definition lacks_key (df : DataFrame) (c : string) (r : row) : Prop :=
  isna (row_get df c r) = true.

#[global] Instance has_key_dec df c r : Decision (has_key df c r).
Proof. unfold has_key. apply _. Defined.

#[global] Instance lacks_key_dec df c r : Decision (lacks_key df c r).
Proof. unfold lacks_key. apply _. Defined.

(** [df.sort_values(c)] with pandas' defaults (ascending, missing keys
    last, kind 'quicksort').  The rows with a key come first, in ascending
    order of their keys; the rows without a key follow in their order in
    [df].  pandas leaves the order among rows with equal keys to the
    sorting algorithm (only the kinds 'mergesort' and 'stable' keep it), so
    the call is described by the tables it may return. *)
Inductive sort_values (c : string) (df : DataFrame) : DataFrame -> Prop :=
| sort_values_intro (sorted : list row) :
    sorted ≡ₚ filter (has_key df c) (rows df) ->
    StronglySorted (fun r1 r2 => key_le (row_get df c r1) (row_get df c r2))
      sorted ->
    sort_values c df
      (mkDF (columns df) (sorted ++ filter (lacks_key df c) (rows df))).

(** The table [save_to_csv] builds from a non-empty list of tables before
    it runs the audits: concatenation, removal of duplicates, sort. *)
Inductive combine (dfs : list DataFrame) : DataFrame -> Prop :=
| combine_sorted out :
    let combined_df := (remove_duplicates (concat dfs)).1 in
    has_col "PriceUpdatedDate" combined_df = true ->
    sort_values "PriceUpdatedDate" combined_df out ->
    combine dfs out
| combine_unsorted :
    let combined_df := (remove_duplicates (concat dfs)).1 in
    has_col "PriceUpdatedDate" combined_df = false ->
    combine dfs combined_df.

Section Saving.

Variable to_numeric : list value -> list value.

(** [save_to_csv dfs written]: the table handed to [to_csv], or nothing
    when there is no table to save. *)
Inductive save_to_csv : list DataFrame -> option DataFrame -> Prop :=
| save_nothing : save_to_csv [] None
| save_written dfs combined_df df' report :
    dfs <> [] ->
    combine dfs combined_df ->
    check_invalidate_postcodes
      (check_invalid_values to_numeric
         (check_missing_values combined_df).1).1
      = Ok (df', report) ->
    save_to_csv dfs (Some df').

End Saving.

(** A stable insertion sort on the key column, one of the orders
    [sort_values] may produce. *)
Definition key_leb (a b : value) : bool :=
  match value_cmp a b with
  | Some Lt | Some Eq => true
  | _ => false
  end.

Fixpoint insert_row (key : row -> value) (r : row) (l : list row) : list row :=
  match l with
  | [] => [r]
  | r' :: l' =>
      if key_leb (key r) (key r') then r :: l
      else r' :: insert_row key r l'
  end.

Definition insertion_sort (key : row -> value) (l : list row) : list row :=
  foldr (insert_row key) [] l.

Definition stable_sort_values (c : string) (df : DataFrame) : DataFrame :=
  mkDF (columns df)
    (insertion_sort (row_get df c) (filter (has_key df c) (rows df))
       ++ filter (lacks_key df c) (rows df)).

(** ** Stand-ins for pandas' conversions

    Two small conversions, used to run the functions above on examples.
    They read the plainest forms only: dates and times in three formats,
    and decimal numbers.  Like pandas they work on a column as a whole: the
    first one reads every text of a column in the format of the first cell
    that is not missing, the second one gives the column one kind of
    number. *)

(** The number written by the [n] characters of [s] from position [i] on,
    when they are all digits. *)
Definition digits_at (s : list ascii) (i n : nat) : option Z :=
  let d := take n (drop i s) in
  if (length d =? n) && forallb Chars.is_digit d
  then Some (Z_of_digits 0 d) else None.

Definition char_at (s : list ascii) (i : nat) (c : ascii) : bool :=
  bool_decide (s !! i = Some c).

Definition leap_year (y : Z) : bool :=
  ((y mod 4 =? 0) && negb (y mod 100 =? 0) || (y mod 400 =? 0))%Z.

Definition days_in_month (y m : Z) : Z :=
  if (m =? 2)%Z then (if leap_year y then 29 else 28)%Z
  else if ((m =? 4) || (m =? 6) || (m =? 9) || (m =? 11))%Z then 30%Z
  else 31%Z.

(** [YYYY-MM-DD] at the start of [s] *)
Definition iso_date (s : list ascii) : option date :=
  y ← digits_at s 0 4;
  m ← digits_at s 5 2;
  d ← digits_at s 8 2;
  if char_at s 4 "-" && char_at s 7 "-"
     && ((1 <=? y) && (1 <=? m) && (m <=? 12)
         && (1 <=? d) && (d <=? days_in_month y m))%Z
  then Some (Date y m d) else None.

Definition midnight (d : date) : datetime := DateTime d 0 0 0 0.

(** [YYYY-MM-DD HH:MM:SS] *)
Definition iso_timestamp (s : list ascii) : option datetime :=
  d ← iso_date s;
  h ← digits_at s 11 2;
  mi ← digits_at s 14 2;
  se ← digits_at s 17 2;
  if (length s =? 19) && char_at s 10 " "
     && char_at s 13 ":" && char_at s 16 ":"
     && ((h <? 24) && (mi <? 60) && (se <? 60))%Z
  then Some (DateTime d h mi se 0) else None.

(** [MM/DD/YYYY] *)
Definition us_date (s : list ascii) : option date :=
  m ← digits_at s 0 2;
  d ← digits_at s 3 2;
  y ← digits_at s 6 4;
  if (length s =? 10) && char_at s 2 "/" && char_at s 5 "/"
     && ((1 <=? y) && (1 <=? m) && (m <=? 12)
         && (1 <=? d) && (d <=? days_in_month y m))%Z
  then Some (Date y m d) else None.

(** The formats the stand-in knows: [%Y-%m-%d %H:%M:%S], [%Y-%m-%d] and
    [%m/%d/%Y]. *)
Inductive date_format := IsoDateTime | IsoDate | MonthDayYear.

Definition parse_as (f : date_format) (s : list ascii) : option datetime :=
  match f with
  | IsoDateTime => iso_timestamp s
  | IsoDate => if length s =? 10 then midnight <$> iso_date s else None
  | MonthDayYear => midnight <$> us_date s
  end.

(** The format of a text: the first of the three in which it can be
    read. *)
Definition guess_format (s : list ascii) : option date_format :=
  List.find (fun f => bool_decide (is_Some (parse_as f s)))
    [IsoDateTime; IsoDate; MonthDayYear].

(** The format of a column: that of its first cell that is not missing,
    when this cell is a text in one of the formats. *)
Definition column_format (col : list value) : option date_format :=
  match filter (fun v => isna v = false) col with
  | VStr t :: _ => guess_format (chars t)
  | _ => None
  end.

(** One cell: a text is read in the format of the column, or in its own
    format when the column has none; a date object is taken at midnight;
    numbers are not read. *)
Definition read_cell (fmt : option date_format) (v : value)
    : option datetime :=
  match v with
  | VStr t =>
      match fmt with
      | Some f => parse_as f (chars t)
      | None => guess_format (chars t) ≫= fun f => parse_as f (chars t)
      end
  | VDate d => Some (midnight d)
  | _ => None
  end.

Definition plain_to_datetime (col : list value)
    : result (list (option datetime)) :=
  Ok (read_cell (column_format col) <$> col).

Fixpoint leading_digits (s : list ascii) : list ascii :=
  match s with
  | c :: s' => if Chars.is_digit c then c :: leading_digits s' else []
  | [] => []
  end.

(** Digits, with an optional sign before them and an optional fraction
    after them. *)
Definition plain_decimal (text : string) : option Qc :=
  let s := chars text in
  let '(neg, body) :=
    match s with
    | c :: s' => if Ascii.eqb c "-" then (true, s') else (false, s)
    | [] => (false, s)
    end in
  let int_part := leading_digits body in
  let after := drop (length int_part) body in
  let frac := match after with
              | c :: f => if Ascii.eqb c "." then Some f else None
              | [] => Some []
              end in
  match frac with
  | Some f =>
      if forallb Chars.is_digit f && negb (length int_part =? 0) then
        let n := Z_of_digits 0 (int_part ++ f) in
        let q := Q2Qc (Qmake (if neg then - n else n)%Z
                         (Z.to_pos (10 ^ Z.of_nat (length f)))) in
        Some q
      else None
  | None => None
  end.

(** One cell read as a number: a text of digits as an integer, a text
    with a fraction as a float, any other text and a date as nothing. *)
Definition read_number (v : value) : value :=
  match v with
  | VStr s =>
      match plain_decimal s with
      | Some q =>
          if bool_decide ("."%char ∈ chars s) then VFloat q
          else VInt (Qnum (this q))
      | None => VNull
      end
  | VInt _ | VFloat _ | VInf _ => v
  | VNull | VDate _ => VNull
  end.

Definition is_int (v : value) : bool :=
  match v with VInt _ => true | _ => false end.

(** An integer as a float.  (The integers of the examples are small: a
    float writes them exactly.) *)
Definition as_float (v : value) : value :=
  match v with
  | VInt z => VFloat (Q2Qc (inject_Z z))
  | _ => v
  end.

(** The column of the numbers read: integers when every cell reads as an
    integer, floats otherwise. *)
Definition plain_to_numeric (col : list value) : list value :=
  let cells := read_number <$> col in
  if forallb is_int cells then cells else as_float <$> cells.

(** ** Notions used in the statements *)

(** The order of the numbers. *)
Definition number_le (a b : number) : Prop := number_compare a b <> Gt.

Definition number_lt (a b : number) : Prop := number_compare a b = Lt.

#[global] Instance number_lt_dec a b : Decision (number_lt a b).
Proof. unfold number_lt. apply _. Defined.

(** ASCII text, and the cells that hold no other text. *)
Definition ascii_text (s : string) : Prop :=
  forallb Chars.is_ascii (chars s) = true.

Definition ascii_cell (v : value) : Prop :=
  match v with
  | VStr s => ascii_text s
  | _ => True
  end.

Definition ascii_column (df : DataFrame) (c : string) : Prop :=
  Forall ascii_cell (get_col df c).

(** A table whose addresses, postcodes and suburbs are ASCII text where
    they are text. *)
Definition ascii_addresses (df : DataFrame) : Prop :=
  ascii_column df "Address" /\ ascii_column df "Postcode"
  /\ ascii_column df "Suburb".

Definition is_float (v : value) : bool :=
  match v with VFloat _ | VInf _ => true | _ => false end.

(** Tables whose merge converts no integer to a float.  pandas gives each
    column of the merged table one dtype, and the integers of a column
    become floats when the column meets floats or missing values, in
    another table or as the filling for a table that lacks the column.
    The embedding keeps the integers as they are; the statements on the
    cells of the merged table are made for the lists of tables in which
    the conversion cannot happen: every table has a row, and a column in
    which some table holds an integer is a column of every table and holds
    neither a float nor a missing value in any of them. *)
Definition keeps_integers (dfs : list DataFrame) : Prop :=
  forallb (fun df => negb (nrows df =? 0)) dfs
  && forallb
       (fun c =>
          implb (existsb (fun df => existsb is_int (get_col df c)) dfs)
            (forallb
               (fun df =>
                  has_col c df
                  && forallb (fun v => negb (isna v) && negb (is_float v))
                       (get_col df c)) dfs))
       (union_columns dfs)
  = true.

(** [same_except cs df df']: [df'] keeps the invariant and the number of
    rows of [df] and agrees with [df] on every column outside [cs]. *)
Definition same_except (cs : list string) (df df' : DataFrame) : Prop :=
  wf df' /\ nrows df' = nrows df
  /\ forall c, c ∉ cs -> get_col df' c = get_col df c.

(** [keeps_order c df out]: rows with the same key are in [out] in the
    order they have in [df], as a stable sort leaves them. *)
Definition keeps_order (c : string) (df out : DataFrame) : Prop :=
  forall k : value,
    filter (fun r => row_get df c r = k) (rows out)
    = filter (fun r => row_get df c r = k) (rows df).

(** A key that is a date or missing, as the PriceUpdatedDate cells are
    after date cleaning. *)
Definition date_or_null (v : value) : Prop :=
  match v with
  | VDate _ | VNull => True
  | _ => False
  end.

(** Tables that can be saved together as the embedding describes it: their
    merge converts no integer to a float, and their postcodes are ASCII
    text where they are text. *)
Definition mergeable (dfs : list DataFrame) : Prop :=
  keeps_integers dfs /\ Forall (fun df => ascii_column df "Postcode") dfs.

(** [reaches k st st']: from [st] the matcher gets to [st'] by consuming
    [k] characters of the text. *)
Definition reaches (k : nat) (st st' : mstate) : Prop :=
  consumed st' = consumed st + k /\ rest st' = drop k (rest st)
  /\ k <= length (rest st).

(** The Postcode cell the audit leaves for a cell whose text form is [s]:
    the number its first four characters write when the text passes the
    four-digit test, the text itself otherwise. *)
Definition audited_postcode (s : string) : value :=
  if valid_postcode s then VInt (Z_of_digits 0 (take 4 (chars s)))
  else VStr s.

(** ** The address decomposition on columns *)

(** The address decomposition on columns: from the Postcode, Suburb and
    Address columns to the new Address column and the State column. *)
Definition stripped_addresses (a1 : list value) : list value :=
  str_map strip_text <$> (str_map remove_comma <$> a1).

Definition state_column (a3 : list value) : list value :=
  str_map extract_state <$> a3.

Definition addresses_without_state (a3 : list value) : list value :=
  str_map strip_text <$> (str_map remove_state <$> a3).

Definition address_columns (postcodes suburbs addresses : list value)
    : result (list value * list value) :=
  do a1 <- traverse (fun p => remove_postcode p.1 p.2)
             (zip postcodes addresses);
  let a3 := stripped_addresses a1 in
  do a6 <- traverse (fun p => remove_suburb p.1 p.2)
             (zip suburbs (addresses_without_state a3));
  Ok (str_map strip_text <$> a6, state_column a3).

(** ** The state steps without patterns

    What the extraction and the removal of the state compute, written on
    lists of characters without patterns; the matcher is compared with
    these definitions further down. *)

(** The length of the longest prefix of [l] whose characters satisfy [p]. *)
Fixpoint span (p : ascii -> bool) (l : list ascii) : nat :=
  match l with
  | c :: l' => if p c then S (span p l') else 0
  | [] => 0
  end.

(** The matcher state [j] characters further on. *)
Definition advance (j : nat) (st : mstate) : mstate :=
  MState (consumed st + j) (drop j (rest st)) (group1 st).

(** A text that does not end with white space. *)
Definition ends_clean (t : list ascii) : Prop :=
  forall c, last t = Some c -> Chars.is_space c = false.

(** [\s*$], the end of the patterns of the decomposition. *)
Definition tail_pattern : regex := Seq (Star (Cls Space)) Eol.

(** The last three characters of a text. *)
Definition last3 (s : list ascii) : list ascii := drop (length s - 3) s.

(** The text ends with three word characters. *)
Definition ends_in_word3 (s : list ascii) : bool :=
  (3 <=? length s) && forallb Chars.is_word (last3 s).

Definition word3 (x y z : ascii) : bool :=
  Chars.is_word x && Chars.is_word y && Chars.is_word z.

(** Exactly three word characters. *)
Definition word3_exact (u : list ascii) : bool :=
  match u with
  | [x; y; z] => word3 x y z
  | _ => false
  end.

(** White space, at least one character of it, followed by exactly three
    word characters. *)
Definition is_state_tail (s : list ascii) : bool :=
  let n := span Chars.is_space s in
  (0 <? n) && word3_exact (drop n s).

(** The first position from which the text is such a tail. *)
Fixpoint state_tail_start (s : list ascii) : option nat :=
  if is_state_tail s then Some 0
  else match s with
       | [] => None
       | _ :: s' => S <$> state_tail_start s'
       end.

(** The text without such a tail. *)
Definition cut_state_tail (s : list ascii) : list ascii :=
  match state_tail_start s with
  | Some k => take k s
  | None => s
  end.

(** ** Example data *)

Definition LF : string := String Chars.newline "".

Definition date_2024_05_01 : date := Date 2024 5 1.

(** Eighteen distinct rows with the same date. *)
Definition same_day_row (i : nat) : row :=
  [VInt (Z.of_nat i); VDate date_2024_05_01].

Definition same_day_table : DataFrame :=
  mkDF ["StationCode"; "PriceUpdatedDate"] (same_day_row <$> seq 0 18).

(** The same rows in the order 0, 15, 14, ..., 1, 16, 17. *)
Definition same_day_shuffled : DataFrame :=
  mkDF ["StationCode"; "PriceUpdatedDate"]
    (same_day_row 0 :: rev (same_day_row <$> seq 1 15)
       ++ (same_day_row <$> seq 16 2)).

Definition dates_table : DataFrame :=
  mkDF ["PriceUpdatedDate"; "Price"]
    [[VStr "2024-05-01 13:45:00"; VStr "159.9"];
     [VStr "not-a-date"; VStr "abc"];
     [VNull; VInt 150]].

Definition stations_table : DataFrame :=
  mkDF ["ServiceStationName"; "Address"; "Suburb"; "Postcode";
        "PriceUpdatedDate"]
    [[VStr "Metro Fuel"; VStr "12 Main St, SYDNEY NEW SOUTH WALES 2000";
      VStr "SYDNEY"; VInt 2000; VStr "2024-05-01 13:45:00"];
     [VStr "Coastal"; VStr "1 High Street, Glebe NSW 2037";
      VStr "glebe"; VInt 2037; VStr "not-a-date"]].

Definition table_a : DataFrame :=
  mkDF ["ServiceStationName"; "PriceUpdatedDate"]
    [[VStr "Metro Fuel"; VDate (Date 2024 5 2)];
     [VStr "Coastal"; VDate (Date 2024 5 1)]].

Definition table_b : DataFrame :=
  mkDF ["ServiceStationName"; "PriceUpdatedDate"]
    [[VStr "Coastal"; VDate (Date 2024 5 1)];
     [VStr "Harbour"; VDate (Date 2024 4 30)]].

Definition addresses_table : DataFrame :=
  mkDF ["Address"; "Suburb"; "Postcode"]
    [[VStr "12 Main St, Sydney NSW 2000"; VStr "Sydney"; VInt 2000];
     [VStr "1 High Street"; VStr "Glebe"; VInt 2037]].

Definition addresses_cleaned : DataFrame :=
  mkDF ["Address"; "Suburb"; "Postcode"; "State"]
    [[VStr "12 Main St"; VStr "Sydney"; VInt 2000; VStr "NSW"];
     [VStr "1 High Street"; VStr "Glebe"; VInt 2037; VStr "eet"]].

(** ** More notions used in the statements *)

(** The ten digits. *)
Definition digit_chars : list ascii := chars "0123456789".

(** [each4 l check]: [check] holds of every four characters taken from [l]. *)
Definition each4 (l : list ascii) (check : ascii -> ascii -> ascii -> ascii -> bool)
    : bool :=
  forallb (fun a => forallb (fun b => forallb (fun c => forallb (check a b c) l) l) l) l.

(** The character [str.title] writes for the letter or other character
    [c], given whether the character before it is a letter. *)
Definition title_char (after_letter : bool) (c : ascii) : ascii :=
  if Chars.is_alpha c
  then (if after_letter then Chars.lower c else Chars.upper c)
  else c.

(** Whether the character before position [i] of [s] is a letter. *)
Definition after_letter (s : list ascii) (i : nat) : bool :=
  match i with
  | 0 => false
  | S j => match s !! j with
           | Some c => Chars.is_alpha c
           | None => false
           end
  end.

(** A cell that is text or missing. *)
Definition text_or_null (v : value) : Prop :=
  match v with
  | VNull | VStr _ => True
  | _ => False
  end.

(** A text cell in title case, any other cell as it is. *)
Definition titled (v : value) : value :=
  match v with
  | VStr s => VStr (title s)
  | _ => v
  end.

(** ** The main block *)

Section Run.

Variable to_datetime : list value -> result (list (option datetime)).
Variable to_numeric : list value -> list value.

(** The body of the loop of the main block: the cleaning of one table. *)
Definition process_table (df : DataFrame) : result DataFrame :=
  do df <- clean_datetime_fields to_datetime df DATE_FIELDS;
  let df := (remove_duplicates df).1 in
  do df <- standardize_suburb_names df;
  do df <- standardize_address_state df;
  clean_address df.

(** The main block, from the list of downloaded tables on: nothing is
    done for an empty list; otherwise the tables are cleaned one after the
    other and saved together.  An exception raised while a table is cleaned
    is not caught, it ends the run before anything is saved.  Nothing is
    said of a run in which the cleaning of a table is not described. *)
Inductive main_block : list DataFrame -> result (option DataFrame) -> Prop :=
| main_no_data : main_block [] (Ok None)
| main_raised all_data e :
    all_data <> [] ->
    traverse process_table all_data = Raise e ->
    e <> Unmodelled ->
    main_block all_data (Raise e)
| main_saved all_data cleaned written :
    all_data <> [] ->
    traverse process_table all_data = Ok cleaned ->
    save_to_csv to_numeric cleaned written ->
    main_block all_data (Ok written).

End Run.

(** ** More example data *)

Definition more_stations_table : DataFrame :=
  mkDF ["ServiceStationName"; "Address"; "Suburb"; "Postcode";
        "PriceUpdatedDate"]
    [[VStr "Harbour"; VStr "3 Quay Rd, Manly NSW 2095";
      VStr "MANLY"; VInt 2095; VStr "2024-04-30 08:00:00"]].

Definition prices_table : DataFrame :=
  mkDF ["Postcode"; "Price"; "PriceUpdatedDate"]
    [[VStr "2000"; VStr "159.9"; VDate (Date 2024 5 2)];
     [VStr "0800"; VStr "abc"; VDate (Date 2024 5 1)]].

(** ** The download

    [download_fuel_data] asks the portal for its page, takes the links of
    the page and downloads the files whose names pass the year filter.
    The network and the parsers are parameters: [get n url] is the answer
    to the request for [url] when [n] files have been requested before it,
    [None] when [requests.get] or [raise_for_status] raises; [read_csv]
    and [read_excel] give [None] when the parser raises.  A link is given
    by its [href], [None] for a link that has none. *)

Definition YEAR_FILTER : list string := ["2024"; "2025"].

(** [s.split('/')[-1]]: what follows the last slash of [s]. *)
Definition last_segment (s : list ascii) : list ascii :=
  foldl (fun acc c => if Ascii.eqb c "/" then [] else acc ++ [c]) [] s.

(** [s.startswith(p)] *)
Fixpoint starts_with (p s : list ascii) : bool :=
  match p, s with
  | [], _ => true
  | c :: p', d :: s' => Ascii.eqb c d && starts_with p' s'
  | _ :: _, [] => false
  end.

(** [sub in s] *)
Fixpoint contains (sub s : list ascii) : bool :=
  starts_with sub s
  || match s with
     | [] => false
     | _ :: s' => contains sub s'
     end.

(** [s.endswith(suffix)] *)
Definition ends_with (suffix s : list ascii) : bool :=
  starts_with (rev suffix) (rev s).

(** [file_url.split('/')[-1].lower()] *)
Definition file_name_of (file_url : string) : list ascii :=
  Chars.lower <$> last_segment (chars file_url).

(** [any(year in file_name for year in YEAR_FILTER)] *)
Definition in_year_filter (file_name : list ascii) : bool :=
  existsb (fun year => contains (chars year) file_name) YEAR_FILTER.

Section Download.

Variable content : Type.
Variable get : nat -> string -> option content.
Variable read_csv read_excel : content -> option DataFrame.

(** The table read from a downloaded file, if its name has one of the two
    extensions and the parser does not raise. *)
Definition read_file (file_name : list ascii) (c : content)
    : option DataFrame :=
  if ends_with (chars ".csv") file_name then read_csv c
  else if ends_with (chars ".xlsx") file_name then read_excel c
  else None.

(** The loop over the links.  The state is the list of tables collected
    and the list of the URLs requested so far.  A link without [href]
    raises a KeyError outside the inner handler: the loop ends there, with
    the tables collected so far. *)
Fixpoint scan_links (links : list (option string))
    (all_data : list DataFrame) (requested : list string)
    : list DataFrame * list string :=
  match links with
  | [] => (all_data, requested)
  | None :: _ => (all_data, requested)
  | Some file_url :: links' =>
      let file_name := file_name_of file_url in
      if in_year_filter file_name then
        match get (length requested) file_url with
        | Some c =>
            match read_file file_name c with
            | Some df =>
                scan_links links' (all_data ++ [df]) (requested ++ [file_url])
            | None => scan_links links' all_data (requested ++ [file_url])
            end
        | None => scan_links links' all_data (requested ++ [file_url])
        end
      else scan_links links' all_data requested
  end.

(** The table got from the file at [file_url] when it is requested after
    [n] other files. *)
Definition fetched_table (n : nat) (file_url : string) : option DataFrame :=
  get n file_url ≫= read_file (file_name_of file_url).

(** [download_fuel_data]: the tables collected and the URLs of the files
    requested; [page] is the list of links of the page, [None] when the
    page could not be fetched. *)
Definition download_fuel_data (page : option (list (option string)))
    : list DataFrame * list string :=
  match page with
  | Some links => scan_links links [] []
  | None => ([], [])
  end.

End Download.

(** A URL whose file name passes the year filter. *)
Definition wanted (file_url : string) : Prop :=
  in_year_filter (file_name_of file_url) = true.

#[global] Instance wanted_dec file_url : Decision (wanted file_url).
Proof. unfold wanted. apply _. Defined.

(** The links before the first link without [href]. *)
Fixpoint hrefs_before_gap (links : list (option string)) : list string :=
  match links with
  | Some file_url :: links' => file_url :: hrefs_before_gap links'
  | _ => []
  end.

(** ** The texts a pattern matches

    The matcher is compared with the usual reading of a pattern as a set
    of texts, for the patterns without groups and anchors. *)

Fixpoint plain (r : regex) : bool :=
  match r with
  | Empty | Lit _ | Cls _ => true
  | Seq r1 r2 => plain r1 && plain r2
  | Star r1 | Opt r1 => plain r1
  | Group _ | Bol | Eol => false
  end.

Inductive lang (ic : bool) : regex -> list ascii -> Prop :=
| lang_empty : lang ic Empty []
| lang_lit c x : lit_matches ic c x = true -> lang ic (Lit c) [x]
| lang_cls k x : in_cls k x = true -> lang ic (Cls k) [x]
| lang_seq r1 r2 w1 w2 :
    lang ic r1 w1 -> lang ic r2 w2 -> lang ic (Seq r1 r2) (w1 ++ w2)
| lang_star_nil r : lang ic (Star r) []
| lang_star_more r w1 w2 :
    lang ic r w1 -> w1 <> [] -> lang ic (Star r) w2 ->
    lang ic (Star r) (w1 ++ w2)
| lang_opt_none r : lang ic (Opt r) []
| lang_opt_some r w : lang ic r w -> lang ic (Opt r) w.

(** The state reached from [st] by matching the text [w], which leaves
    [t']. *)
Definition after (st : mstate) (w t' : list ascii) : mstate :=
  MState (consumed st + length w) t' (group1 st).

(** A text made of white space. *)
Definition blank (ws : list ascii) : Prop :=
  forallb Chars.is_space ws = true.

(** A text that ends as the pattern [r] followed by [\s*$] asks: a text
    of [r] and then white space to the end. *)
Definition ends_as (ic : bool) (r : regex) (u : list ascii) : Prop :=
  exists w ws, u = w ++ ws /\ lang ic r w /\ blank ws.

(** [b] is the first position of [s] from which the rest of [s] has the
    form [E]. *)
Definition first_position (E : list ascii -> Prop) (s : list ascii) (b : nat)
    : Prop :=
  b <= length s /\ E (drop b s) /\ forall b', b' < b -> ~ E (drop b' s).

(** ** The ends the decomposition removes, without patterns *)

(** A character [c] of a text spliced into a pattern without escaping
    against a character [x] of the address: a dot stands for any character
    but a line feed, another character for itself in either case. *)
Definition wild_matches (c x : ascii) : bool :=
  if Ascii.eqb c "." then in_cls AnyButNewline x else lit_matches true c x.

(** The same character up to the case of letters. *)
Definition same_ci (c x : ascii) : bool := lit_matches true c x.

(** White space, at least one character of it, the postcode [p], white
    space. *)
Definition postcode_end (p u : list ascii) : Prop :=
  exists ws1 w ws2,
    u = ws1 ++ w ++ ws2 /\ ws1 <> [] /\ blank ws1 /\ blank ws2
    /\ Forall2 (fun c x => wild_matches c x = true) p w.

(** White space, a comma, white space. *)
Definition comma_end (u : list ascii) : Prop :=
  exists ws1 ws2, u = ws1 ++ ","%char :: ws2 /\ blank ws1 /\ blank ws2.

(** White space, possibly a comma, white space, the suburb [s] in any
    case, white space. *)
Definition suburb_end (s u : list ascii) : Prop :=
  exists ws1 c ws2 w ws3,
    u = ws1 ++ c ++ ws2 ++ w ++ ws3 /\ (c = [] \/ c = [","%char])
    /\ blank ws1 /\ blank ws2 /\ blank ws3
    /\ Forall2 (fun c x => same_ci c x = true) s w.

(** A text that is not empty and does not end with white space. *)
Definition ends_solid (l : list ascii) : Prop :=
  exists x, last l = Some x /\ Chars.is_space x = false.


(** ** Occurrences of a text in a text *)

(** What follows [w] when the text [t] begins with [w] up to the case of
    letters. *)
Fixpoint strip_prefix_ci (w t : list ascii) : option (list ascii) :=
  match w, t with
  | [], _ => Some t
  | c :: w', x :: t' => if same_ci c x then strip_prefix_ci w' t' else None
  | _ :: _, [] => None
  end.

(** [w] occurs in [t] at position [i], up to the case of letters. *)
Definition occurs_at (w t : list ascii) (i : nat) : Prop :=
  is_Some (strip_prefix_ci w (drop i t)).

Definition STATE_NAME : list ascii := chars "NEW SOUTH WALES".

(** ** The decomposition of one row *)

(** The steps of [clean_address] on the postcode, the suburb and the
    address of one row: the new address and the state. *)
Definition address_row (postcode suburb address : value)
    : result (value * value) :=
  do a1 <- remove_postcode postcode address;
  let a3 := str_map strip_text (str_map remove_comma a1) in
  do a6 <- remove_suburb suburb (str_map strip_text (str_map remove_state a3));
  Ok (str_map strip_text a6, str_map extract_state a3).

(** An address in the usual form: the street part, then the suburb in any
    case (after white space, a comma, or nothing), then white space and a
    state of three word characters, then white space and the postcode in
    digits. *)
Definition standard_address (p s : string) (a street state : list ascii)
    : Prop :=
  exists ws0 c ws1 w ws2 ws3 ws4,
    a = street ++ ws0 ++ c ++ ws1 ++ w ++ ws2 ++ state ++ ws3 ++ chars p ++ ws4
    /\ street <> [] /\ lstrip street = street /\ ends_clean street
    /\ (c = [","%char] \/ (c = [] /\ last street <> Some ","%char))
    /\ blank ws0 /\ blank ws1
    /\ Forall2 (fun c x => same_ci c x = true) (chars s) w
    /\ ends_solid (chars s)
    /\ ws2 <> [] /\ blank ws2 /\ word3_exact state = true
    /\ ws3 <> [] /\ blank ws3
    /\ chars p <> [] /\ forallb Chars.is_digit (chars p) = true
    /\ blank ws4.

(** * Properties *)

(** ** First occurrences *)

Section FirstOccurrences.

Context {A : Type} `{EqDecision A}.
Implicit Types (seen l : list A) (x : A).

Lemma first_occurrences_elem seen l x :
  x ∈ first_occurrences seen l <-> x ∈ l /\ x ∉ seen.
Proof.
  revert seen. induction l as [|y l IH]; intros seen; simpl.
  - split; [intros H; inversion H | intros [H _]; inversion H].
  - destruct (decide (y ∈ seen)) as [Hy|Hy].
    + rewrite IH, elem_of_cons. split; [tauto|].
      intros [[->|Hx] Hn]; [contradiction | tauto].
    + rewrite !elem_of_cons, IH, elem_of_cons. split.
      * intros [->|[Hx Hn]]; [tauto | split; [tauto|]].
        intros Hs. apply Hn. now right.
      * intros [[->|Hx] Hn]; [now left|].
        destruct (decide (x = y)) as [->|Hne]; [now left | right].
        split; [assumption | now intros [?|?]].
Qed.

Lemma first_occurrences_sublist seen l :
  first_occurrences seen l `sublist_of` l.
Proof.
  revert seen. induction l as [|y l IH]; intros seen; simpl.
  - constructor.
  - destruct (decide (y ∈ seen)); [apply sublist_cons | apply sublist_skip];
      apply IH.
Qed.

Lemma first_occurrences_NoDup seen l : NoDup (first_occurrences seen l).
Proof.
  revert seen. induction l as [|y l IH]; intros seen; simpl.
  - constructor.
  - destruct (decide (y ∈ seen)); [apply IH|].
    apply NoDup_cons. split; [|apply IH].
    rewrite first_occurrences_elem, elem_of_cons. tauto.
Qed.

(** Only the members of [seen] matter. *)
Lemma first_occurrences_seen_ext seen seen' l :
  (forall x, x ∈ seen <-> x ∈ seen') ->
  first_occurrences seen l = first_occurrences seen' l.
Proof.
  revert seen seen'. induction l as [|y l IH]; intros seen seen' Hext; simpl.
  - reflexivity.
  - destruct (decide (y ∈ seen)) as [Hy|Hy];
      destruct (decide (y ∈ seen')) as [Hy'|Hy'];
      try (exfalso; apply Hext in Hy || apply Hext in Hy'; contradiction).
    + now apply IH.
    + f_equal. apply IH. intros x. rewrite !elem_of_cons, Hext. tauto.
Qed.

Lemma first_occurrences_app seen l1 l2 :
  first_occurrences seen (l1 ++ l2)
  = first_occurrences seen l1 ++ first_occurrences (l1 ++ seen) l2.
Proof.
  revert seen. induction l1 as [|y l1 IH]; intros seen; simpl.
  - reflexivity.
  - destruct (decide (y ∈ seen)) as [Hy|Hy].
    + rewrite IH. f_equal. apply first_occurrences_seen_ext.
      intros x. simpl. rewrite elem_of_cons, !elem_of_app.
      split; [tauto|]. intros [->|?]; tauto.
    + simpl. f_equal. rewrite IH. f_equal.
      apply first_occurrences_seen_ext.
      intros x. rewrite elem_of_app, !elem_of_cons, elem_of_app. tauto.
Qed.

(** A list without repetition that avoids [seen] is left as it is. *)
Lemma first_occurrences_id seen l :
  NoDup l -> (forall x, x ∈ l -> x ∉ seen) ->
  first_occurrences seen l = l.
Proof.
  revert seen. induction l as [|y l IH]; intros seen Hnd Hdis; simpl.
  - reflexivity.
  - apply NoDup_cons in Hnd as [Hy Hnd].
    destruct (decide (y ∈ seen)) as [Hs|Hs].
    + exfalso. apply (Hdis y); [now left | assumption].
    + f_equal. apply IH; [assumption|].
      intros x Hx. rewrite elem_of_cons. intros [->|Hxs]; [contradiction|].
      apply (Hdis x); [now right | assumption].
Qed.

Lemma first_occurrences_idemp l :
  first_occurrences [] (first_occurrences [] l) = first_occurrences [] l.
Proof.
  apply first_occurrences_id; [apply first_occurrences_NoDup|].
  intros x _ H. inversion H.
Qed.

(** The first occurrence of a row is the one that is kept: in the result
    it is preceded by exactly the rows that precede it in the input. *)
Lemma first_occurrences_split l1 x l2 :
  x ∉ l1 ->
  exists k2,
    first_occurrences [] (l1 ++ x :: l2)
    = first_occurrences [] l1 ++ x :: k2.
Proof.
  intros Hx. rewrite first_occurrences_app. simpl.
  destruct (decide (x ∈ l1 ++ [])) as [Hin|Hin].
  - rewrite app_nil_r in Hin. contradiction.
  - eexists. reflexivity.
Qed.

Lemma first_occurrences_length seen l :
  length (first_occurrences seen l) <= length l.
Proof. apply sublist_length, first_occurrences_sublist. Qed.

End FirstOccurrences.

(** ** Columns of a table *)

Lemma index_of_lookup c cols i :
  index_of c cols = Some i -> cols !! i = Some c.
Proof.
  revert i. induction cols as [|c' cols IH]; intros i; simpl; [discriminate|].
  destruct (String.eqb_spec c c') as [->|Hne].
  - now intros [= <-].
  - destruct (index_of c cols) as [j|]; simpl; [|discriminate].
    intros [= <-]. now apply IH.
Qed.

Lemma index_of_lt c cols i : index_of c cols = Some i -> i < length cols.
Proof. intros H. eapply lookup_lt_Some, index_of_lookup, H. Qed.

Lemma index_of_None c cols : index_of c cols = None <-> c ∉ cols.
Proof.
  induction cols as [|c' cols IH]; simpl.
  - split; [intros _ H; inversion H | reflexivity].
  - rewrite elem_of_cons. destruct (String.eqb_spec c c') as [->|Hne].
    + split; [discriminate | tauto].
    + destruct (index_of c cols); simpl.
      * split; [discriminate|]. intros H. exfalso.
        assert (Hc : c ∉ cols) by tauto. apply IH in Hc. discriminate.
      * split; [|reflexivity]. intros _ [?|?]; [contradiction|].
        now apply IH.
Qed.

Lemma index_of_inj c c' cols i :
  index_of c cols = Some i -> index_of c' cols = Some i -> c = c'.
Proof.
  intros H H'. apply index_of_lookup in H, H'. congruence.
Qed.

Lemma index_of_app_l c cols extra i :
  index_of c cols = Some i -> index_of c (cols ++ extra) = Some i.
Proof.
  revert i. induction cols as [|c' cols IH]; intros i; simpl; [discriminate|].
  destruct (String.eqb_spec c c'); [trivial|].
  destruct (index_of c cols) as [j|]; simpl; [|discriminate].
  intros [= <-]. now rewrite (IH j).
Qed.

Lemma index_of_snoc_other c c' cols :
  index_of c cols = None -> c <> c' -> index_of c (cols ++ [c']) = None.
Proof.
  intros H Hne. induction cols as [|d cols IH]; simpl in *.
  - destruct (String.eqb_spec c c'); [contradiction | reflexivity].
  - destruct (String.eqb_spec c d); [discriminate|].
    destruct (index_of c cols); [discriminate|]. now rewrite IH.
Qed.

Lemma has_col_true c df :
  has_col c df = true <-> exists i, index_of c (columns df) = Some i.
Proof. unfold has_col. rewrite bool_decide_eq_true. reflexivity. Qed.

Lemma has_col_false c df :
  has_col c df = false <-> index_of c (columns df) = None.
Proof.
  unfold has_col. rewrite bool_decide_eq_false, <- eq_None_not_Some.
  reflexivity.
Qed.

Lemma fmap_zip_with_frame {A B C} (P : A -> Prop) (f : A -> B -> A)
    (g h : A -> C) (l : list A) (k : list B) :
  (forall a b, P a -> g (f a b) = h a) ->
  Forall P l -> length k = length l ->
  g <$> zip_with f l k = h <$> l.
Proof.
  intros Hf Hl. revert k. induction Hl as [|a l Ha Hl IH]; intros k Hk.
  - now destruct k.
  - destruct k as [|b k]; [discriminate|]. simpl.
    rewrite Hf by assumption. f_equal. apply IH. now injection Hk.
Qed.

Lemma set_col_nrows df c vals :
  length vals = nrows df -> nrows (set_col df c vals) = nrows df.
Proof.
  intros H. unfold set_col, nrows in *.
  destruct (index_of c (columns df)); simpl;
    now rewrite length_zip_with_l_eq.
Qed.

Lemma set_col_columns df c vals :
  columns (set_col df c vals)
  = if has_col c df then columns df else columns df ++ [c].
Proof.
  unfold set_col. destruct (has_col c df) eqn:E.
  - apply has_col_true in E as [i ->]. reflexivity.
  - apply has_col_false in E as ->. reflexivity.
Qed.

Lemma Forall_zip_with_l {A B} (P Q : A -> Prop) (f : A -> B -> A)
    (l : list A) (k : list B) :
  (forall a b, P a -> Q (f a b)) -> Forall P l -> Forall Q (zip_with f l k).
Proof.
  intros Hf Hl. revert k.
  induction Hl as [|a l Ha Hl IH]; intros [|b k]; simpl; constructor; auto.
Qed.

Lemma set_col_wf df c vals : wf df -> wf (set_col df c vals).
Proof.
  unfold wf, set_col. intros H.
  destruct (index_of c (columns df)) as [i|]; simpl.
  - eapply Forall_zip_with_l; [|exact H].
    intros r v Hr. cbn beta in *. now rewrite length_insert.
  - eapply Forall_zip_with_l; [|exact H].
    intros r v Hr. cbn beta in *. rewrite !length_app, Hr. reflexivity.
Qed.

(** Assigning to a column leaves the other columns as they are. *)
Lemma set_col_other df c c' vals :
  wf df -> length vals = nrows df -> c' <> c ->
  get_col (set_col df c vals) c' = get_col df c'.
Proof.
  intros Hwf Hlen Hne. unfold get_col, set_col, row_get.
  destruct (index_of c (columns df)) as [i|] eqn:Ei; simpl.
  - apply (fmap_zip_with_frame (fun _ => True)); [|now apply Forall_true|easy].
    intros r v _. destruct (index_of c' (columns df)) as [j|] eqn:Ej; [|easy].
    unfold cell. rewrite list_lookup_insert_ne; [easy|].
    intros ->. apply Hne. eapply index_of_inj; eassumption.
  - apply (fmap_zip_with_frame
             (fun r : row => length r = length (columns df)));
      [|exact Hwf|easy].
    intros r v Hr.
    destruct (index_of c' (columns df)) as [j|] eqn:Ej.
    + rewrite (index_of_app_l _ _ _ _ Ej). unfold cell.
      rewrite lookup_app_l; [easy|]. rewrite Hr. eapply index_of_lt, Ej.
    + now rewrite index_of_snoc_other.
Qed.

(** The assigned column holds the assigned values. *)
Lemma set_col_same df c vals :
  wf df -> length vals = nrows df -> get_col (set_col df c vals) c = vals.
Proof.
  intros Hwf Hlen. unfold get_col, set_col, row_get, nrows in *.
  destruct (index_of c (columns df)) as [i|] eqn:Ei; simpl.
  - rewrite Ei. revert vals Hlen.
    induction Hwf as [|r rs Hr Hwf IH]; intros [|v vals] Hlen;
      try discriminate; [reflexivity|]. simpl. f_equal.
    + unfold cell. rewrite list_lookup_insert_eq; [easy|].
      rewrite Hr. eapply index_of_lt, Ei.
    + apply IH. now injection Hlen.
  - assert (Hi : index_of c (columns df ++ [c]) = Some (length (columns df))).
    { clear -Ei. induction (columns df) as [|d cols IH]; simpl in *.
      - now rewrite String.eqb_refl.
      - destruct (String.eqb_spec c d); [discriminate|].
        destruct (index_of c cols); [discriminate|]. now rewrite IH. }
    rewrite Hi. revert vals Hlen.
    induction Hwf as [|r rs Hr Hwf IH]; intros [|v vals] Hlen;
      try discriminate; [reflexivity|]. simpl. f_equal.
    + unfold cell. rewrite lookup_app_r by lia.
      now replace (length (columns df) - length r) with 0 by lia.
    + apply IH. now injection Hlen.
Qed.

Lemma get_col_length df c : length (get_col df c) = nrows df.
Proof. unfold get_col, nrows. apply length_fmap. Qed.

(** ** Removal of duplicate rows *)

(** C4.  [remove_duplicates] yields the table without its duplicate rows
    together with the number of rows removed.  Rows are duplicates when
    they are equal cell by cell (a missing value equals a missing value):
    the result has the same columns, its rows are a subsequence of the
    input rows in the input order, no row occurs twice in it, every input
    row occurs in it, and the occurrence that is kept is the first one: a
    row that first occurs after the rows [l1] is preceded in the result by
    the distinct rows of [l1].  Two equal rows, with or without missing
    values, leave one row and a count of one. *)
Theorem remove_duplicates_spec (df : DataFrame) :
  let (df', removed) := remove_duplicates df in
  columns df' = columns df
  /\ nrows df' + removed = nrows df
  /\ rows df' `sublist_of` rows df
  /\ NoDup (rows df')
  /\ (forall r, r ∈ rows df' <-> r ∈ rows df)
  /\ (forall l1 r l2, rows df = l1 ++ r :: l2 -> r ∉ l1 ->
        exists k1 k2, rows df' = k1 ++ r :: k2
                      /\ k1 `sublist_of` l1
                      /\ (forall x, x ∈ k1 <-> x ∈ l1))
  /\ (forall cols r,
        remove_duplicates (mkDF cols [r; r]) = (mkDF cols [r], 1)
        /\ remove_duplicates (mkDF cols [VNull :: r; VNull :: r])
           = (mkDF cols [VNull :: r], 1)).
Proof.
  unfold remove_duplicates, drop_duplicates, nrows. simpl.
  split; [reflexivity|]. split.
  { pose proof (first_occurrences_length [] (rows df)). lia. }
  split; [apply first_occurrences_sublist|].
  split; [apply first_occurrences_NoDup|].
  split.
  { intros r. rewrite first_occurrences_elem. split; [tauto|].
    intros H. split; [assumption|]. intros Hn. inversion Hn. }
  split.
  { intros l1 r l2 -> Hr.
    destruct (first_occurrences_split l1 r l2 Hr) as [k2 Hk].
    exists (first_occurrences [] l1), k2.
    split; [exact Hk|]. split; [apply first_occurrences_sublist|].
    intros x. rewrite first_occurrences_elem. split; [tauto|].
    intros H. split; [assumption|]. intros Hn. inversion Hn. }
  intros cols r. split; simpl.
  - destruct (decide (r ∈ [])) as [H|_]; [inversion H|].
    destruct (decide (r ∈ [r])) as [_|H]; [reflexivity|].
    exfalso. apply H. now left.
  - destruct (decide (VNull :: r ∈ [])) as [H|_]; [inversion H|].
    destruct (decide (VNull :: r ∈ [VNull :: r])) as [_|H]; [reflexivity|].
    exfalso. apply H. now left.
Qed.

(** C5.  Removing duplicates twice gives the table that removing them once
    gives, and the second pass removes no row.  The rows of the result are
    in the order in which they are first seen: when [ri] comes before [rj]
    in the result, [ri] occurs in the input before the first occurrence
    of [rj]. *)
Theorem remove_duplicates_idempotent (df : DataFrame) :
  remove_duplicates (remove_duplicates df).1 = ((remove_duplicates df).1, 0)
  /\ (forall i j ri rj,
        rows (remove_duplicates df).1 !! i = Some ri ->
        rows (remove_duplicates df).1 !! j = Some rj ->
        i < j ->
        exists i' j',
          i' < j' /\ rows df !! i' = Some ri /\ rows df !! j' = Some rj
          /\ (forall k, k < j' -> rows df !! k <> Some rj)).
Proof.
  unfold remove_duplicates, drop_duplicates, nrows. simpl. split.
  - rewrite first_occurrences_idemp. f_equal. lia.
  - intros i j ri rj Hi Hj Hlt.
    assert (Hin : rj ∈ rows df).
    { apply list_elem_of_lookup_2 in Hj.
      apply first_occurrences_elem in Hj. tauto. }
    apply list_elem_of_split_l in Hin as (l1 & l2 & Hsplit & Hfirst).
    destruct (first_occurrences_split l1 rj l2 Hfirst) as [k2 Hk].
    rewrite Hsplit in Hi, Hj. rewrite Hk in Hi, Hj.
    pose proof (first_occurrences_NoDup [] (l1 ++ rj :: l2)) as Hnd.
    rewrite Hk in Hnd.
    assert (Hj' : j = length (first_occurrences [] l1)).
    { eapply NoDup_lookup; [exact Hnd | exact Hj |].
      rewrite lookup_app_r by lia. now rewrite Nat.sub_diag. }
    subst j. rewrite lookup_app_l in Hi by assumption.
    apply list_elem_of_lookup_2, first_occurrences_elem in Hi as [Hi _].
    apply list_elem_of_lookup_1 in Hi as [i' Hi'].
    exists i', (length l1). rewrite Hsplit.
    pose proof (lookup_lt_Some _ _ _ Hi') as Hlt'.
    split; [assumption|]. split; [now rewrite lookup_app_l|]. split.
    + rewrite lookup_app_r by lia. now rewrite Nat.sub_diag.
    + intros k Hk' Hc. rewrite lookup_app_l in Hc by assumption.
      apply Hfirst. eapply list_elem_of_lookup_2, Hc.
Qed.

(** ** The worked address example *)

(** C1.  The row with Address "12 Main St NEW SOUTH WALES 2000", Postcode
    "2000" and Suburb "Sydney": the state normalisation gives the address
    "12 Main St NSW 2000"; the address decomposition of that row gives the
    address "12 Main St" and the state "NSW".  The same holds when the
    postcode cell holds the number 2000. *)
Theorem address_example :
  let df := mkDF ["Address"; "Postcode"; "Suburb"]
              [[VStr "12 Main St NEW SOUTH WALES 2000"; VStr "2000";
                VStr "Sydney"]] in
  let df_int := mkDF ["Address"; "Postcode"; "Suburb"]
                  [[VStr "12 Main St NEW SOUTH WALES 2000"; VInt 2000;
                    VStr "Sydney"]] in
  standardize_address_state df
  = Ok (mkDF ["Address"; "Postcode"; "Suburb"]
          [[VStr "12 Main St NSW 2000"; VStr "2000"; VStr "Sydney"]])
  /\ (do df <- standardize_address_state df; clean_address df)
     = Ok (mkDF ["Address"; "Postcode"; "Suburb"; "State"]
             [[VStr "12 Main St"; VStr "2000"; VStr "Sydney"; VStr "NSW"]])
  /\ (do df <- standardize_address_state df_int; clean_address df)
     = Ok (mkDF ["Address"; "Postcode"; "Suburb"; "State"]
             [[VStr "12 Main St"; VInt 2000; VStr "Sydney"; VStr "NSW"]]).
Proof. vm_compute. repeat split. Qed.

(** ** The postcode audit *)

Lemma traverse_length {A B} (f : A -> result B) xs ys :
  traverse f xs = Ok ys -> length ys = length xs.
Proof.
  revert ys. induction xs as [|x xs IH]; intros ys; simpl.
  - now intros [= <-].
  - destruct (f x); [|discriminate]. simpl.
    destruct (traverse f xs); [|discriminate]. simpl.
    intros [= <-]. simpl. f_equal. now apply IH.
Qed.

Lemma traverse_Ok {A B} (f : A -> result B) (g : A -> B) xs :
  (forall x, x ∈ xs -> f x = Ok (g x)) -> traverse f xs = Ok (g <$> xs).
Proof.
  induction xs as [|x xs IH]; intros H; simpl; [reflexivity|].
  rewrite H by now left. simpl. rewrite IH; [reflexivity|].
  intros y Hy. apply H. now right.
Qed.

(** The texts the four-digit test accepts: four digits, and four digits
    followed by one line feed. *)
Lemma valid_postcode_iff (s : string) :
  valid_postcode s = true <->
  exists a b c d,
    Chars.is_digit a = true /\ Chars.is_digit b = true
    /\ Chars.is_digit c = true /\ Chars.is_digit d = true
    /\ (chars s = [a; b; c; d] \/ chars s = [a; b; c; d; Chars.newline]).
Proof.
  unfold valid_postcode, re_match, match_at. rewrite bool_decide_eq_true.
  split.
  - intros [st H].
    destruct (chars s) as [|a [|b [|c [|d l]]]]; simpl in H; unfold one in H;
      simpl in H;
      repeat match type of H with
             | context [if Chars.is_digit ?x then _ else _] =>
                 destruct (Chars.is_digit x) eqn:?; simpl in H
             end; try discriminate.
    unfold at_eol in H; simpl in H.
    exists a, b, c, d. repeat (split; [assumption|]).
    destruct l as [|e [|f l]]; simpl in H; [now left| |discriminate].
    destruct (Chars.code e =? 10) eqn:Ee; [|discriminate].
    right. repeat f_equal. apply Nat.eqb_eq in Ee.
    unfold Chars.code in Ee. rewrite <- (ascii_nat_embedding e), Ee.
    reflexivity.
  - intros (a&b&c&d&Ha&Hb&Hc&Hd&[->| ->]); simpl; unfold one; simpl;
      rewrite Ha; simpl; rewrite Hb; simpl; rewrite Hc; simpl; rewrite Hd;
      simpl; eexists; reflexivity.
Qed.

(** C3 (the code departs from the claim).  A postcode cell holding four
    digits followed by a line feed passes the four-digit test, because [$]
    also matches before a final line feed: the cell is turned into the
    number and is not reported, although its text is not four digits. *)
Theorem postcode_trailing_newline :
  valid_postcode ("2000" +:+ LF) = true
  /\ check_invalidate_postcodes
       (mkDF ["Postcode"] [[VStr ("2000" +:+ LF)]; [VStr "NSW"]])
     = Ok (mkDF ["Postcode"] [[VInt 2000]; [VStr "NSW"]],
           Some (PostcodeReport 1 ["NSW"])).
Proof. vm_compute. split; reflexivity. Qed.

(** The examples of the postcode audit: "2000" becomes the number 2000,
    "NSW" and "20000" stay as they are and are listed. *)
Lemma postcode_audit_examples :
  check_invalidate_postcodes
    (mkDF ["Postcode"] [[VStr "2000"]; [VStr "NSW"]; [VStr "20000"];
                        [VStr "NSW"]])
  = Ok (mkDF ["Postcode"] [[VInt 2000]; [VStr "NSW"]; [VStr "20000"];
                           [VStr "NSW"]],
        Some (PostcodeReport 3 ["NSW"; "20000"])).
Proof. vm_compute. reflexivity. Qed.

(** ** Frames: what an assignment to a column leaves alone *)

Lemma same_except_refl cs df : wf df -> same_except cs df df.
Proof. intros H. repeat split; trivial. Qed.

Lemma same_except_trans cs df1 df2 df3 :
  same_except cs df1 df2 -> same_except cs df2 df3 -> same_except cs df1 df3.
Proof.
  intros (_ & Hn & Hc) (Hwf & Hn' & Hc'). repeat split; [assumption|lia|].
  intros c Hcs. now rewrite Hc', Hc.
Qed.

Lemma same_except_set_col cs df c vals :
  wf df -> length vals = nrows df -> c ∈ cs ->
  same_except cs df (set_col df c vals).
Proof.
  intros Hwf Hlen Hc. split; [now apply set_col_wf|].
  split; [now apply set_col_nrows|].
  intros c' Hc'. apply set_col_other; [assumption..|]. now intros ->.
Qed.

Lemma has_col_columns c df df' :
  columns df' = columns df -> has_col c df' = has_col c df.
Proof. unfold has_col. now intros ->. Qed.

Lemma set_col_get_col df c :
  wf df -> has_col c df = true -> set_col df c (get_col df c) = df.
Proof.
  intros Hwf [i Hi]%has_col_true. unfold set_col, get_col, row_get.
  rewrite Hi. destruct df as [cols rs]. simpl in *. f_equal.
  clear Hwf. induction rs as [|r rs IH]; simpl; [reflexivity|].
  f_equal; [|exact IH]. unfold cell.
  destruct (r !! i) as [v|] eqn:E; simpl.
  - now apply list_insert_id.
  - apply list_insert_ge. now apply lookup_ge_None.
Qed.

(** ** Date cleaning *)

Section DateCleaningFacts.

Variable to_datetime : list value -> result (list (option datetime)).

(** pandas converts a column to a column of the same length. *)
Hypothesis to_datetime_length :
  forall col ts, to_datetime col = Ok ts -> length ts = length col.

Lemma clean_datetime_field_frame df f df' :
  wf df -> clean_datetime_field to_datetime df f = Ok df' ->
  same_except [f] df df' /\ columns df' = columns df.
Proof.
  intros Hwf. unfold clean_datetime_field.
  destruct (has_col f df) eqn:E.
  - destruct (to_datetime (get_col df f)) as [ts|] eqn:Et; [|discriminate].
    simpl. intros [= <-]. apply to_datetime_length in Et.
    rewrite get_col_length in Et. split.
    + apply same_except_set_col; [assumption| |now left].
      now rewrite length_fmap.
    + now rewrite set_col_columns, E.
  - intros [= <-]. split; [now apply same_except_refl|reflexivity].
Qed.

Lemma clean_datetime_fields_frame df fields df' :
  wf df -> clean_datetime_fields to_datetime df fields = Ok df' ->
  same_except fields df df' /\ columns df' = columns df.
Proof.
  revert df. induction fields as [|f fs IH]; intros df Hwf; simpl.
  - intros [= <-]. split; [now apply same_except_refl|reflexivity].
  - destruct (clean_datetime_field to_datetime df f) as [df1|] eqn:E1;
      [|discriminate].
    simpl. intros H.
    destruct (clean_datetime_field_frame df f df1 Hwf E1)
      as ((Hwf1 & Hn1 & Hc1) & Hcols1).
    destruct (IH df1 Hwf1 H) as ((Hwf2 & Hn2 & Hc2) & Hcols2).
    split; [|congruence].
    repeat split; [assumption|lia|].
    intros c Hc. rewrite elem_of_cons in Hc.
    rewrite Hc2 by tauto. apply Hc1.
    rewrite list_elem_of_singleton. tauto.
Qed.

Lemma date_of_date_or_null ts : Forall date_or_null (date_of <$> ts).
Proof.
  apply Forall_fmap, Forall_forall. intros [t|] _; exact I.
Qed.

Lemma clean_datetime_field_same df f :
  wf df -> has_col f df = true ->
  match clean_datetime_field to_datetime df f with
  | Ok df' =>
      exists ts, to_datetime (get_col df f) = Ok ts
                 /\ get_col df' f = date_of <$> ts
  | Raise e => to_datetime (get_col df f) = Raise e
  end.
Proof.
  intros Hwf Hcol. unfold clean_datetime_field. rewrite Hcol.
  destruct (to_datetime (get_col df f)) as [ts|e] eqn:Et; simpl;
    [|reflexivity].
  exists ts. split; [reflexivity|].
  apply set_col_same; [assumption|].
  apply to_datetime_length in Et. now rewrite length_fmap, Et, get_col_length.
Qed.

(** A listed field holds dates and missing values after the cleaning, and
    so does a field that held them before. *)
Lemma clean_datetime_fields_dates df fields df' c :
  wf df -> clean_datetime_fields to_datetime df fields = Ok df' ->
  has_col c df = true ->
  c ∈ fields \/ Forall date_or_null (get_col df c) ->
  Forall date_or_null (get_col df' c).
Proof.
  revert df. induction fields as [|f fs IH]; intros df Hwf; simpl.
  - intros [= <-] _ [H|H]; [inversion H|exact H].
  - destruct (clean_datetime_field to_datetime df f) as [df1|] eqn:E1;
      [|discriminate].
    simpl. intros H Hcol Hc.
    destruct (clean_datetime_field_frame df f df1 Hwf E1)
      as ((Hwf1 & Hn1 & Hc1) & Hcols1).
    apply (IH df1 Hwf1 H).
    + now rewrite (has_col_columns _ _ _ Hcols1).
    + destruct (decide (c = f)) as [->|Hne].
      * right. pose proof (clean_datetime_field_same df f Hwf Hcol) as Hs.
        rewrite E1 in Hs. destruct Hs as (ts & _ & ->).
        apply date_of_date_or_null.
      * destruct Hc as [Hc|Hc].
        -- apply elem_of_cons in Hc as [?|Hc]; [contradiction|now left].
        -- right. rewrite Hc1; [exact Hc|]. now rewrite list_elem_of_singleton.
Qed.





End DateCleaningFacts.

Lemma plain_to_datetime_length col ts :
  plain_to_datetime col = Ok ts -> length ts = length col.
Proof. intros [= <-]. apply length_fmap. Qed.




(** ** The missing-value and price audits *)

(** C7, as the claim states it, fails: the price audit assigns the numeric
    coercion of the Price column to the table.  A Price cell holding the
    text "abc" is the missing value after the audit, and the text "159.9"
    is a number. *)
Lemma price_audit_changes_cells :
  (check_invalid_values plain_to_numeric
     (check_missing_values
        (mkDF ["Price"] [[VStr "abc"]; [VStr "159.9"]])).1).1
  = mkDF ["Price"] [[VNull]; [VFloat (Q2Qc (1599 # 10))]]
  /\ (check_invalid_values plain_to_numeric
        (check_missing_values
           (mkDF ["Price"] [[VStr "abc"]; [VStr "159.9"]])).1).1
     <> mkDF ["Price"] [[VStr "abc"]; [VStr "159.9"]].
Proof. split; [reflexivity | discriminate]. Qed.

Lemma check_invalid_values_table to_numeric df :
  (check_invalid_values to_numeric df).1
  = if has_col "Price" df
    then set_col df "Price" (to_numeric (get_col df "Price"))
    else df.
Proof.
  unfold check_invalid_values. destruct (has_col "Price" df); [|reflexivity].
  now destruct (0 <? _).
Qed.

Lemma plain_to_numeric_length col :
  length (plain_to_numeric col) = length col.
Proof.
  unfold plain_to_numeric. destruct (forallb _ _); now rewrite !length_fmap.
Qed.

(** C7, amended.  The missing-value audit leaves the table as it is.  The
    price audit keeps the columns, the number of rows and every column
    other than Price, and puts the numeric coercion of the Price column in
    the place of the Price column.  So it leaves the table as it is exactly
    when the table has no Price column or the coercion returns the Price
    column unchanged. *)
Theorem audits_frame (to_numeric : list value -> list value)
    (df : DataFrame) :
  (forall col, length (to_numeric col) = length col) ->
  wf df ->
  (check_missing_values df).1 = df
  /\ let df' := (check_invalid_values to_numeric df).1 in
     columns df' = columns df /\ nrows df' = nrows df
     /\ (forall c, c <> "Price" -> get_col df' c = get_col df c)
     /\ (has_col "Price" df = true ->
         get_col df' "Price" = to_numeric (get_col df "Price"))
     /\ (has_col "Price" df = false -> df' = df)
     /\ (to_numeric (get_col df "Price") = get_col df "Price" -> df' = df)
     /\ (has_col "Price" df = true ->
         to_numeric (get_col df "Price") <> get_col df "Price" -> df' <> df).
Proof.
  intros Hlen Hwf. split; [reflexivity|]. intros df'. subst df'.
  rewrite check_invalid_values_table.
  destruct (has_col "Price" df) eqn:E.
  - assert (Hl : length (to_numeric (get_col df "Price")) = nrows df)
      by now rewrite Hlen, get_col_length.
    assert (Hsame : get_col (set_col df "Price" (to_numeric (get_col df "Price")))
                      "Price" = to_numeric (get_col df "Price"))
      by now apply set_col_same.
    split; [now rewrite set_col_columns, E|].
    split; [now apply set_col_nrows|].
    split; [intros c Hc; now apply set_col_other|].
    split; [intros _; exact Hsame|].
    split; [discriminate|].
    split.
    + intros ->. now apply set_col_get_col.
    + intros _ Hne Heq. apply Hne. rewrite <- Hsame. now rewrite Heq.
  - repeat split; trivial; discriminate.
Qed.

Lemma audits_frame_witness :
  get_col (check_invalid_values plain_to_numeric dates_table).1
    "PriceUpdatedDate"
  = get_col dates_table "PriceUpdatedDate"
  /\ get_col (check_invalid_values plain_to_numeric dates_table).1 "Price"
     = [VFloat (Q2Qc (1599 # 10)); VNull; VFloat (Q2Qc (150 # 1))]
  /\ (check_invalid_values plain_to_numeric dates_table).1 <> dates_table.
Proof.
  destruct (audits_frame plain_to_numeric dates_table plain_to_numeric_length)
    as (_ & _ & _ & H & H' & _ & _ & Hne).
  - repeat constructor.
  - split; [now apply H|]. split; [now apply H'|].
    apply Hne; [reflexivity|discriminate].
Defined.

(** ** The text normalisations and the address decomposition on columns *)

Lemma str_update_frame cs df c f :
  wf df -> c ∈ cs -> same_except cs df (str_update df c f).
Proof.
  intros Hwf Hc. apply same_except_set_col; [assumption| |assumption].
  now rewrite length_fmap, get_col_length.
Qed.

Lemma str_update_same df c f :
  wf df -> get_col (str_update df c f) c = str_map f <$> get_col df c.
Proof.
  intros Hwf. apply set_col_same; [assumption|].
  now rewrite length_fmap, get_col_length.
Qed.

Lemma str_update_columns df c f :
  has_col c df = true -> columns (str_update df c f) = columns df.
Proof. intros H. unfold str_update. now rewrite set_col_columns, H. Qed.

Lemma traverse_rows2 {B} df c1 c2 (F : value -> value -> result B) :
  traverse (fun r => F (row_get df c1 r) (row_get df c2 r)) (rows df)
  = traverse (fun p => F p.1 p.2) (zip (get_col df c1) (get_col df c2)).
Proof.
  unfold get_col. induction (rows df) as [|r rs IH]; simpl; [reflexivity|].
  now rewrite IH.
Qed.

Lemma standardize_suburb_names_frame df df' :
  wf df -> standardize_suburb_names df = Ok df' ->
  same_except ["Suburb"] df df' /\ columns df' = columns df.
Proof.
  intros Hwf. unfold standardize_suburb_names.
  destruct (has_col "Suburb" df) eqn:E.
  - destruct (traverse title_cell (get_col df "Suburb")) as [vals|] eqn:Et;
      [|discriminate].
    simpl. intros [= <-]. apply traverse_length in Et.
    rewrite get_col_length in Et. split.
    + apply same_except_set_col; [assumption..|now left].
    + now rewrite set_col_columns, E.
  - intros [= <-]. split; [now apply same_except_refl | reflexivity].
Qed.

Lemma standardize_address_state_frame df df' :
  wf df -> standardize_address_state df = Ok df' ->
  same_except ["Address"] df df' /\ columns df' = columns df.
Proof.
  intros Hwf. unfold standardize_address_state.
  destruct (has_col "Address" df) eqn:E.
  - destruct (str_accessor (get_col df "Address")); [|discriminate].
    simpl. intros [= <-].
    split; [apply (str_update_frame _ df "Address"); [assumption|now left]|].
    now rewrite set_col_columns, E.
  - intros [= <-]. split; [now apply same_except_refl | reflexivity].
Qed.

Lemma apply_rows_traverse f df :
  rows df <> [] -> apply_rows f df = traverse f (rows df).
Proof. unfold apply_rows. now destruct (rows df). Qed.

Lemma nrows_not_nil df df' :
  nrows df' = nrows df -> rows df <> [] -> rows df' <> [].
Proof.
  unfold nrows. intros H Hne E. rewrite E in H.
  destruct (rows df); [contradiction|discriminate].
Qed.

(** A table without rows that has the three columns makes the first
    assignment of [clean_address] raise. *)
Lemma clean_address_no_rows df :
  has_col "Address" df && has_col "Postcode" df && has_col "Suburb" df = true ->
  rows df = [] -> clean_address df = Raise ValueError.
Proof.
  intros Hguard Hrows. unfold clean_address, apply_rows.
  now rewrite Hguard, Hrows.
Qed.

Lemma clean_address_rows df df' :
  has_col "Address" df && has_col "Postcode" df && has_col "Suburb" df = true ->
  clean_address df = Ok df' -> rows df <> [].
Proof.
  intros Hguard H Hrows. now rewrite (clean_address_no_rows df Hguard Hrows) in H.
Qed.

Lemma clean_address_absent df :
  has_col "Address" df && has_col "Postcode" df && has_col "Suburb" df = false ->
  clean_address df = Ok df.
Proof. intros H. unfold clean_address. now rewrite H. Qed.

(** With the three columns present, [clean_address] computes
    [address_columns] on them, assigns the results to Address and State and
    leaves the rest of the table alone. *)
Lemma clean_address_columns df :
  wf df ->
  has_col "Address" df && has_col "Postcode" df && has_col "Suburb" df = true ->
  rows df <> [] ->
  match clean_address df with
  | Ok df' =>
      exists a st,
        address_columns (get_col df "Postcode") (get_col df "Suburb")
          (get_col df "Address") = Ok (a, st)
        /\ get_col df' "Address" = a /\ get_col df' "State" = st
        /\ same_except ["Address"; "State"] df df'
        /\ columns df'
           = if has_col "State" df then columns df else columns df ++ ["State"]
  | Raise e =>
      address_columns (get_col df "Postcode") (get_col df "Suburb")
        (get_col df "Address") = Raise e
  end.
Proof.
  intros Hwf Hguard Hrows. unfold clean_address, address_columns.
  rewrite Hguard.
  apply andb_prop in Hguard as [[HA HP]%andb_prop HS].
  rewrite apply_rows_traverse by assumption.
  rewrite traverse_rows2.
  destruct (traverse _ (zip (get_col df "Postcode") (get_col df "Address")))
    as [a1|e] eqn:E1; simpl; [|reflexivity].
  assert (Hl1 : length a1 = nrows df).
  { apply traverse_length in E1.
    rewrite length_zip, !get_col_length in E1. lia. }
  set (cs := ["Address"; "State"]).
  assert (HinA : "Address" ∈ cs) by now left.
  assert (HinS : "State" ∈ cs) by (right; now left).
  set (df1 := set_col df "Address" a1).
  assert (F1 : same_except cs df df1) by now apply same_except_set_col.
  assert (A1 : get_col df1 "Address" = a1) by now apply set_col_same.
  assert (C1 : columns df1 = columns df)
    by (unfold df1; now rewrite set_col_columns, HA).
  set (df2 := str_update df1 "Address" remove_comma).
  assert (F2 : same_except cs df1 df2)
    by (apply str_update_frame; [apply F1|assumption]).
  assert (A2 : get_col df2 "Address" = str_map remove_comma <$> a1)
    by (unfold df2; rewrite str_update_same, A1; [reflexivity|apply F1]).
  assert (C2 : columns df2 = columns df).
  { unfold df2. rewrite str_update_columns; [assumption|].
    now rewrite (has_col_columns _ _ _ C1). }
  set (df3 := str_update df2 "Address" strip_text).
  assert (F3 : same_except cs df2 df3)
    by (apply str_update_frame; [apply F2|assumption]).
  assert (A3 : get_col df3 "Address" = stripped_addresses a1)
    by (unfold df3; rewrite str_update_same, A2; [reflexivity|apply F2]).
  assert (C3 : columns df3 = columns df).
  { unfold df3. rewrite str_update_columns; [assumption|].
    now rewrite (has_col_columns _ _ _ C2). }
  set (a3 := stripped_addresses a1) in *.
  set (df4 := set_col df3 "State" (str_map extract_state <$> get_col df3 "Address")).
  assert (L4 : length (str_map extract_state <$> get_col df3 "Address")
               = nrows df3) by now rewrite length_fmap, get_col_length.
  assert (F4 : same_except cs df3 df4)
    by (apply same_except_set_col; [apply F3|assumption..]).
  assert (S4 : get_col df4 "State" = state_column a3)
    by (unfold df4; rewrite set_col_same, A3; [reflexivity|apply F3|assumption]).
  assert (A4 : get_col df4 "Address" = a3)
    by (unfold df4; rewrite set_col_other, A3;
        [reflexivity|apply F3|assumption|discriminate]).
  assert (C4 : columns df4
               = if has_col "State" df then columns df
                 else columns df ++ ["State"]).
  { unfold df4. rewrite set_col_columns, (has_col_columns _ _ _ C3), C3.
    reflexivity. }
  assert (H4 : has_col "Address" df4 = true).
  { apply has_col_true. rewrite C4. apply has_col_true in HA as [i Hi].
    exists i. destruct (has_col "State" df); [assumption|].
    now apply index_of_app_l. }
  set (df5 := str_update df4 "Address" remove_state).
  assert (F5 : same_except cs df4 df5)
    by (apply str_update_frame; [apply F4|assumption]).
  assert (A5 : get_col df5 "Address" = str_map remove_state <$> a3)
    by (unfold df5; rewrite str_update_same, A4; [reflexivity|apply F4]).
  assert (S5 : get_col df5 "State" = state_column a3).
  { unfold df5, str_update. rewrite set_col_other, S4;
      [reflexivity|apply F4| |discriminate].
    now rewrite length_fmap, get_col_length. }
  assert (C5 : columns df5 = columns df4) by now apply str_update_columns.
  set (df6 := str_update df5 "Address" strip_text).
  assert (F6 : same_except cs df5 df6)
    by (apply str_update_frame; [apply F5|assumption]).
  assert (A6 : get_col df6 "Address" = addresses_without_state a3)
    by (unfold df6; rewrite str_update_same, A5; [reflexivity|apply F5]).
  assert (S6 : get_col df6 "State" = state_column a3).
  { unfold df6, str_update. rewrite set_col_other, S5;
      [reflexivity|apply F5| |discriminate].
    now rewrite length_fmap, get_col_length. }
  assert (C6 : columns df6 = columns df4).
  { unfold df6. rewrite str_update_columns; [assumption|].
    now rewrite (has_col_columns _ _ _ C5). }
  assert (F06 : same_except cs df df6).
  { eapply same_except_trans; [exact F1|].
    eapply same_except_trans; [exact F2|].
    eapply same_except_trans; [exact F3|].
    eapply same_except_trans; [exact F4|].
    eapply same_except_trans; [exact F5|exact F6]. }
  assert (Sub6 : get_col df6 "Suburb" = get_col df "Suburb").
  { apply F06. unfold cs. rewrite !elem_of_cons.
    intros [?|[?|H]]; [discriminate..|inversion H]. }
  rewrite (apply_rows_traverse _ df6)
    by (apply (nrows_not_nil df); [apply F06|assumption]).
  rewrite traverse_rows2, Sub6, A6.
  destruct (traverse _ (zip (get_col df "Suburb") (addresses_without_state a3)))
    as [a6|e] eqn:E6; simpl; [|reflexivity].
  assert (Hl6 : length a6 = nrows df6).
  { apply traverse_length in E6.
    rewrite length_zip, <- Sub6, <- A6, !get_col_length in E6. lia. }
  set (df7 := set_col df6 "Address" a6).
  assert (F7 : same_except cs df6 df7)
    by (apply same_except_set_col; [apply F06|assumption..]).
  assert (A7 : get_col df7 "Address" = a6)
    by (apply set_col_same; [apply F06|assumption]).
  assert (S7 : get_col df7 "State" = state_column a3).
  { unfold df7. rewrite set_col_other, S6;
      [reflexivity|apply F06|assumption|discriminate]. }
  assert (H6 : has_col "Address" df6 = true)
    by now rewrite (has_col_columns _ _ _ C6).
  assert (C7 : columns df7 = columns df4)
    by (unfold df7; now rewrite set_col_columns, H6).
  exists (str_map strip_text <$> a6), (state_column a3).
  split; [reflexivity|].
  split; [rewrite str_update_same, A7; [reflexivity|apply F7]|].
  split.
  { unfold str_update. rewrite set_col_other, S7;
      [reflexivity|apply F7| |discriminate].
    now rewrite length_fmap, get_col_length. }
  split.
  - eapply same_except_trans; [exact F06|].
    eapply same_except_trans; [exact F7|].
    apply str_update_frame; [apply F7|assumption].
  - rewrite str_update_columns, C7; [exact C4|].
    now rewrite (has_col_columns _ _ _ C7).
Qed.

(** C10, as the claim states it, fails: the address decomposition does
    not only add the State column.  In a table that already has a State
    column, the decomposition assigns the extracted states to it: the cell
    "New South Wales" is replaced by "NSW". *)
Lemma clean_address_overwrites_state :
  clean_address
    (mkDF ["Address"; "Postcode"; "Suburb"; "State"]
       [[VStr "12 Main St, Sydney NSW 2000"; VInt 2000; VStr "Sydney";
         VStr "New South Wales"]])
  = Ok (mkDF ["Address"; "Postcode"; "Suburb"; "State"]
          [[VStr "12 Main St"; VInt 2000; VStr "Sydney"; VStr "NSW"]])
  /\ [VStr "NSW"] <> [VStr "New South Wales"].
Proof. split; [vm_compute; reflexivity|discriminate]. Qed.

(** C10, amended.  Each normalisation, when it returns, keeps the number
    of rows and leaves the columns it does not name as they are: date
    cleaning outside the listed fields, suburb title-casing outside Suburb,
    state replacement outside Address; the three keep the column list.
    Address decomposition leaves every column other than Address and State
    as it is.  It sets the State column: it appends the column when the
    table has none and assigns to it when the table has one, and what it
    puts there depends on the Address, Postcode and Suburb columns only,
    not on the State column the table had. *)
Theorem normalizations_frame
    (to_datetime : list value -> result (list (option datetime)))
    (df : DataFrame) :
  (forall col ts, to_datetime col = Ok ts -> length ts = length col) ->
  wf df ->
  (forall fields df',
     clean_datetime_fields to_datetime df fields = Ok df' ->
     nrows df' = nrows df /\ columns df' = columns df
     /\ (forall c, c ∉ fields -> get_col df' c = get_col df c))
  /\ (forall df', standardize_suburb_names df = Ok df' ->
        nrows df' = nrows df /\ columns df' = columns df
        /\ (forall c, c <> "Suburb" -> get_col df' c = get_col df c))
  /\ (forall df', standardize_address_state df = Ok df' ->
        nrows df' = nrows df /\ columns df' = columns df
        /\ (forall c, c <> "Address" -> get_col df' c = get_col df c))
  /\ (forall df', clean_address df = Ok df' ->
        let decomposed :=
          has_col "Address" df && has_col "Postcode" df
          && has_col "Suburb" df in
        nrows df' = nrows df
        /\ columns df'
           = (if decomposed && negb (has_col "State" df)
              then columns df ++ ["State"] else columns df)
        /\ (forall c, c <> "Address" -> c <> "State" ->
              get_col df' c = get_col df c)
        /\ (decomposed = false -> df' = df)
        /\ (decomposed = true ->
            forall other other',
              wf other ->
              has_col "Address" other && has_col "Postcode" other
              && has_col "Suburb" other = true ->
              get_col other "Address" = get_col df "Address" ->
              get_col other "Postcode" = get_col df "Postcode" ->
              get_col other "Suburb" = get_col df "Suburb" ->
              clean_address other = Ok other' ->
              get_col other' "State" = get_col df' "State"
              /\ get_col other' "Address" = get_col df' "Address")).
Proof.
  intros Hlen Hwf. split; [|split; [|split]].
  - intros fields df' H.
    destruct (clean_datetime_fields_frame to_datetime Hlen df fields df' Hwf H)
      as ((_ & Hn & Hc) & Hcols).
    split; [exact Hn|]. split; [exact Hcols|exact Hc].
  - intros df' H.
    destruct (standardize_suburb_names_frame df df' Hwf H)
      as ((_ & Hn & Hc) & Hcols).
    split; [exact Hn|]. split; [exact Hcols|].
    intros c Hne. apply Hc. now rewrite list_elem_of_singleton.
  - intros df' H.
    destruct (standardize_address_state_frame df df' Hwf H)
      as ((_ & Hn & Hc) & Hcols).
    split; [exact Hn|]. split; [exact Hcols|].
    intros c Hne. apply Hc. now rewrite list_elem_of_singleton.
  - intros df' H decomposed. subst decomposed.
    destruct (has_col "Address" df && has_col "Postcode" df
              && has_col "Suburb" df) eqn:G.
    + pose proof (clean_address_rows df df' G H) as Hrows.
      pose proof (clean_address_columns df Hwf G Hrows) as Hc. rewrite H in Hc.
      destruct Hc as (a & st & Hac & HA & HS & (_ & Hn & Hc) & Hcols).
      split; [exact Hn|]. split.
      { rewrite Hcols. simpl. now destruct (has_col "State" df). }
      split.
      { intros c HcA HcS. apply Hc. rewrite !elem_of_cons.
        intros [?|[?|Hin]]; [contradiction..|inversion Hin]. }
      split; [discriminate|].
      intros _ other other' Hwfo Go EA EP ES Ho.
      pose proof (clean_address_rows other other' Go Ho) as Hrowso.
      pose proof (clean_address_columns other Hwfo Go Hrowso) as Hco.
      rewrite Ho in Hco.
      destruct Hco as (a' & st' & Hac' & HA' & HS' & _).
      rewrite EA, EP, ES, Hac in Hac'. injection Hac' as <- <-.
      now rewrite HA, HS, HA', HS'.
    + rewrite (clean_address_absent df G) in H. injection H as <-.
      split; [reflexivity|]. split; [reflexivity|].
      split; [reflexivity|]. split; [reflexivity|discriminate].
Qed.

Lemma normalizations_frame_witness :
  (exists df', clean_address stations_table = Ok df'
               /\ nrows df' = 2
               /\ columns df' = columns stations_table ++ ["State"]
               /\ get_col df' "Postcode" = [VInt 2000; VInt 2037]
               /\ get_col df' "ServiceStationName"
                  = [VStr "Metro Fuel"; VStr "Coastal"])
  /\ (exists df', standardize_suburb_names stations_table = Ok df'
                  /\ get_col df' "Address" = get_col stations_table "Address").
Proof.
  assert (Hwf : wf stations_table) by repeat constructor.
  destruct (normalizations_frame plain_to_datetime stations_table
              plain_to_datetime_length Hwf)
    as (_ & Hsub & _ & Haddr).
  split.
  - eexists. split; [reflexivity|].
    edestruct Haddr as (Hn & Hcols & Hc & _); [reflexivity|].
    split; [exact Hn|]. split; [exact Hcols|]. split; apply Hc; discriminate.
  - eexists. split; [reflexivity|].
    edestruct Hsub as (_ & _ & Hc); [reflexivity|]. apply Hc. discriminate.
Defined.

(** ** Edge cases of the address decomposition *)

(** C9 (the code departs from the claim).  The guard of the decomposition
    looks at the columns of the table, not at the cells of a row, and the
    steps take no care of missing cells.  A row whose Address is missing
    makes [re.sub] raise a type error, which ends the decomposition of the
    whole table.  A row whose Suburb is missing is not passed through: the
    text "nan" is looked for in the place of the suburb, so that the
    address "5 Mill Rd, Buchanan" loses the end of its last word.  A row
    whose Postcode is missing is not passed through either: the other
    steps run, here setting the state and cutting the address. *)
Theorem clean_address_missing_cells :
  clean_address
    (mkDF ["Address"; "Postcode"; "Suburb"]
       [[VNull; VStr "2000"; VStr "Sydney"]])
  = Raise TypeError
  /\ clean_address
       (mkDF ["Address"; "Postcode"; "Suburb"]
          [[VStr "5 Mill Rd, Buchanan NSW 2323"; VInt 2323; VNull]])
     = Ok (mkDF ["Address"; "Postcode"; "Suburb"; "State"]
             [[VStr "5 Mill Rd, Bucha"; VInt 2323; VNull; VStr "NSW"]])
  /\ clean_address
       (mkDF ["Address"; "Postcode"; "Suburb"]
          [[VStr "12 Main St, Sydney NSW"; VNull; VStr "Sydney"]])
     = Ok (mkDF ["Address"; "Postcode"; "Suburb"; "State"]
             [[VStr "12 Main St"; VNull; VStr "Sydney"; VStr "NSW"]]).
Proof. vm_compute. repeat split. Qed.

Lemma text_chars (s : string) : text (chars s) = s.
Proof. apply string_of_list_ascii_of_string. Qed.

Lemma chars_text (l : list ascii) : chars (text l) = l.
Proof. apply list_ascii_of_string_of_list_ascii. Qed.

(** A substitution whose pattern is found nowhere returns its text. *)
Lemma re_sub_no_match ic r repl s :
  search ic r 0 s false = None -> re_sub ic r repl s = s.
Proof.
  intros H. unfold re_sub.
  replace (2 * length s + 2) with (S (2 * length s + 1)) by lia.
  simpl. now rewrite H.
Qed.

(** ** Merging and sorting *)

Lemma concat_nrows dfs : nrows (concat dfs) = sum_list (nrows <$> dfs).
Proof.
  unfold concat, nrows. simpl. generalize (union_columns dfs) as cols.
  intros cols. induction dfs as [|df dfs IH]; [reflexivity|].
  rewrite bind_cons, length_app, IH, fmap_cons. simpl.
  unfold reindex. now rewrite length_fmap.
Qed.

Lemma has_lacks_key_perm df c (l : list row) :
  filter (has_key df c) l ++ filter (lacks_key df c) l ≡ₚ l.
Proof.
  induction l as [|r l IH]; [reflexivity|].
  unfold has_key, lacks_key in *.
  destruct (isna (row_get df c r)) eqn:E.
  - rewrite (filter_cons_False _ r) by (rewrite E; discriminate).
    rewrite (filter_cons_True _ r) by exact E.
    rewrite <- Permutation_middle. now apply Permutation_cons.
  - rewrite (filter_cons_True _ r) by exact E.
    rewrite (filter_cons_False _ r) by (rewrite E; discriminate).
    simpl. now apply Permutation_cons.
Qed.

Lemma filter_ext_elem {A} (P Q : A -> Prop) `{forall x, Decision (P x)}
    `{forall x, Decision (Q x)} (l : list A) :
  (forall x, x ∈ l -> P x <-> Q x) -> filter P l = filter Q l.
Proof.
  induction l as [|x l IH]; intros Hext; [reflexivity|].
  assert (Hx : P x <-> Q x) by (apply Hext; now left).
  assert (Hl : filter P l = filter Q l)
    by (apply IH; intros y Hy; apply Hext; now right).
  destruct (decide (P x)).
  - rewrite !filter_cons_True by tauto. now rewrite Hl.
  - rewrite !filter_cons_False by tauto. exact Hl.
Qed.

Lemma first_occurrences_filter {A} `{EqDecision A} (seen l : list A) :
  NoDup l -> first_occurrences seen l = filter (fun x => x ∉ seen) l.
Proof.
  revert seen. induction l as [|x l IH]; intros seen Hnd; [reflexivity|].
  apply NoDup_cons in Hnd as [Hx Hnd]. simpl.
  destruct (decide (x ∈ seen)) as [Hs|Hs].
  - rewrite filter_cons_False by tauto. now apply IH.
  - rewrite filter_cons_True by assumption. f_equal.
    rewrite IH by assumption. apply filter_ext_elem.
    intros y Hy. rewrite elem_of_cons.
    split; [tauto|]. intros Hn [->|?]; contradiction.
Qed.

Lemma length_filter_complement {A} (P : A -> Prop) `{forall x, Decision (P x)}
    (l : list A) :
  length (filter (fun x => ~ P x) l) = length l - length (filter P l).
Proof.
  induction l as [|x l IH]; [reflexivity|].
  pose proof (length_filter P l).
  destruct (decide (P x)).
  - rewrite filter_cons_False by tauto.
    rewrite (filter_cons_True P) by assumption. simpl. exact IH.
  - rewrite filter_cons_True by assumption.
    rewrite (filter_cons_False P) by assumption. simpl. lia.
Qed.

(** The rows left of two tables without repetition of their own: the rows
    of the second that occur in the first are dropped. *)
Lemma first_occurrences_two {A} `{EqDecision A} (l1 l2 : list A) :
  NoDup l1 -> NoDup l2 ->
  length (first_occurrences [] (l1 ++ l2))
  = length l1 + length l2 - length (filter (fun x => x ∈ l1) l2).
Proof.
  intros H1 H2. rewrite first_occurrences_app, app_nil_r, length_app.
  rewrite first_occurrences_id; [|assumption|intros x _ H; inversion H].
  rewrite first_occurrences_filter by assumption.
  rewrite (length_filter_complement (fun x => x ∈ l1)).
  pose proof (length_filter (fun x => x ∈ l1) l2). lia.
Qed.

Lemma sort_values_columns c df out :
  sort_values c df out -> columns out = columns df.
Proof. now intros []. Qed.

Lemma sort_values_perm c df out :
  sort_values c df out -> rows out ≡ₚ rows df.
Proof.
  intros [sorted Hp _]. simpl. rewrite Hp. apply has_lacks_key_perm.
Qed.

(** *** Ordering of dates *)

Lemma date_compare_trans d e f :
  date_compare d e <> Gt -> date_compare e f <> Gt -> date_compare d f <> Gt.
Proof.
  destruct d as [y1 m1 d1], e as [y2 m2 d2], f as [y3 m3 d3].
  unfold date_compare; simpl.
  destruct (Z.compare_spec y1 y2), (Z.compare_spec y2 y3),
    (Z.compare_spec y1 y3); try lia; try congruence;
  destruct (Z.compare_spec m1 m2), (Z.compare_spec m2 m3),
    (Z.compare_spec m1 m3); try lia; try congruence;
  destruct (Z.compare_spec d1 d2), (Z.compare_spec d2 d3),
    (Z.compare_spec d1 d3); try lia; congruence.
Qed.

Lemma date_compare_total d e :
  date_compare d e = Gt -> date_compare e d <> Gt.
Proof.
  destruct d as [y1 m1 d1], e as [y2 m2 d2].
  unfold date_compare; simpl.
  destruct (Z.compare_spec y1 y2), (Z.compare_spec y2 y1); try lia;
    try congruence;
  destruct (Z.compare_spec m1 m2), (Z.compare_spec m2 m1); try lia;
    try congruence;
  destruct (Z.compare_spec d1 d2), (Z.compare_spec d2 d1); try lia;
    congruence.
Qed.

Lemma key_leb_le a b : key_leb a b = true <-> key_le a b.
Proof.
  unfold key_leb, key_le. destruct (value_cmp a b) as [[]|]; split;
    try discriminate; try tauto; intros [?|?]; discriminate.
Qed.

Lemma key_le_date d e : key_le (VDate d) (VDate e) <-> date_compare d e <> Gt.
Proof.
  unfold key_le. simpl. destruct (date_compare d e); split;
    try congruence; try tauto; intros [?|?]; discriminate.
Qed.

Section InsertionSort.

Variable key : row -> value.

Let R (r1 r2 : row) : Prop := key_le (key r1) (key r2).
Let dated (r : row) : Prop := exists d, key r = VDate d.

Lemma insert_row_perm r l : insert_row key r l ≡ₚ r :: l.
Proof.
  induction l as [|r' l IH]; simpl; [reflexivity|].
  destruct (key_leb (key r) (key r')); [reflexivity|].
  rewrite IH. apply perm_swap.
Qed.

Lemma insertion_sort_perm l : insertion_sort key l ≡ₚ l.
Proof.
  induction l as [|r l IH]; simpl; [reflexivity|].
  rewrite insert_row_perm. now apply Permutation_cons.
Qed.

Lemma insert_row_sorted r l :
  dated r -> Forall dated l ->
  StronglySorted R l -> StronglySorted R (insert_row key r l).
Proof.
  intros [d Hd] Hl Hs. induction Hs as [|r' l Hs IH Hall]; simpl.
  - repeat constructor.
  - apply Forall_cons in Hl as [[e He] Hl].
    destruct (key_leb (key r) (key r')) eqn:E.
    + apply key_leb_le in E. constructor; [now constructor|].
      constructor; [exact E|].
      rewrite Forall_forall in Hall, Hl |- *. intros x Hx.
      destruct (Hl x Hx) as [f Hf]. specialize (Hall x Hx).
      unfold R in *. rewrite Hd, He, Hf in *.
      rewrite key_le_date in *. eapply date_compare_trans; eassumption.
    + constructor; [now apply IH|].
      rewrite insert_row_perm. constructor; [|exact Hall].
      unfold R. rewrite Hd, He. apply key_le_date.
      apply date_compare_total.
      assert (Hn : ~ key_le (key r) (key r'))
        by (rewrite <- key_leb_le, E; discriminate).
      rewrite Hd, He, key_le_date in Hn.
      destruct (date_compare d e); try (exfalso; apply Hn; discriminate).
      reflexivity.
Qed.

Lemma insertion_sort_sorted l :
  Forall dated l -> StronglySorted R (insertion_sort key l).
Proof.
  induction 1 as [|r l Hr Hl IH]; simpl; [constructor|].
  apply insert_row_sorted; [assumption| |assumption].
  rewrite insertion_sort_perm. exact Hl.
Qed.

End InsertionSort.

(** When the keys are dates or missing, [sort_values] has a result: the
    stable sort is one. *)
Lemma sort_values_exists c df :
  Forall (fun r => date_or_null (row_get df c r)) (rows df) ->
  sort_values c df (stable_sort_values c df).
Proof.
  intros H. unfold stable_sort_values. constructor.
  - apply insertion_sort_perm.
  - apply insertion_sort_sorted. rewrite Forall_forall in H |- *.
    intros r [Hk Hr]%list_elem_of_filter. specialize (H r Hr).
    unfold has_key in Hk. destruct (row_get df c r); try easy. now eexists.
Qed.

Lemma same_key_sorted (key : row -> value) d (l : list row) :
  Forall (fun r => key r = VDate d) l ->
  StronglySorted (fun r1 r2 => key_le (key r1) (key r2)) l.
Proof.
  induction 1 as [|r l Hr Hl IH]; constructor; [exact IH|].
  eapply Forall_impl; [exact Hl|]. intros r' Hr'. simpl in Hr'.
  rewrite Hr, Hr'. apply key_le_date.
  destruct d as [y m dd]. unfold date_compare. simpl.
  now rewrite !Z.compare_refl.
Qed.

(** C8, as the claim states it, fails: the sort is not a stable sort.  The
    script calls [sort_values] with pandas' default kind, quicksort, which
    does not keep rows with equal keys in their order.  For eighteen
    distinct rows of one day, the order 0, 15, 14, ..., 1, 16, 17 (the one
    NumPy's quicksort leaves) is a result of the merge, and it does not
    keep the rows in their input order. *)
Lemma combine_not_stable :
  combine [same_day_table] same_day_shuffled
  /\ ~ keeps_order "PriceUpdatedDate"
         (remove_duplicates (concat [same_day_table])).1 same_day_shuffled.
Proof.
  split.
  - set (d := (remove_duplicates (concat [same_day_table])).1).
    assert (E : mkDF (columns d)
                  (rows same_day_shuffled
                     ++ filter (lacks_key d "PriceUpdatedDate") (rows d))
                = same_day_shuffled) by (vm_compute; reflexivity).
    rewrite <- E. apply combine_sorted; [reflexivity|]. fold d.
    constructor.
    + replace (filter (has_key d "PriceUpdatedDate") (rows d))
        with (same_day_row 0 :: (same_day_row <$> seq 1 15)
                ++ (same_day_row <$> seq 16 2)) by (vm_compute; reflexivity).
      change (rows same_day_shuffled)
        with (same_day_row 0 :: rev (same_day_row <$> seq 1 15)
                ++ (same_day_row <$> seq 16 2)).
      apply Permutation_cons; [reflexivity|].
      apply Permutation_app_tail. symmetry. apply Permutation_rev.
    + apply (same_key_sorted _ date_2024_05_01).
      refine (bool_decide_unpack _ _). vm_compute. exact I.
  - intros H. specialize (H (VDate date_2024_05_01)).
    vm_compute in H. discriminate.
Qed.

(** A table of [combine] has the columns and, up to their order, the rows
    of the deduplicated concatenation. *)
Lemma combine_rows dfs out :
  combine dfs out ->
  columns out = union_columns dfs
  /\ rows out ≡ₚ rows (remove_duplicates (concat dfs)).1.
Proof.
  intros [out' combined_df Hcol Hsort|combined_df Hcol].
  - split; [|eapply sort_values_perm, Hsort].
    erewrite sort_values_columns by exact Hsort. reflexivity.
  - split; reflexivity.
Qed.

(** The merge has a result whenever the PriceUpdatedDate cells of the
    tables are dates or missing. *)
Lemma combine_exists dfs :
  let deduped := (remove_duplicates (concat dfs)).1 in
  Forall (fun r => date_or_null (row_get deduped "PriceUpdatedDate" r))
    (rows deduped) ->
  exists out, combine dfs out.
Proof.
  intros deduped H.
  destruct (has_col "PriceUpdatedDate" deduped) eqn:E.
  - exists (stable_sort_values "PriceUpdatedDate" deduped).
    apply combine_sorted; [exact E|]. now apply sort_values_exists.
  - exists deduped. now apply combine_unsorted.
Qed.

(** ** The matcher on the patterns of the state steps *)

Lemma span_le p l : span p l <= length l.
Proof. induction l as [|c l IH]; simpl; [lia|]. destruct (p c); simpl; lia. Qed.

Lemma bind_all_nil {A B} (f : A -> list B) (l : list A) :
  (forall x, x ∈ l -> f x = []) -> l ≫= f = [].
Proof.
  induction l as [|x l IH]; intros H; [reflexivity|].
  rewrite bind_cons, (H x) by now left. simpl. apply IH.
  intros y Hy. apply H. now right.
Qed.

Lemma star_loop_S body fuel st :
  star_loop body (S fuel) st
  = (filter (fun st' => consumed st <? consumed st') (body st)
       ≫= star_loop body fuel) ++ [st].
Proof. reflexivity. Qed.

Lemma one_cons p pos c t g :
  one p (MState pos (c :: t) g) = if p c then [MState (S pos) t g] else [].
Proof. reflexivity. Qed.

Lemma one_nil p pos g : one p (MState pos [] g) = [].
Proof. reflexivity. Qed.

Lemma advance_0 st : advance 0 st = st.
Proof. destruct st. unfold advance. simpl. now rewrite Nat.add_0_r. Qed.

Lemma advance_S j pos c t g :
  advance (S j) (MState pos (c :: t) g) = advance j (MState (S pos) t g).
Proof. unfold advance. simpl. f_equal. lia. Qed.

Lemma star_loop_one p fuel st :
  span p (rest st) < fuel ->
  star_loop (one p) fuel st
  = (fun j => advance j st) <$> rev (seq 0 (S (span p (rest st)))).
Proof.
  revert st. induction fuel as [|fuel IH]; intros [pos txt g] Hf; [lia|].
  cbn [rest] in *. rewrite star_loop_S.
  destruct txt as [|c t].
  - rewrite one_nil, filter_nil. simpl. now rewrite advance_0.
  - rewrite one_cons. cbn [span] in *. destruct (p c) eqn:Ep.
    + rewrite filter_cons_True by (apply Is_true_eq_left, Nat.ltb_lt; simpl; lia).
      rewrite filter_nil, bind_singleton.
      rewrite IH by (simpl; lia). cbn [rest].
      change (seq 0 (S (S (span p t)))) with (0 :: seq 1 (S (span p t))).
      rewrite <- seq_shift. cbn [rev]. rewrite fmap_app. f_equal.
      * rewrite <- map_rev, <- list_fmap_compose.
        apply list_fmap_ext. intros i j _. simpl. now rewrite advance_S.
      * simpl. now rewrite advance_0.
    + rewrite filter_nil. simpl. now rewrite advance_0.
Qed.

Lemma run_seq ic a b st : run ic (Seq a b) st = run ic a st ≫= run ic b.
Proof. reflexivity. Qed.

Lemma run_star_cls ic k st :
  run ic (Star (Cls k)) st
  = (fun j => advance j st) <$> rev (seq 0 (S (span (in_cls k) (rest st)))).
Proof.
  change (run ic (Star (Cls k)) st)
    with (star_loop (one (in_cls k)) (S (length (rest st))) st).
  apply star_loop_one. pose proof (span_le (in_cls k) (rest st)). lia.
Qed.

Lemma run_word3 ic pos t g :
  run ic (Rep 3 (Cls Word)) (MState pos t g)
  = match t with
    | x :: y :: z :: t' =>
        if Chars.is_word x && Chars.is_word y && Chars.is_word z
        then [MState (3 + pos) t' g] else []
    | _ => []
    end.
Proof.
  destruct t as [|x [|y [|z t']]]; simpl; unfold one; simpl;
    try reflexivity.
  - now destruct (Chars.is_word x).
  - destruct (Chars.is_word x); [|reflexivity]. simpl.
    now destruct (Chars.is_word y).
  - destruct (Chars.is_word x); [|reflexivity]. simpl.
    destruct (Chars.is_word y); [|reflexivity]. simpl.
    now destruct (Chars.is_word z).
Qed.

Lemma last_drop_cons (t : list ascii) j c t' :
  drop j t = c :: t' -> last t = last (c :: t').
Proof.
  revert j. induction t as [|d t IH]; intros j H.
  - now destruct j.
  - destruct j as [|j]; [now rewrite <- H|].
    change (drop (S j) (d :: t)) with (drop j t) in H.
    rewrite <- (IH j H). destruct t; [now destruct j|reflexivity].
Qed.

Lemma ends_clean_drop t j : ends_clean t -> ends_clean (drop j t).
Proof.
  intros H c Hc. destruct (drop j t) as [|d t'] eqn:E; [discriminate|].
  apply H. now rewrite (last_drop_cons _ _ _ _ E).
Qed.

Lemma span_full p t c : span p t = length t -> c ∈ t -> p c = true.
Proof.
  induction t as [|d t IH]; simpl; intros H Hc; [inversion Hc|].
  destruct (p d) eqn:E; [|discriminate].
  apply elem_of_cons in Hc as [->|Hc]; [assumption|]. apply IH; [lia|assumption].
Qed.

Lemma newline_is_space c : (Chars.code c =? 10) = true -> Chars.is_space c = true.
Proof.
  intros H%Nat.eqb_eq. unfold Chars.is_space. now rewrite H.
Qed.

Lemma elem_of_rev {A} (x : A) (l : list A) : x ∈ rev l <-> x ∈ l.
Proof. rewrite !list_elem_of_In. symmetry. apply in_rev. Qed.

Lemma run_tail ic pos t g :
  ends_clean t ->
  run ic tail_pattern (MState pos t g)
  = match t with [] => [MState pos [] g] | _ => [] end.
Proof.
  intros Hc. destruct t as [|c t]; [reflexivity|].
  unfold tail_pattern. rewrite run_seq, run_star_cls.
  apply bind_all_nil. intros st [j [-> Hj]]%list_elem_of_fmap.
  apply elem_of_rev, elem_of_seq in Hj. cbn [rest] in *.
  change (run ic Eol (advance j (MState pos (c :: t) g)))
    with (if at_eol (advance j (MState pos (c :: t) g))
          then [advance j (MState pos (c :: t) g)] else []).
  unfold at_eol, advance. cbn [rest].
  destruct (drop j (c :: t)) as [|d [|e u]] eqn:E; [| |reflexivity].
  - exfalso. apply drop_nil_inv in E.
    assert (Hs : span Chars.is_space (c :: t) = length (c :: t))
      by (pose proof (span_le Chars.is_space (c :: t));
          change (in_cls Space) with Chars.is_space in Hj; lia).
    destruct (last (c :: t)) as [d|] eqn:El.
    + pose proof (Hc d El) as Hd.
      rewrite (span_full _ _ d Hs) in Hd; [discriminate|].
      apply last_Some in El as [u ->]. apply elem_of_app. right. now left.
    + apply last_None in El. discriminate.
  - destruct (Chars.code d =? 10) eqn:Ed; [|reflexivity].
    exfalso. apply newline_is_space in Ed.
    rewrite (Hc d) in Ed; [discriminate|].
    now rewrite (last_drop_cons _ _ _ _ E).
Qed.

Lemma filter_all {A} (P : A -> Prop) `{forall x, Decision (P x)} (l : list A) :
  (forall x, P x) -> filter P l = l.
Proof.
  intros HP. induction l as [|x l IH]; [reflexivity|].
  rewrite filter_cons_True by apply HP. now rewrite IH.
Qed.

Lemma match_at_free ic r pos t :
  match_at ic r pos t false = head (run ic r (MState pos t None)).
Proof. unfold match_at. now rewrite filter_all. Qed.

Lemma search_eq ic r pos t adv :
  search ic r pos t adv
  = match match_at ic r pos t adv with
    | Some st' => Some (pos, st')
    | None => match t with
              | [] => None
              | _ :: t' => search ic r (S pos) t' false
              end
    end.
Proof. destruct t; reflexivity. Qed.

Lemma run_state_pattern pos t :
  ends_clean t ->
  run false state_pattern (MState pos t None)
  = match t with
    | [x; y; z] =>
        if Chars.is_word x && Chars.is_word y && Chars.is_word z
        then [MState (3 + pos) [] (Some [x; y; z])] else []
    | _ => []
    end.
Proof.
  intros Hc. change state_pattern with (Seq (Group (Rep 3 (Cls Word))) tail_pattern).
  rewrite run_seq.
  change (run false (Group (Rep 3 (Cls Word))) (MState pos t None))
    with ((fun st' => MState (consumed st') (rest st')
                        (Some (take (consumed st' - pos) t)))
            <$> run false (Rep 3 (Cls Word)) (MState pos t None)).
  rewrite run_word3.
  destruct t as [|x [|y [|z t']]]; try reflexivity.
  destruct (Chars.is_word x && Chars.is_word y && Chars.is_word z);
    [|now destruct t'].
  rewrite list_fmap_singleton, bind_singleton. cbn [consumed rest].
  rewrite run_tail by apply (ends_clean_drop _ 3 Hc).
  destruct t'; [|reflexivity].
  replace (3 + pos - pos) with 3 by lia. reflexivity.
Qed.

Lemma ends_clean_tail c t : ends_clean (c :: t) -> ends_clean t.
Proof. intros H. exact (ends_clean_drop (c :: t) 1 H). Qed.

Lemma search_state_pattern pos t :
  ends_clean t ->
  search false state_pattern pos t false
  = if ends_in_word3 t
    then Some (pos + (length t - 3),
               MState (pos + length t) [] (Some (last3 t)))
    else None.
Proof.
  revert pos. induction t as [|c u IH]; intros pos Hc.
  - reflexivity.
  - rewrite search_eq, match_at_free, run_state_pattern by assumption.
    specialize (IH (S pos) (ends_clean_tail _ _ Hc)).
    destruct u as [|y [|z [|w u']]].
    + reflexivity.
    + cbn [head]. rewrite IH. reflexivity.
    + unfold ends_in_word3, last3. cbn [length Nat.leb Nat.sub drop forallb andb].
      destruct (Chars.is_word c), (Chars.is_word y), (Chars.is_word z);
        cbn [andb head]; try reflexivity; try (rewrite IH; reflexivity).
      f_equal. f_equal; [lia | f_equal; lia].
    + cbn [head]. rewrite IH. unfold ends_in_word3, last3.
      cbn [length]. 
      replace (S (S (S (S (length u')))) - 3) with (S (length u')) by lia.
      replace (S (S (S (length u'))) - 3) with (length u') by lia.
      cbn [drop Nat.leb].
      destruct (forallb Chars.is_word (drop (length u') (y :: z :: w :: u')));
        [|reflexivity].
      cbn [andb]. f_equal. f_equal; [lia | f_equal; lia].
Qed.

Lemma space_not_word c : Chars.is_space c = true -> Chars.is_word c = false.
Proof.
  destruct c as [[] [] [] [] [] [] [] []]; vm_compute; congruence.
Qed.

Lemma span_drop p l j :
  j < span p l -> exists x l', drop j l = x :: l' /\ p x = true.
Proof.
  revert j. induction l as [|c l IH]; intros j; cbn [span]; [lia|].
  destruct (p c) eqn:E; [|lia]. destruct j as [|j]; intros Hj.
  - exists c, l. now split.
  - apply IH. lia.
Qed.

Lemma seq_0_S_rev n : rev (seq 0 (S n)) = n :: rev (seq 0 n).
Proof. rewrite seq_S, rev_unit. reflexivity. Qed.

Lemma run_state_tail pos t g :
  ends_clean t ->
  run false state_tail_pattern (MState pos t g)
  = if is_state_tail t then [MState (pos + length t) [] g] else [].
Proof.
  intros Hc.
  change state_tail_pattern
    with (Seq (Seq (Cls Space) (Star (Cls Space)))
            (Seq (Rep 3 (Cls Word)) tail_pattern)).
  rewrite run_seq, run_seq.
  change (run false (Cls Space) (MState pos t g))
    with (one Chars.is_space (MState pos t g)).
  unfold is_state_tail.
  destruct t as [|c u]; [reflexivity|].
  rewrite one_cons. cbn [span]. destruct (Chars.is_space c) eqn:Ec;
    [|reflexivity].
  rewrite bind_singleton, run_star_cls. cbn [rest Nat.ltb Nat.leb andb].
  change (in_cls Space) with Chars.is_space.
  change (drop (S (span Chars.is_space u)) (c :: u))
    with (drop (span Chars.is_space u) u).
  set (n := span Chars.is_space u).
  rewrite seq_0_S_rev, fmap_cons, bind_cons.
  rewrite (bind_all_nil _ (_ <$> rev (seq 0 n))).
  - rewrite app_nil_r, run_seq. unfold advance at 1. cbn [consumed rest group1].
    rewrite run_word3.
    assert (Hc' : ends_clean (drop n u)).
    { exact (ends_clean_drop (c :: u) (S n) Hc). }
    destruct (drop n u) as [|x [|y [|z t']]] eqn:E; try reflexivity.
    assert (Hlen : length u = n + length (x :: y :: z :: t')).
    { rewrite <- E, length_drop. pose proof (span_le Chars.is_space u).
      fold n in H. lia. }
    cbn [word3_exact]. unfold word3.
    destruct (Chars.is_word x && Chars.is_word y && Chars.is_word z);
      [|now destruct t'].
    rewrite bind_singleton, run_tail by exact (ends_clean_drop _ 3 Hc').
    destruct t'; [|reflexivity].
    cbn [length] in *. do 2 f_equal. lia.
  - intros st [j [-> Hj]]%list_elem_of_fmap.
    apply elem_of_rev, elem_of_seq in Hj.
    destruct (span_drop Chars.is_space u j) as (x & l' & E & Hx); [lia|].
    rewrite run_seq. unfold advance. cbn [consumed rest group1].
    rewrite run_word3, E. rewrite (space_not_word x Hx).
    now destruct l' as [|? [|? ?]].
Qed.

Lemma search_state_tail pos t :
  ends_clean t ->
  search false state_tail_pattern pos t false
  = match state_tail_start t with
    | Some k => Some (pos + k, MState (pos + k + length (drop k t)) [] None)
    | None => None
    end.
Proof.
  revert pos. induction t as [|c u IH]; intros pos Hc.
  - reflexivity.
  - rewrite search_eq, match_at_free, run_state_tail by assumption.
    cbn [state_tail_start]. destruct (is_state_tail (c :: u)).
    + cbn [head drop]. f_equal. f_equal; [lia | f_equal; lia].
    + cbn [head]. rewrite IH by exact (ends_clean_tail _ _ Hc).
      destruct (state_tail_start u) as [k|]; [|reflexivity].
      cbn [fmap option_fmap option_map drop].
      f_equal. f_equal; [lia | f_equal; lia].
Qed.

Lemma re_sub_state_tail s :
  ends_clean s ->
  re_sub false state_tail_pattern [] s = cut_state_tail s.
Proof.
  intros Hc. unfold re_sub, cut_state_tail.
  replace (2 * length s + 2) with (S (S (2 * length s))) by lia.
  cbn [sub_loop]. rewrite search_state_tail by assumption.
  destruct (state_tail_start s) as [k|]; [|reflexivity].
  cbn [consumed rest]. rewrite Nat.sub_0_r. simpl. apply app_nil_r.
Qed.

Lemma last3_app p x y z : last3 (p ++ [x; y; z]) = [x; y; z].
Proof.
  unfold last3. rewrite length_app. cbn [length].
  replace (length p + 3 - 3) with (length p) by lia.
  apply drop_app_length.
Qed.

Lemma ends_in_word3_app p x y z :
  ends_in_word3 (p ++ [x; y; z]) = word3 x y z.
Proof.
  unfold ends_in_word3. rewrite last3_app, length_app. cbn [length].
  replace (3 <=? length p + 3) with true by (symmetry; apply Nat.leb_le; lia).
  unfold word3. cbn. now rewrite andb_true_r, andb_assoc.
Qed.

Lemma ends_in_word3_false s :
  (forall p x y z, s = p ++ [x; y; z] -> word3 x y z = false) ->
  ends_in_word3 s = false.
Proof.
  intros H. unfold ends_in_word3.
  destruct (3 <=? length s) eqn:E; [|reflexivity]. apply Nat.leb_le in E.
  cbn [andb]. unfold last3.
  destruct (drop (length s - 3) s) as [|x [|y [|z [|w u]]]] eqn:Ed;
    try (apply (f_equal length) in Ed; rewrite length_drop in Ed;
         cbn [length] in Ed; lia).
  rewrite <- (take_drop (length s - 3) s), Ed in H.
  specialize (H _ x y z eq_refl). unfold word3 in H. cbn.
  now rewrite andb_true_r, andb_assoc.
Qed.

(** Where the tail "white space, three word characters" starts. *)
Lemma span_app_stop p ws x l :
  forallb p ws = true -> p x = false -> span p (ws ++ x :: l) = length ws.
Proof.
  induction ws as [|c ws IH]; cbn [forallb app span length]; intros Hws Hx.
  - now rewrite Hx.
  - apply andb_prop in Hws as [-> Hws]. now rewrite IH.
Qed.

Lemma word_not_space c : Chars.is_word c = true -> Chars.is_space c = false.
Proof.
  intros H. destruct (Chars.is_space c) eqn:E; [|reflexivity].
  apply space_not_word in E. congruence.
Qed.

Lemma is_state_tail_here ws x y z :
  ws <> [] -> forallb Chars.is_space ws = true -> word3 x y z = true ->
  is_state_tail (ws ++ [x; y; z]) = true.
Proof.
  intros Hne Hws Hw. unfold is_state_tail. cbn zeta.
  unfold word3 in Hw. apply andb_prop in Hw as [[Hx Hy]%andb_prop Hz].
  rewrite span_app_stop by (try assumption; now apply word_not_space).
  rewrite drop_app_length. cbn [word3_exact]. unfold word3.
  rewrite Hx, Hy, Hz.
  destruct ws; [contradiction|reflexivity].
Qed.

Lemma span_lookup p l j c : j < span p l -> l !! j = Some c -> p c = true.
Proof.
  intros Hj Hl. destruct (span_drop p l j Hj) as (x & l' & E & Hx).
  assert (drop j l !! 0 = Some c) by (rewrite lookup_drop, Nat.add_0_r; exact Hl).
  rewrite E in H. now injection H as <-.
Qed.

Lemma is_state_tail_inv s :
  is_state_tail s = true ->
  exists ws x y z,
    s = ws ++ [x; y; z] /\ ws <> [] /\ forallb Chars.is_space ws = true
    /\ word3 x y z = true.
Proof.
  unfold is_state_tail. cbn zeta. set (n := span Chars.is_space s).
  intros [Hn Hw]%andb_prop. apply Nat.ltb_lt in Hn.
  destruct (drop n s) as [|x [|y [|z [|w u]]]] eqn:E; try discriminate.
  exists (take n s), x, y, z. rewrite <- E, take_drop.
  split; [reflexivity|]. split.
  { intros Ht. apply (f_equal length) in Ht. rewrite length_take in Ht.
    pose proof (span_le Chars.is_space s). fold n in H. simpl in Ht. lia. }
  split; [|exact Hw].
  apply forallb_forall. intros c Hc%list_elem_of_In.
  apply list_elem_of_lookup in Hc as [j Hj].
  pose proof (lookup_lt_Some _ _ _ Hj) as Hlt. rewrite length_take in Hlt.
  rewrite lookup_take_lt in Hj by lia.
  apply (span_lookup _ s j); [fold n; lia | exact Hj].
Qed.

Lemma state_tail_start_inv s k :
  state_tail_start s = Some k ->
  exists q ws x y z,
    s = q ++ ws ++ [x; y; z] /\ length q = k /\ ws <> []
    /\ forallb Chars.is_space ws = true /\ word3 x y z = true.
Proof.
  revert k. induction s as [|c s IH]; intros k; cbn [state_tail_start].
  - destruct (is_state_tail []) eqn:E; [|discriminate].
    intros [= <-]. apply is_state_tail_inv in E as (ws & x & y & z & H).
    exists [], ws, x, y, z. tauto.
  - destruct (is_state_tail (c :: s)) eqn:E.
    + intros [= <-]. apply is_state_tail_inv in E as (ws & x & y & z & H).
      exists [], ws, x, y, z. tauto.
    + destruct (state_tail_start s) as [k'|]; [|discriminate].
      intros [= <-].
      destruct (IH k' eq_refl) as (q & ws & x & y & z & -> & <- & H).
      exists (c :: q), ws, x, y, z. tauto.
Qed.

Lemma is_state_tail_before q ws x y z :
  q <> [] -> ends_clean q ->
  is_state_tail (q ++ ws ++ [x; y; z]) = false.
Proof.
  intros Hne Hc. destruct (is_state_tail _) eqn:E; [|reflexivity]. exfalso.
  unfold is_state_tail in E. cbn zeta in E.
  set (s := q ++ ws ++ [x; y; z]) in *. set (n := span Chars.is_space s) in *.
  apply andb_prop in E as [_ Hw].
  assert (Hn : n = length s - 3 /\ 3 <= length s).
  { destruct (drop n s) as [|a [|b [|c [|d u]]]] eqn:Ed; try discriminate.
    apply (f_equal length) in Ed. rewrite length_drop in Ed.
    cbn [length] in Ed. lia. }
  destruct (last q) as [d|] eqn:El; [|apply last_None in El; contradiction].
  pose proof (Hc d El) as Hd.
  rewrite (span_lookup Chars.is_space s (pred (length q)) d) in Hd;
    [discriminate| |].
  - fold n. destruct Hn as [-> _]. unfold s. rewrite !length_app.
    cbn [length]. destruct q; [contradiction|]. cbn [length]. lia.
  - unfold s. rewrite lookup_app_l by (destruct q; [contradiction|simpl; lia]).
    now rewrite <- last_lookup.
Qed.

Lemma state_tail_start_eq s :
  state_tail_start s
  = if is_state_tail s then Some 0
    else match s with
         | [] => None
         | _ :: s' => S <$> state_tail_start s'
         end.
Proof. now destruct s. Qed.

Lemma state_tail_start_app q ws x y z :
  ends_clean q -> ws <> [] -> forallb Chars.is_space ws = true ->
  word3 x y z = true ->
  state_tail_start (q ++ ws ++ [x; y; z]) = Some (length q).
Proof.
  intros Hc Hne Hws Hw. induction q as [|c q IH].
  - rewrite state_tail_start_eq. cbn [app].
    now rewrite is_state_tail_here.
  - rewrite state_tail_start_eq.
    rewrite is_state_tail_before by (try assumption; discriminate).
    cbn [app]. rewrite IH; [reflexivity|].
    intros d Hd. apply Hc. destruct q; [discriminate|exact Hd].
Qed.

Lemma lstrip_head s c : head (lstrip s) = Some c -> Chars.is_space c = false.
Proof.
  induction s as [|d s IH]; cbn [lstrip]; [discriminate|].
  destruct (Chars.is_space d) eqn:E; [exact IH|].
  cbn [head]. now intros [= <-].
Qed.

Lemma last_rev {A} (l : list A) : last (rev l) = head l.
Proof.
  destruct l as [|x l]; [reflexivity|]. cbn [rev head]. apply last_snoc.
Qed.

Lemma strip_ends_clean s : ends_clean (strip s).
Proof.
  unfold strip, rstrip. intros c Hc. rewrite last_rev in Hc.
  eapply lstrip_head, Hc.
Qed.

Lemma lstrip_id s :
  (forall c, head s = Some c -> Chars.is_space c = false) -> lstrip s = s.
Proof.
  destruct s as [|c s]; [reflexivity|]. intros H. cbn [lstrip].
  now rewrite (H c eq_refl).
Qed.

Lemma head_rev {A} (l : list A) : head (rev l) = last l.
Proof. rewrite <- (rev_involutive l) at 2. symmetry. apply last_rev. Qed.

Lemma rstrip_id s : ends_clean s -> rstrip s = s.
Proof.
  intros H. unfold rstrip. rewrite lstrip_id; [apply rev_involutive|].
  intros c Hc. apply H. now rewrite <- head_rev.
Qed.

Lemma lstrip_split s :
  exists ws, s = ws ++ lstrip s.
Proof.
  induction s as [|c s [ws IH]]; [now exists []|]. cbn [lstrip].
  destruct (Chars.is_space c); [|now exists []].
  exists (c :: ws). cbn [app]. now f_equal.
Qed.

Lemma strip_head s c : head (strip s) = Some c -> Chars.is_space c = false.
Proof.
  unfold strip, rstrip. intros Hc.
  destruct (lstrip_split (rev (lstrip s))) as [ws Hws].
  apply (f_equal (@rev ascii)) in Hws.
  rewrite rev_involutive, rev_app_distr in Hws.
  destruct (rev (lstrip (rev (lstrip s)))) as [|d u] eqn:E; [discriminate|].
  injection Hc as ->. apply (lstrip_head s). rewrite Hws. reflexivity.
Qed.

(** What the extraction and the removal of the state compute on a text
    that does not end with white space. *)
Lemma extract_state_spec a :
  ends_clean (chars a) ->
  extract_state a
  = if ends_in_word3 (chars a) then VStr (text (last3 (chars a))) else VNull.
Proof.
  intros Hc. unfold extract_state, re_search_group1.
  rewrite search_state_pattern by assumption.
  now destruct (ends_in_word3 (chars a)).
Qed.

Lemma remove_state_spec a :
  ends_clean (chars a) ->
  remove_state a = VStr (text (cut_state_tail (chars a))).
Proof.
  intros Hc. unfold remove_state. now rewrite re_sub_state_tail.
Qed.

Lemma stripped_addresses_elem a a1 :
  VStr a ∈ stripped_addresses a1 -> exists s, chars a = strip s.
Proof.
  unfold stripped_addresses. rewrite <- list_fmap_compose.
  intros (v & Hv & _)%list_elem_of_fmap. simpl in Hv.
  destruct v as [|s| | | |]; try discriminate. simpl in Hv.
  injection Hv as ->. eexists. unfold strip_text.
  now rewrite chars_text, chars_text.
Qed.

(** ** The state steps of the address decomposition *)

(** C2, as the claim states it, fails.  The address "1 High Street" ends
    in no three-letter token set off by white space, yet the state is set
    to "eet", the last three characters of "Street", and is not missing. *)
Lemma state_not_whitespace_bounded :
  clean_address
    (mkDF ["Address"; "Postcode"; "Suburb"]
       [[VStr "1 High Street"; VStr "2000"; VStr "Sydney"]])
  = Ok (mkDF ["Address"; "Postcode"; "Suburb"; "State"]
          [[VStr "1 High Street"; VStr "2000"; VStr "Sydney"; VStr "eet"]]).
Proof. vm_compute. reflexivity. Qed.

(** C2, amended.  For the rows of a table with the three columns, holding
    ASCII text, that [clean_address] returns: the State column is the
    extraction applied to the addresses after the postcode and comma steps
    and the trimming.  On such an address the State is its last three
    characters when these are word characters (letters, digits,
    underscore), whether or not white space precedes them, and missing
    otherwise.  The three characters are removed, with the white space
    before them, only when white space precedes them; otherwise the removal
    leaves the address as it is. *)
Theorem state_steps_spec (df df' : DataFrame) :
  wf df -> ascii_addresses df ->
  has_col "Address" df && has_col "Postcode" df && has_col "Suburb" df = true ->
  clean_address df = Ok df' ->
  exists a1 a6,
    traverse (fun p => remove_postcode p.1 p.2)
      (zip (get_col df "Postcode") (get_col df "Address")) = Ok a1
    /\ get_col df' "State" = str_map extract_state <$> stripped_addresses a1
    /\ traverse (fun p => remove_suburb p.1 p.2)
         (zip (get_col df "Suburb")
            (str_map strip_text
               <$> (str_map remove_state <$> stripped_addresses a1))) = Ok a6
    /\ get_col df' "Address" = str_map strip_text <$> a6
    /\ forall a, VStr a ∈ stripped_addresses a1 ->
         (forall p x y z, chars a = p ++ [x; y; z] -> word3 x y z = true ->
            extract_state a = VStr (text [x; y; z]))
         /\ ((forall p x y z, chars a = p ++ [x; y; z] -> word3 x y z = false) ->
             extract_state a = VNull)
         /\ (forall q ws x y z,
               chars a = q ++ ws ++ [x; y; z] -> ends_clean q -> ws <> [] ->
               forallb Chars.is_space ws = true -> word3 x y z = true ->
               remove_state a = VStr (text q)
               /\ strip_text (text q) = VStr (text q))
         /\ ((forall q ws x y z,
                chars a = q ++ ws ++ [x; y; z] -> ws <> [] ->
                forallb Chars.is_space ws = true -> word3 x y z = false) ->
             remove_state a = VStr a).
Proof.
  intros Hwf _ Hguard Hok.
  pose proof (clean_address_columns df Hwf Hguard
                (clean_address_rows df df' Hguard Hok)) as H.
  rewrite Hok in H.
  destruct H as (a & st & Hcols & HA & HS & _).
  unfold address_columns in Hcols.
  destruct (traverse _ (zip (get_col df "Postcode") (get_col df "Address")))
    as [a1|] eqn:E1; [|discriminate].
  simpl in Hcols.
  destruct (traverse _ (zip (get_col df "Suburb") _)) as [a6|] eqn:E6;
    [|discriminate].
  simpl in Hcols. injection Hcols as <- <-.
  exists a1, a6. split; [reflexivity|]. split; [exact HS|].
  split; [exact E6|]. split; [exact HA|].
  intros s Hs. destruct (stripped_addresses_elem _ _ Hs) as [s0 Hs0].
  assert (Hc : ends_clean (chars s)) by (rewrite Hs0; apply strip_ends_clean).
  split; [|split; [|split]].
  - intros p x y z Hp Hw. rewrite extract_state_spec by assumption.
    now rewrite Hp, ends_in_word3_app, Hw, last3_app.
  - intros Hno. rewrite extract_state_spec by assumption.
    now rewrite ends_in_word3_false.
  - intros q ws x y z Hq Hcq Hne Hws Hw.
    rewrite remove_state_spec by assumption. unfold cut_state_tail.
    rewrite Hq, state_tail_start_app by assumption.
    rewrite take_app_length. split; [reflexivity|].
    unfold strip_text. rewrite chars_text. unfold strip.
    rewrite lstrip_id, rstrip_id; [reflexivity|assumption|].
    intros c Hcq'. apply (strip_head s0). rewrite <- Hs0, Hq.
    destruct q; [discriminate|exact Hcq'].
  - intros Hno. rewrite remove_state_spec by assumption.
    unfold cut_state_tail.
    destruct (state_tail_start (chars s)) as [k|] eqn:Ek;
      [|now rewrite text_chars].
    apply state_tail_start_inv in Ek
      as (q & ws & x & y & z & Hq & _ & Hne & Hws & Hw).
    rewrite (Hno q ws x y z Hq Hne Hws) in Hw. discriminate.
Qed.

Lemma state_steps_spec_witness :
  clean_address addresses_table = Ok addresses_cleaned
  /\ get_col addresses_cleaned "State"
     = str_map extract_state
         <$> [VStr "12 Main St, Sydney NSW"; VStr "1 High Street"]
  /\ extract_state "1 High Street" = VStr "eet"
  /\ (remove_state "12 Main St, Sydney NSW" = VStr "12 Main St, Sydney"
      /\ strip_text "12 Main St, Sydney" = VStr "12 Main St, Sydney").
Proof.
  assert (Hok : clean_address addresses_table = Ok addresses_cleaned)
    by (vm_compute; reflexivity).
  assert (Hwf : wf addresses_table) by repeat constructor.
  assert (Hascii : ascii_addresses addresses_table)
    by (repeat split; repeat constructor).
  destruct (state_steps_spec addresses_table addresses_cleaned Hwf Hascii
              eq_refl Hok)
    as (a1 & a6 & E1 & HS & _ & _ & Hrows).
  vm_compute in E1. injection E1 as <-.
  split; [exact Hok|]. split; [exact HS|].
  assert (H1 : VStr "1 High Street"
               ∈ stripped_addresses
                   [VStr "12 Main St, Sydney NSW"; VStr "1 High Street"])
    by (vm_compute; right; left).
  assert (H2 : VStr "12 Main St, Sydney NSW"
               ∈ stripped_addresses
                   [VStr "12 Main St, Sydney NSW"; VStr "1 High Street"])
    by (vm_compute; left).
  destruct (Hrows _ H1) as (He & _).
  destruct (Hrows _ H2) as (_ & _ & Hcut & _).
  split; [apply (He (chars "1 High Str")); reflexivity|].
  apply (Hcut (chars "12 Main St, Sydney") (chars " ") "N" "S" "W")%char;
    try reflexivity; [|discriminate].
  intros c Hc. now injection Hc as <-.
Defined.

(** ** The fuel of the matcher

    The loops of the matcher run on fuel.  The fuel they are given is
    never used up: with more fuel they compute the same. *)

Lemma reaches_refl st : reaches 0 st st.
Proof. unfold reaches. rewrite Nat.add_0_r, drop_0. repeat split; lia. Qed.

Lemma reaches_trans k1 k2 st1 st2 st3 :
  reaches k1 st1 st2 -> reaches k2 st2 st3 -> reaches (k1 + k2) st1 st3.
Proof.
  intros (Hc1 & Hr1 & Hk1) (Hc2 & Hr2 & Hk2). unfold reaches.
  rewrite Hc2, Hc1, Hr2, Hr1, drop_drop. rewrite Hr1, length_drop in Hk2.
  repeat split; lia.
Qed.

Lemma one_reaches p st st' : st' ∈ one p st -> reaches 1 st st'.
Proof.
  unfold one. destruct st as [pos [|c t] g]; cbn [rest]; [inversion 1|].
  destruct (p c); [|inversion 1]. intros ->%list_elem_of_singleton.
  unfold reaches, step. cbn. repeat split; lia.
Qed.

Lemma star_loop_reaches body fuel st st' :
  (forall s s', s' ∈ body s -> exists k, reaches k s s') ->
  st' ∈ star_loop body fuel st -> exists k, reaches k st st'.
Proof.
  intros Hbody. revert st. induction fuel as [|fuel IH]; intros st; cbn [star_loop].
  - intros ->%list_elem_of_singleton. exists 0. apply reaches_refl.
  - rewrite elem_of_app, list_elem_of_bind, list_elem_of_singleton.
    intros [(s & Hs' & [_ Hs]%list_elem_of_filter)| ->].
    + destruct (Hbody _ _ Hs) as [k1 H1], (IH _ Hs') as [k2 H2].
      exists (k1 + k2). eapply reaches_trans; eassumption.
    + exists 0. apply reaches_refl.
Qed.

Lemma run_reaches ic r st st' :
  st' ∈ run ic r st -> exists k, reaches k st st'.
Proof.
  revert st st'. induction r as [|c|k|r1 IH1 r2 IH2|r IH|r IH|r IH| |];
    intros st st'; cbn [run].
  - intros ->%list_elem_of_singleton. exists 0. apply reaches_refl.
  - intros H. exists 1. eapply one_reaches, H.
  - intros H. exists 1. eapply one_reaches, H.
  - intros (s & H2 & H1)%list_elem_of_bind.
    destruct (IH1 _ _ H1) as [k1 ?], (IH2 _ _ H2) as [k2 ?].
    exists (k1 + k2). eapply reaches_trans; eassumption.
  - apply star_loop_reaches. exact IH.
  - rewrite elem_of_app, list_elem_of_singleton. intros [H| ->]; [eauto|].
    exists 0. apply reaches_refl.
  - intros (s & -> & Hs)%list_elem_of_fmap. destruct (IH _ _ Hs) as [k Hk].
    exists k. exact Hk.
  - destruct (consumed st =? 0); [|inversion 1].
    intros ->%list_elem_of_singleton. exists 0. apply reaches_refl.
  - destruct (at_eol st); [|inversion 1].
    intros ->%list_elem_of_singleton. exists 0. apply reaches_refl.
Qed.

Lemma match_at_reaches ic r pos txt adv st' :
  match_at ic r pos txt adv = Some st' ->
  exists k, consumed st' = pos + k /\ rest st' = drop k txt
            /\ k <= length txt /\ (adv = true -> k <> 0).
Proof.
  unfold match_at. intros H.
  apply head_Some_elem_of, list_elem_of_filter in H as [Hadv H].
  destruct (run_reaches _ _ _ _ H) as (k & Hc & Hr & Hk). cbn in Hc, Hr, Hk.
  exists k. repeat split; try assumption.
  intros -> ->. rewrite Hc, Nat.add_0_r, Nat.eqb_refl in Hadv.
  exact Hadv.
Qed.

Lemma search_reaches ic r pos txt adv b st' :
  search ic r pos txt adv = Some (b, st') ->
  exists i k, b = pos + i /\ consumed st' = b + k
              /\ rest st' = drop (i + k) txt /\ i + k <= length txt
              /\ (adv = true -> i = 0 -> k <> 0).
Proof.
  revert pos adv. induction txt as [|c t IH]; intros pos adv;
    cbn [search]; destruct (match_at ic r pos _ adv) as [s|] eqn:E.
  1,3: intros [= <- <-];
       destruct (match_at_reaches _ _ _ _ _ _ E) as (k & Hc & Hr & Hk & Ha);
       exists 0, k; rewrite Nat.add_0_r; repeat split; auto.
  - discriminate.
  - intros H. destruct (IH _ _ H) as (i & k & -> & Hc & Hr & Hk & _).
    exists (S i), k. cbn [length]. repeat split; try lia; try assumption.
Qed.

Lemma sub_loop_S fuel ic r repl pos txt adv :
  sub_loop (S fuel) ic r repl pos txt adv
  = match search ic r pos txt adv with
    | None => txt
    | Some (b, st') =>
        take (b - pos) txt ++ repl ++
        sub_loop fuel ic r repl (consumed st') (rest st') (consumed st' =? b)
    end.
Proof. reflexivity. Qed.

(** The fuel of [re_sub] is never used up: more fuel changes nothing. *)
Lemma sub_loop_fuel ic r repl fuel pos txt (adv : bool) :
  2 * length txt + (if adv then 0 else 1) < fuel ->
  sub_loop (S fuel) ic r repl pos txt adv
  = sub_loop fuel ic r repl pos txt adv.
Proof.
  revert pos txt adv. induction fuel as [|fuel IH]; intros pos txt adv Hf;
    [lia|].
  rewrite (sub_loop_S (S fuel)), (sub_loop_S fuel).
  destruct (search ic r pos txt adv) as [[b st']|] eqn:E; [|reflexivity].
  destruct (search_reaches _ _ _ _ _ _ _ E) as (i & k & -> & Hc & Hr & Hk & Ha).
  rewrite IH; [reflexivity|].
  rewrite Hr, length_drop, Hc.
  destruct (Nat.eqb_spec (pos + i + k) (pos + i)) as [Hz|Hz].
  - assert (k = 0) by lia. subst k.
    destruct adv; [|lia]. destruct i; [exfalso; now apply Ha|lia].
  - destruct adv; lia.
Qed.

Lemma re_sub_fuel ic r repl s extra :
  sub_loop (2 * length s + 2 + extra) ic r repl 0 s false
  = re_sub ic r repl s.
Proof.
  unfold re_sub. induction extra as [|n IH]; [now rewrite Nat.add_0_r|].
  rewrite Nat.add_succ_r, sub_loop_fuel by lia. exact IH.
Qed.

Lemma bind_ext_elem {A B} (f g : A -> list B) (l : list A) :
  (forall x, x ∈ l -> f x = g x) -> l ≫= f = l ≫= g.
Proof.
  induction l as [|x l IH]; intros H; [reflexivity|].
  rewrite !bind_cons, (H x) by now left. f_equal. apply IH.
  intros y Hy. apply H. now right.
Qed.

(** The fuel of a repetition is never used up either. *)
Lemma star_loop_fuel ic r fuel st :
  length (rest st) < fuel ->
  star_loop (run ic r) (S fuel) st = star_loop (run ic r) fuel st.
Proof.
  revert st. induction fuel as [|fuel IH]; intros st Hf; [lia|].
  rewrite (star_loop_S _ (S fuel)), (star_loop_S _ fuel). f_equal.
  apply bind_ext_elem. intros s [Hp Hs]%list_elem_of_filter.
  apply IH. destruct (run_reaches _ _ _ _ Hs) as (k & Hc & Hr & Hk).
  apply Is_true_eq_true, Nat.ltb_lt in Hp.
  rewrite Hr, length_drop. lia.
Qed.

(** ** The postcode audit on every table *)

Lemma digit_facts c :
  Chars.is_digit c = true ->
  Chars.is_space c = false /\ Ascii.eqb c "-" = false
  /\ Ascii.eqb c "+" = false.
Proof.
  destruct c as [[] [] [] [] [] [] [] []]; vm_compute; intros H;
    try discriminate; repeat split.
Qed.

(** A text that passes the four-digit test is read by [int] as the number
    its four digits write. *)
Lemma int_cell_valid s :
  valid_postcode s = true ->
  int_cell s = Some (VInt (Z_of_digits 0 (take 4 (chars s)))).
Proof.
  intros (a & b & c & d & Ha & Hb & Hc & Hd & Hs)%valid_postcode_iff.
  destruct (digit_facts a Ha) as (Sa & Ma & Pa).
  destruct (digit_facts d Hd) as (Sd & _ & _).
  unfold int_cell, py_int.
  assert (Hstrip : strip (chars s) = [a; b; c; d]).
  { destruct Hs as [-> | ->]; unfold strip, rstrip; cbn [lstrip];
      rewrite Sa; cbn [rev app lstrip]; rewrite ?Sd; reflexivity. }
  rewrite Hstrip, Ma, Pa. cbn [forallb]. rewrite Ha, Hb, Hc, Hd. cbn [andb fmap option_fmap option_map].
  now destruct Hs as [-> | ->].
Qed.

(** What the postcode audit does on every table with a Postcode column
    whose cells have a text form: a cell that passes the four-digit test
    becomes the number, any other cell becomes its text form; the report
    has the number of invalid cells and their distinct values in the order
    of their first appearance; the other columns stay. *)
Lemma check_invalidate_postcodes_table df strs :
  wf df -> has_col "Postcode" df = true ->
  traverse py_str (get_col df "Postcode") = Ok strs ->
  let invalid := filter (fun s => valid_postcode s = false) strs in
  exists df',
    check_invalidate_postcodes df
    = Ok (df', if 0 <? length invalid
               then Some (PostcodeReport (length invalid)
                            (first_occurrences [] invalid))
               else None)
    /\ get_col df' "Postcode" = audited_postcode <$> strs
    /\ same_except ["Postcode"] df df'
    /\ columns df' = columns df.
Proof.
  intros Hwf Hcol Hstrs invalid. unfold check_invalidate_postcodes.
  rewrite Hcol, Hstrs. cbn [bind]. fold invalid.
  assert (Hlen : length strs = nrows df).
  { apply traverse_length in Hstrs. now rewrite get_col_length in Hstrs. }
  set (df1 := set_col df "Postcode" (VStr <$> strs)).
  assert (F1 : same_except ["Postcode"] df df1).
  { apply same_except_set_col; [assumption| |now left].
    now rewrite length_fmap. }
  assert (C1 : columns df1 = columns df)
    by (unfold df1; now rewrite set_col_columns, Hcol).
  assert (Hgoal : forall vals, vals = audited_postcode <$> strs ->
            get_col (set_col df1 "Postcode" vals) "Postcode"
              = audited_postcode <$> strs
            /\ same_except ["Postcode"] df (set_col df1 "Postcode" vals)
            /\ columns (set_col df1 "Postcode" vals) = columns df).
  { intros vals ->.
    assert (Hl : length (audited_postcode <$> strs) = nrows df1).
    { rewrite length_fmap. destruct F1 as (_ & -> & _). exact Hlen. }
    split; [apply set_col_same; [apply F1|exact Hl]|]. split.
    - eapply same_except_trans; [exact F1|].
      apply same_except_set_col; [apply F1|exact Hl|now left].
    - rewrite set_col_columns, (has_col_columns _ _ _ C1), Hcol. exact C1. }
  destruct (0 <? length invalid) eqn:E.
  - rewrite (traverse_Ok _ audited_postcode).
    + cbn [bind]. eexists. split; [reflexivity|]. now apply Hgoal.
    + intros s _. unfold audited_postcode.
      destruct (valid_postcode s) eqn:Ev; [|reflexivity].
      now rewrite int_cell_valid.
  - rewrite (traverse_Ok _ audited_postcode).
    + cbn [bind]. eexists. split; [reflexivity|]. now apply Hgoal.
    + intros s Hs. unfold audited_postcode.
      assert (Ev : valid_postcode s = true).
      { destruct (valid_postcode s) eqn:Ev; [reflexivity|]. exfalso.
        apply Nat.ltb_ge in E.
        assert (Hin : s ∈ invalid) by (apply list_elem_of_filter; now split).
        destruct invalid; [inversion Hin|simpl in E; lia]. }
      now rewrite Ev, int_cell_valid.
Qed.

(** ** Postcode texts and numbers *)

Lemma digit_cases c : Chars.is_digit c = true -> c ∈ digit_chars.
Proof.
  destruct c as [[] [] [] [] [] [] [] []]; intros H;
    try (vm_compute in H; discriminate H); unfold digit_chars; simpl;
    repeat first [apply list_elem_of_here | apply list_elem_of_further].
Qed.

Lemma each4_spec l check a b c d :
  each4 l check = true -> a ∈ l -> b ∈ l -> c ∈ l -> d ∈ l ->
  check a b c d = true.
Proof.
  unfold each4. rewrite forallb_forall. intros H Ha Hb Hc Hd.
  apply list_elem_of_In in Ha, Hb, Hc, Hd.
  specialize (H a Ha). rewrite forallb_forall in H.
  specialize (H b Hb). rewrite forallb_forall in H.
  specialize (H c Hc). rewrite forallb_forall in H.
  exact (H d Hd).
Qed.

(** X2.  A postcode text of four digits is turned into a number between 0
    and 9999.  The leading zeros are lost on the way: the number is written
    with four digits again, and passes the four-digit test again, exactly
    when the text does not begin with the digit 0. *)
Theorem postcode_leading_zeros (s : string) :
  valid_postcode s = true ->
  exists z,
    audited_postcode s = VInt z /\ (0 <= z < 10000)%Z
    /\ ((1000 <= z)%Z <-> head (chars s) <> Some "0"%char)
    /\ ((1000 <= z)%Z -> str_of_Z z = text (take 4 (chars s)))
    /\ (valid_postcode (str_of_Z z) = true <-> (1000 <= z)%Z).
Proof.
  intros Hv. unfold audited_postcode. rewrite Hv. eexists. split; [reflexivity|].
  apply valid_postcode_iff in Hv as (a & b & c & d & Ha & Hb & Hc & Hd & Hs).
  assert (Ht : take 4 (chars s) = [a; b; c; d] /\ head (chars s) = Some a)
    by (destruct Hs as [-> | ->]; split; reflexivity).
  destruct Ht as [-> ->].
  set (check := fun a b c d : ascii =>
    let z := Z_of_digits 0 [a; b; c; d] in
    ((0 <=? z) && (z <? 10000))%Z
    && Bool.eqb (1000 <=? z)%Z (negb (Ascii.eqb a "0"))
    && implb (1000 <=? z)%Z (String.eqb (str_of_Z z) (text [a; b; c; d]))
    && Bool.eqb (valid_postcode (str_of_Z z)) (1000 <=? z)%Z).
  assert (Hall : each4 digit_chars check = true) by (vm_compute; reflexivity).
  pose proof (each4_spec _ _ a b c d Hall (digit_cases _ Ha) (digit_cases _ Hb)
                (digit_cases _ Hc) (digit_cases _ Hd)) as H.
  unfold check in H; cbv zeta in H.
  set (z := Z_of_digits 0 [a; b; c; d]) in *. clearbody z.
  apply andb_prop in H as [H H4]. apply andb_prop in H as [H H3].
  apply andb_prop in H as [H1 H2]. apply andb_prop in H1 as [H0 H1].
  apply Z.leb_le in H0. apply Z.ltb_lt in H1.
  apply Bool.eqb_prop in H2, H4.
  split; [lia|]. split; [|split].
  - rewrite <- Z.leb_le, H2, Bool.negb_true_iff.
    split.
    + intros E [= ->]. discriminate.
    + intros E. destruct (Ascii.eqb_spec a "0"); [subst; now destruct E|reflexivity].
  - intros Hz. apply Z.leb_le in Hz. rewrite Hz in H3. simpl in H3.
    now apply String.eqb_eq in H3.
  - rewrite H4. apply Z.leb_le.
Qed.

Lemma postcode_leading_zeros_witness :
  exists z,
    audited_postcode "0800" = VInt z /\ (0 <= z < 10000)%Z
    /\ ((1000 <= z)%Z <-> head (chars "0800") <> Some "0"%char)
    /\ ((1000 <= z)%Z -> str_of_Z z = text (take 4 (chars "0800")))
    /\ (valid_postcode (str_of_Z z) = true <-> (1000 <= z)%Z).
Proof. apply (postcode_leading_zeros "0800"). reflexivity. Defined.

Lemma to_int_not_nil z :
  Z.to_int z <> Decimal.Pos Decimal.Nil /\ Z.to_int z <> Decimal.Neg Decimal.Nil.
Proof.
  split; intros E; pose proof (DecimalZ.of_to z) as H; rewrite E in H;
    simpl in H; subst z; vm_compute in E; discriminate E.
Qed.

Lemma chars_app (s t : string) : chars (s +:+ t) = chars s ++ chars t.
Proof.
  unfold chars. induction s as [|c s IH]; simpl; [reflexivity|].
  now rewrite IH.
Qed.

(** The text of a number passes the four-digit test only if the number is
    between 0 and 9999. *)
Lemma valid_number_range z :
  valid_postcode (str_of_Z z) = true -> (0 <= z < 10000)%Z.
Proof.
  intros (a & b & c & d & Ha & Hb & Hc & Hd & Hs)%valid_postcode_iff.
  set (check := fun a b c d : ascii =>
    match NilZero.int_of_string (text [a; b; c; d]) with
    | Some i => ((0 <=? Z.of_int i) && (Z.of_int i <? 10000))%Z
    | None => true
    end
    && match NilZero.int_of_string (text [a; b; c; d; Chars.newline]) with
       | Some _ => false
       | None => true
       end).
  assert (Hall : each4 digit_chars check = true) by (vm_compute; reflexivity).
  pose proof (each4_spec _ _ a b c d Hall (digit_cases _ Ha) (digit_cases _ Hb)
                (digit_cases _ Hc) (digit_cases _ Hd)) as H.
  unfold check in H. apply andb_prop in H as [H1 H2].
  destruct (to_int_not_nil z) as [N1 N2].
  pose proof (NilZero.isi _ N1 N2) as Hi. fold (str_of_Z z) in Hi.
  rewrite <- (text_chars (str_of_Z z)) in Hi.
  destruct Hs as [Hs | Hs]; rewrite Hs in Hi.
  - rewrite Hi in H1. rewrite (DecimalZ.of_to z) in H1.
    apply andb_prop in H1 as [H0 H1]. apply Z.leb_le in H0.
    apply Z.ltb_lt in H1. lia.
  - rewrite Hi in H2. discriminate.
Qed.

(** X3.  Postcode cells that are not text.  A number passes the four-digit
    test exactly when it is between 1000 and 9999.  A missing cell gets the
    text form "nan" and a float its text form ending in ".0": neither
    passes the test, so the audit leaves the text in the cell and reports
    it. *)
Theorem postcode_cells_not_text :
  (forall z, valid_postcode (str_of_Z z) = true <-> (1000 <= z <= 9999)%Z)
  /\ (forall z s, py_str (VInt z) = Ok s -> (1000 <= z <= 9999)%Z ->
        audited_postcode s = VInt z)
  /\ (forall v s, py_str v = Ok s ->
        v = VNull \/ (exists q, v = VFloat q) ->
        valid_postcode s = false /\ audited_postcode s = VStr s)
  /\ py_str VNull = Ok "nan".
Proof.
  assert (Hrange : forallb (fun n =>
            let z := Z.of_nat n in
            Bool.eqb (valid_postcode (str_of_Z z)) (1000 <=? z)%Z
            && implb (1000 <=? z)%Z
                 (Z.eqb (Z_of_digits 0 (take 4 (chars (str_of_Z z)))) z))
            (seq 0 (100 * 100)) = true) by (vm_compute; reflexivity).
  rewrite forallb_forall in Hrange.
  assert (Hn : forall z, (0 <= z < 10000)%Z ->
            valid_postcode (str_of_Z z) = (1000 <=? z)%Z
            /\ ((1000 <= z)%Z ->
                Z_of_digits 0 (take 4 (chars (str_of_Z z))) = z)).
  { intros z Hz.
    assert (Hin : In (Z.to_nat z) (seq 0 (100 * 100))) by (apply in_seq; lia).
    specialize (Hrange _ Hin). cbv zeta in Hrange.
    rewrite Z2Nat.id in Hrange by lia.
    apply andb_prop in Hrange as [H1 H2]. apply Bool.eqb_prop in H1.
    split; [exact H1|].
    intros Hz'. apply Z.leb_le in Hz'. rewrite Hz' in H2. simpl in H2.
    now apply Z.eqb_eq in H2. }
  split; [|split; [|split]].
  - intros z. split.
    + intros Hv. pose proof (valid_number_range z Hv) as Hz.
      destruct (Hn z Hz) as [E _]. rewrite E in Hv. apply Z.leb_le in Hv. lia.
    + intros Hz. destruct (Hn z) as [E _]; [lia|]. rewrite E.
      apply Z.leb_le. lia.
  - intros z s Hs Hz. simpl in Hs. inversion Hs; subst s; clear Hs.
    unfold audited_postcode.
    destruct (Hn z) as [E1 E2]; [lia|]. rewrite E1.
    replace (1000 <=? z)%Z with true by (symmetry; apply Z.leb_le; lia).
    rewrite E2 by lia. reflexivity.
  - assert (Hinv : forall s, valid_postcode s = false ->
              valid_postcode s = false /\ audited_postcode s = VStr s).
    { intros s Hs. split; [exact Hs|]. unfold audited_postcode. now rewrite Hs. }
    clear Hn Hrange. intros v s Hs [-> | [q ->]]; apply Hinv.
    + simpl in Hs. inversion Hs; subst s. reflexivity.
    + unfold py_str in Hs.
      match type of Hs with
      | (if ?c then _ else _) = _ => destruct c
      end; [|discriminate Hs].
      inversion Hs; subst s; clear Hs.
      destruct (valid_postcode (str_of_Z (Qnum (this q)) +:+ ".0")) eqn:Hv;
        [|reflexivity].
      apply valid_postcode_iff in Hv as (a & b & c & d & Ha & Hb & Hc & Hd & Hs).
      rewrite chars_app in Hs. exfalso.
      set (l := chars (str_of_Z (Qnum (this q)))) in Hs. clearbody l.
      destruct Hs as [Hs | Hs].
      * assert (Hl : length l = 2).
        { apply (f_equal length) in Hs. rewrite length_app in Hs.
          simpl in Hs. lia. }
        destruct l as [|x [|y [|? ?]]]; simpl in Hl; try lia. simpl in Hs.
        inversion Hs; subst. vm_compute in Hc. discriminate Hc.
      * assert (Hl : length l = 3).
        { apply (f_equal length) in Hs. rewrite length_app in Hs.
          simpl in Hs. lia. }
        destruct l as [|x [|y [|z [|? ?]]]]; simpl in Hl; try lia.
        apply (f_equal (fun l => l !! 4)) in Hs. vm_compute in Hs.
        discriminate Hs.
  - reflexivity.
Qed.

(** X1.  The postcode audit on every table with a Postcode column whose
    cells have a text form in ASCII.  A cell whose text passes the four-digit test
    becomes the number, any other cell is left as its text form; the
    report gives the number of cells that fail the test and lists each
    failing text once, in the order of first appearance; there is no
    report when no cell fails.  The other columns, the column list and the
    number of rows stay. *)
Theorem check_invalidate_postcodes_spec (df : DataFrame) (strs : list string) :
  wf df -> has_col "Postcode" df = true ->
  traverse py_str (get_col df "Postcode") = Ok strs ->
  Forall ascii_text strs ->
  let invalid := filter (fun s => valid_postcode s = false) strs in
  (exists df',
     check_invalidate_postcodes df
     = Ok (df', if 0 <? length invalid
                then Some (PostcodeReport (length invalid)
                             (first_occurrences [] invalid))
                else None)
     /\ get_col df' "Postcode" = audited_postcode <$> strs
     /\ same_except ["Postcode"] df df'
     /\ columns df' = columns df)
  /\ NoDup (first_occurrences [] invalid)
  /\ (forall s, s ∈ first_occurrences [] invalid
                <-> s ∈ strs /\ valid_postcode s = false).
Proof.
  intros Hwf Hcol Hstrs _ invalid.
  split; [now apply check_invalidate_postcodes_table|].
  split; [apply first_occurrences_NoDup|].
  intros s. rewrite first_occurrences_elem. unfold invalid.
  rewrite list_elem_of_filter. split.
  - intros [[H1 H2] _]. now split.
  - intros [H1 H2]. split; [now split|]. intros H. inversion H.
Qed.

Lemma check_invalidate_postcodes_spec_witness :
  let df := mkDF ["Postcode"] [[VStr "2000"]; [VNull]; [VInt 2037]; [VNull]] in
  exists df',
    check_invalidate_postcodes df
    = Ok (df', Some (PostcodeReport 2 ["nan"]))
    /\ get_col df' "Postcode" = [VInt 2000; VStr "nan"; VInt 2037; VStr "nan"].
Proof.
  destruct (check_invalidate_postcodes_spec
              (mkDF ["Postcode"] [[VStr "2000"]; [VNull]; [VInt 2037]; [VNull]])
              ["2000"; "nan"; "2037"; "nan"])
    as ((df' & H1 & H2 & _) & _).
  - repeat constructor.
  - reflexivity.
  - reflexivity.
  - repeat constructor.
  - exists df'. split; [exact H1|exact H2].
Defined.

(** ** The price audit *)

Lemma check_invalid_values_report f df :
  has_col "Price" df = true ->
  let prices := get_col (check_invalid_values f df).1 "Price" in
  let invalid := length (filter (fun v => invalid_price v = true) prices) in
  (check_invalid_values f df).2
  = if 0 <? invalid
    then Some (PriceSummary invalid (reduce number_min (omap num_of prices))
                 (reduce number_max (omap num_of prices)))
    else None.
Proof.
  intros Hcol. unfold check_invalid_values. rewrite Hcol.
  destruct (0 <? _) eqn:E; simpl; rewrite E; reflexivity.
Qed.

Lemma number_compare_refl a : number_compare a a = Eq.
Proof.
  destruct a as [q|[]]; simpl; try reflexivity. now apply Qceq_alt.
Qed.

Lemma number_compare_Eq a b : number_compare a b = Eq -> a = b.
Proof.
  destruct a as [p|[]], b as [q|[]]; simpl; intros H; try discriminate;
    try reflexivity.
  apply Qceq_alt in H. now subst.
Qed.

Lemma number_le_refl a : number_le a a.
Proof. unfold number_le. now rewrite number_compare_refl. Qed.

Lemma number_le_trans a b c : number_le a b -> number_le b c -> number_le a c.
Proof.
  unfold number_le.
  destruct a as [p|[]], b as [q|[]], c as [r|[]]; simpl; intros H1 H2;
    try (now exfalso; apply H1); try (now exfalso; apply H2);
    try discriminate.
  revert H1 H2. rewrite <- !Qcle_alt. apply Qcle_trans.
Qed.

Lemma number_le_lt_trans a b c :
  number_le a b -> number_lt b c -> number_lt a c.
Proof.
  unfold number_le, number_lt.
  destruct a as [p|[]], b as [q|[]], c as [r|[]]; simpl; intros H1 H2;
    try (now exfalso; apply H1); try discriminate; try reflexivity.
  revert H1 H2. rewrite <- Qcle_alt, <- !Qclt_alt. apply Qcle_lt_trans.
Qed.

Lemma number_gt_le a b : number_compare a b = Gt -> number_le b a.
Proof.
  unfold number_le.
  destruct a as [p|[]], b as [q|[]]; simpl; intros H; try discriminate.
  apply Qcgt_alt in H. apply Qcle_alt, Qclt_le_weak. exact H.
Qed.

Lemma number_min_spec a b :
  (number_min a b = a \/ number_min a b = b)
  /\ number_le (number_min a b) a /\ number_le (number_min a b) b.
Proof.
  unfold number_min. destruct (number_compare a b) eqn:E.
  - repeat split; auto using number_le_refl. unfold number_le. now rewrite E.
  - repeat split; auto using number_le_refl. unfold number_le. now rewrite E.
  - repeat split; auto using number_le_refl. now apply number_gt_le.
Qed.

Lemma number_max_spec a b :
  (number_max a b = a \/ number_max a b = b)
  /\ number_le a (number_max a b) /\ number_le b (number_max a b).
Proof.
  unfold number_max. destruct (number_compare a b) eqn:E.
  - apply number_compare_Eq in E. subst b.
    repeat split; auto using number_le_refl.
  - repeat split; auto using number_le_refl. unfold number_le. now rewrite E.
  - repeat split; auto using number_le_refl. now apply number_gt_le.
Qed.

Lemma foldl_number_min q l :
  foldl number_min q l ∈ q :: l
  /\ forall x, x ∈ q :: l -> number_le (foldl number_min q l) x.
Proof.
  revert q. induction l as [|y l IH]; intros q; simpl.
  - split; [left|]. intros x ->%list_elem_of_singleton. apply number_le_refl.
  - destruct (IH (number_min q y)) as [Hin Hle].
    destruct (number_min_spec q y) as (E & L1 & L2).
    set (m := foldl number_min (number_min q y) l) in *. split.
    + apply elem_of_cons in Hin as [Hm | Hin].
      * rewrite Hm. destruct E as [-> | ->]; [left|right; left].
      * right. now right.
    + intros x Hx. apply elem_of_cons in Hx as [-> | Hx].
      { eapply number_le_trans; [apply Hle; left|exact L1]. }
      apply elem_of_cons in Hx as [-> | Hx].
      { eapply number_le_trans; [apply Hle; left|exact L2]. }
      apply Hle. now right.
Qed.

Lemma foldl_number_max q l :
  foldl number_max q l ∈ q :: l
  /\ forall x, x ∈ q :: l -> number_le x (foldl number_max q l).
Proof.
  revert q. induction l as [|y l IH]; intros q; simpl.
  - split; [left|]. intros x ->%list_elem_of_singleton. apply number_le_refl.
  - destruct (IH (number_max q y)) as [Hin Hle].
    destruct (number_max_spec q y) as (E & L1 & L2).
    set (m := foldl number_max (number_max q y) l) in *. split.
    + apply elem_of_cons in Hin as [Hm | Hin].
      * rewrite Hm. destruct E as [-> | ->]; [left|right; left].
      * right. now right.
    + intros x Hx. apply elem_of_cons in Hx as [-> | Hx].
      { eapply number_le_trans; [exact L1|apply Hle; left]. }
      apply elem_of_cons in Hx as [-> | Hx].
      { eapply number_le_trans; [exact L2|apply Hle; left]. }
      apply Hle. now right.
Qed.

Lemma invalid_price_cases v :
  isna v || is_number v = true ->
  (isna v = true /\ num_of v = None /\ invalid_price v = true)
  \/ (isna v = false
      /\ exists x, num_of v = Some x
                   /\ invalid_price v
                      = bool_decide (number_lt x (Finite (Q2Qc 0)))).
Proof.
  destruct v; simpl; try discriminate; intros _;
    try (left; repeat split; reflexivity);
    right; (split; [reflexivity|]); eexists; split; reflexivity.
Qed.

(** X5.  What the price audit reports, for a coercion that returns numbers
    and missing values.  It reports nothing when every price of the coerced
    column is a number that is not negative.  Otherwise it reports the
    number of prices that are missing or negative after the coercion, and
    as value range the least and the greatest of all the prices that are
    numbers, the negative and the infinite ones included: with a negative
    price in the column the reported minimum is negative.  When no price
    is a number the range is missing. *)
Theorem price_report_spec (to_numeric : list value -> list value)
    (df : DataFrame) :
  (forall col, length (to_numeric col) = length col) ->
  wf df -> has_col "Price" df = true ->
  let prices := to_numeric (get_col df "Price") in
  let numbers := omap num_of prices in
  let invalid := length (filter (fun v => invalid_price v = true) prices) in
  Forall (fun v => isna v || is_number v = true) prices ->
  match (check_invalid_values to_numeric df).2 with
  | None =>
      invalid = 0
      /\ forall v, v ∈ prices ->
           exists q, num_of v = Some q /\ number_le (Finite (Q2Qc 0)) q
  | Some s =>
      0 < invalid /\ invalid_values s = invalid
      /\ invalid
         = length (filter (fun v => isna v = true) prices)
           + length (filter (fun q => bool_decide (number_lt q (Finite (Q2Qc 0))))
                       numbers)
      /\ (numbers = [] -> min_value s = None /\ max_value s = None)
      /\ (numbers <> [] ->
          exists lo hi,
            min_value s = Some lo /\ max_value s = Some hi
            /\ lo ∈ numbers /\ hi ∈ numbers
            /\ forall q, q ∈ numbers -> number_le lo q /\ number_le q hi)
  end
  /\ (forall q, q ∈ numbers -> number_lt q (Finite (Q2Qc 0)) ->
        exists s lo,
          (check_invalid_values to_numeric df).2 = Some s
          /\ min_value s = Some lo /\ number_lt lo (Finite (Q2Qc 0))).
Proof.
  intros Hlen Hwf Hcol prices numbers invalid Hnum.
  pose proof (check_invalid_values_report to_numeric df Hcol) as R.
  cbv zeta in R.
  assert (Hp : get_col (check_invalid_values to_numeric df).1 "Price"
               = prices).
  { rewrite check_invalid_values_table, Hcol. apply set_col_same; [exact Hwf|].
    unfold prices. now rewrite Hlen, get_col_length. }
  rewrite Hp in R. fold numbers invalid in R.
  assert (Hrange : numbers <> [] ->
            exists lo hi,
              reduce number_min numbers = Some lo
              /\ reduce number_max numbers = Some hi
              /\ lo ∈ numbers /\ hi ∈ numbers
              /\ forall q, q ∈ numbers -> number_le lo q /\ number_le q hi).
  { intros Hne. destruct numbers as [|q l]; [now destruct Hne|]. simpl.
    destruct (foldl_number_min q l) as [I1 L1],
             (foldl_number_max q l) as [I2 L2].
    eexists _, _. repeat split; eauto. }
  assert (Hneg : forall v, v ∈ prices -> invalid_price v = false ->
            exists q, num_of v = Some q /\ number_le (Finite (Q2Qc 0)) q).
  { intros v _ Hv. unfold invalid_price in Hv.
    destruct (num_of v) as [q|]; [|discriminate]. exists q. split; [reflexivity|].
    apply bool_decide_eq_false in Hv.
    destruct (number_compare q (Finite (Q2Qc 0))) eqn:E.
    - unfold number_le. destruct q as [q|[]]; simpl in *; try discriminate.
      apply Qceq_alt in E. subst q. now rewrite (proj1 (Qceq_alt _ _) eq_refl).
    - contradiction.
    - now apply number_gt_le. }
  assert (Hcount : invalid
            = length (filter (fun v => isna v = true) prices)
              + length (filter (fun q => bool_decide
                                           (number_lt q (Finite (Q2Qc 0))))
                          numbers)).
  { unfold invalid, numbers. clear -Hnum.
    induction Hnum as [|v l Hv _ IH]; [reflexivity|].
    destruct (invalid_price_cases v Hv)
      as [(Hna & Hn & Hi) | (Hna & x & Hn & Hi)].
    - rewrite (filter_cons_True (fun v => invalid_price v = true)) by exact Hi.
      rewrite (filter_cons_True (fun v => isna v = true)) by exact Hna.
      simpl. rewrite Hn. simpl in IH. rewrite IH. reflexivity.
    - rewrite (filter_cons_False (fun v => isna v = true))
        by (rewrite Hna; discriminate).
      simpl. rewrite Hn. simpl in IH.
      destruct (bool_decide (number_lt x (Finite (Q2Qc 0)))) eqn:Ex.
      + rewrite (filter_cons_True (fun v => invalid_price v = true))
          by exact Hi.
        rewrite filter_cons_True by (now rewrite Ex).
        simpl. rewrite IH. exact (eq_sym (Nat.add_succ_r _ _)).
      + rewrite (filter_cons_False (fun v => invalid_price v = true))
          by (rewrite Hi; discriminate).
        rewrite filter_cons_False by (now rewrite Ex).
        exact IH. }
  split.
  - rewrite R. destruct (0 <? invalid) eqn:E.
    + apply Nat.ltb_lt in E. simpl.
      split; [exact E|]. split; [reflexivity|]. split; [exact Hcount|].
      split; [|exact Hrange].
      intros ->. split; reflexivity.
    + apply Nat.ltb_ge in E. split; [lia|]. intros v Hv. apply Hneg; [exact Hv|].
      destruct (invalid_price v) eqn:Ev; [|reflexivity]. exfalso.
      assert (Hin : v ∈ filter (fun v => invalid_price v = true) prices)
        by (apply list_elem_of_filter; now split).
      unfold invalid in E.
      destruct (filter (fun v => invalid_price v = true) prices);
        [inversion Hin|simpl in E; lia].
  - intros q Hq Hlt.
    apply list_elem_of_omap in Hq as (v & Hv & Hnumv).
    assert (Hinv : invalid_price v = true).
    { unfold invalid_price. rewrite Hnumv. now apply bool_decide_eq_true. }
    assert (Hpos : 0 < invalid).
    { assert (Hin : v ∈ filter (fun v => invalid_price v = true) prices)
        by (apply list_elem_of_filter; now split).
      unfold invalid.
      destruct (filter (fun v => invalid_price v = true) prices);
        [inversion Hin|simpl; lia]. }
    assert (Hq : q ∈ numbers) by (apply list_elem_of_omap; eauto).
    destruct Hrange as (lo & hi & Hlo & _ & _ & _ & Hle).
    { intros E. rewrite E in Hq. inversion Hq. }
    rewrite R. apply Nat.ltb_lt in Hpos. rewrite Hpos.
    eexists _, lo. split; [reflexivity|]. split; [exact Hlo|].
    eapply number_le_lt_trans; [exact (proj1 (Hle q Hq))|exact Hlt].
Qed.

Lemma price_report_spec_witness :
  let df := mkDF ["Price"] [[VStr "159.9"]; [VStr "abc"]; [VInt (-5)]] in
  exists s lo,
    (check_invalid_values plain_to_numeric df).2 = Some s
    /\ min_value s = Some lo /\ number_lt lo (Finite (Q2Qc 0)).
Proof.
  refine (proj2 (price_report_spec plain_to_numeric
                   (mkDF ["Price"] [[VStr "159.9"]; [VStr "abc"]; [VInt (-5)]])
                   plain_to_numeric_length _ _ _)
            (Finite (Q2Qc (inject_Z (-5)))) _ _).
  - repeat constructor.
  - reflexivity.
  - vm_compute. repeat constructor.
  - vm_compute. right. left.
  - reflexivity.
Defined.

(** ** Title case *)

Lemma case_facts c :
  (Chars.is_lower c = true ->
   Chars.is_upper c = false /\ Chars.lower c = c
   /\ Chars.is_upper (Chars.upper c) = true
   /\ Chars.is_lower (Chars.upper c) = false)
  /\ (Chars.is_upper c = true ->
      Chars.is_lower c = false /\ Chars.upper c = c
      /\ Chars.is_lower (Chars.lower c) = true
      /\ Chars.is_upper (Chars.lower c) = false).
Proof.
  destruct c as [[] [] [] [] [] [] [] []];
    (split; intros H; [try (vm_compute in H; discriminate H)
                      |try (vm_compute in H; discriminate H)]);
    vm_compute; repeat split.
Qed.

Lemma title_from_length b s : length (title_from b s) = length s.
Proof.
  revert b. induction s as [|c s IH]; intros b; simpl; [reflexivity|].
  destruct (Chars.is_lower c); [|destruct (Chars.is_upper c)]; simpl;
    now rewrite IH.
Qed.

Lemma title_from_head b c s :
  title_from b (c :: s)
  = title_char b c :: title_from (Chars.is_alpha c) s.
Proof.
  simpl. unfold title_char, Chars.is_alpha.
  destruct (Chars.is_lower c) eqn:El.
  - destruct (proj1 (case_facts c) El) as (Eu & E1 & _).
    rewrite Eu, E1. simpl. now destruct b.
  - destruct (Chars.is_upper c) eqn:Eu; simpl; [|reflexivity].
    destruct (proj2 (case_facts c) Eu) as (_ & E1 & _).
    rewrite E1. now destruct b.
Qed.

Lemma title_from_lookup b s i c :
  s !! i = Some c ->
  title_from b s !! i
  = Some (title_char (match i with 0 => b | S _ => after_letter s i end) c).
Proof.
  revert b i. induction s as [|x s IH]; intros b i H; [discriminate|].
  rewrite title_from_head. destruct i as [|i]; simpl in H.
  - now inversion H.
  - simpl. rewrite (IH _ _ H). f_equal. f_equal.
    destruct i as [|i]; [reflexivity|]. reflexivity.
Qed.

Lemma title_char_alpha b c :
  Chars.is_alpha (title_char b c) = Chars.is_alpha c.
Proof.
  unfold title_char, Chars.is_alpha.
  destruct (Chars.is_upper c) eqn:Eu; simpl.
  - destruct (proj2 (case_facts c) Eu) as (El & E1 & E2 & E3).
    destruct b; [now rewrite E2, E3|now rewrite E1, Eu].
  - destruct (Chars.is_lower c) eqn:El; simpl; [|now rewrite Eu, El].
    destruct (proj1 (case_facts c) El) as (_ & E1 & E2 & E3).
    destruct b; [now rewrite E1, Eu, El|now rewrite E2].
Qed.

Lemma title_char_idemp b c : title_char b (title_char b c) = title_char b c.
Proof.
  unfold title_char at 1. rewrite title_char_alpha. unfold title_char.
  unfold Chars.is_alpha.
  destruct (Chars.is_upper c) eqn:Eu; simpl.
  - destruct (proj2 (case_facts c) Eu) as (El & E1 & E2 & E3).
    destruct b.
    + destruct (proj1 (case_facts _) E2) as (_ & E4 & _). exact E4.
    + now rewrite E1, E1.
  - destruct (Chars.is_lower c) eqn:El; simpl; [|reflexivity].
    destruct (proj1 (case_facts c) El) as (_ & E1 & E2 & E3).
    destruct b.
    + now rewrite E1, E1.
    + destruct (proj2 (case_facts _) E2) as (_ & E4 & _). exact E4.
Qed.

Lemma title_from_idemp b s : title_from b (title_from b s) = title_from b s.
Proof.
  revert b. induction s as [|c s IH]; intros b; [reflexivity|].
  rewrite !title_from_head, title_char_idemp, title_char_alpha, IH.
  reflexivity.
Qed.

(** X6.  Title case of ASCII text.  The title form of a text has the characters of the
    text at the same positions, up to the case of the letters: a letter is
    written in upper case when the character before it is not a letter (or
    there is none), in lower case when it is a letter; so a letter after a
    digit, an apostrophe or a hyphen is written in upper case.  Title case
    applied twice is title case applied once. *)
Theorem title_spec (s : string) :
  ascii_text s ->
  length (chars (title s)) = length (chars s)
  /\ (forall i c, chars s !! i = Some c ->
        chars (title s) !! i
        = Some (title_char (after_letter (chars s) i) c))
  /\ title (title s) = title s.
Proof.
  intros _. unfold title. rewrite !chars_text.
  split; [apply title_from_length|].
  split.
  - intros i c H. rewrite (title_from_lookup _ _ _ _ H).
    now destruct i.
  - now rewrite title_from_idemp.
Qed.

Lemma title_spec_witness :
  title "o'NEIL park 2nd" = "O'Neil Park 2Nd"
  /\ title (title "o'NEIL park 2nd") = title "o'NEIL park 2nd".
Proof.
  split; [reflexivity|].
  exact (proj2 (proj2 (title_spec "o'NEIL park 2nd" eq_refl))).
Defined.

(** ** Suburb names *)

Lemma traverse_title_cell col :
  (Forall text_or_null col /\ traverse title_cell col = Ok (titled <$> col))
  \/ (Exists (fun v => ~ text_or_null v) col
      /\ traverse title_cell col = Raise AttributeError).
Proof.
  induction col as [|v col IH]; [left; split; [constructor|reflexivity]|].
  destruct v as [|s|z|q|n|d]; simpl;
    try (right; split; [left; intros []|reflexivity]).
  - destruct IH as [[F E] | [F E]]; rewrite E; simpl.
    + left. split; [constructor; [exact I|exact F]|reflexivity].
    + right. split; [now right|reflexivity].
  - destruct IH as [[F E] | [F E]]; rewrite E; simpl.
    + left. split; [constructor; [exact I|exact F]|reflexivity].
    + right. split; [now right|reflexivity].
Qed.

Lemma titled_idemp v : titled (titled v) = titled v.
Proof.
  destruct v; simpl; try reflexivity. f_equal.
  unfold title. now rewrite chars_text, title_from_idemp.
Qed.

(** X7.  Suburb names in ASCII.  When every Suburb cell is text or missing, every
    text is put in title case, the missing cells stay missing, and doing
    it again changes nothing.  When some Suburb cell is neither text nor
    missing (a number, a date), the call raises an AttributeError. *)
Theorem standardize_suburb_names_spec (df : DataFrame) :
  wf df -> has_col "Suburb" df = true -> ascii_column df "Suburb" ->
  (Forall text_or_null (get_col df "Suburb") ->
   exists df',
     standardize_suburb_names df = Ok df'
     /\ get_col df' "Suburb" = titled <$> get_col df "Suburb"
     /\ standardize_suburb_names df' = Ok df')
  /\ (Exists (fun v => ~ text_or_null v) (get_col df "Suburb") ->
      standardize_suburb_names df = Raise AttributeError).
Proof.
  intros Hwf Hcol _. unfold standardize_suburb_names. rewrite Hcol.
  destruct (traverse_title_cell (get_col df "Suburb")) as [[F E] | [F E]].
  - split.
    + intros _. rewrite E. simpl.
      set (df' := set_col df "Suburb" (titled <$> get_col df "Suburb")).
      assert (Hl : length (titled <$> get_col df "Suburb") = nrows df)
        by now rewrite length_fmap, get_col_length.
      assert (Hwf' : wf df') by now apply set_col_wf.
      assert (Hc : get_col df' "Suburb" = titled <$> get_col df "Suburb")
        by now apply set_col_same.
      assert (Hcol' : has_col "Suburb" df' = true).
      { rewrite (has_col_columns _ df df'); [exact Hcol|].
        unfold df'. now rewrite set_col_columns, Hcol. }
      exists df'. split; [reflexivity|]. split; [exact Hc|].
      fold (standardize_suburb_names df'). unfold standardize_suburb_names.
      rewrite Hcol'.
      destruct (traverse_title_cell (get_col df' "Suburb")) as [[F' E'] | [F' E']].
      * rewrite E', Hc, <- list_fmap_compose.
        rewrite (list_fmap_ext (titled ∘ titled) titled)
          by (intros; apply titled_idemp).
        rewrite <- Hc. simpl. f_equal. now apply set_col_get_col.
      * exfalso. rewrite Hc in F'. apply Exists_exists in F' as (v & Hv & Hn).
        apply list_elem_of_fmap in Hv as (w & -> & Hw).
        rewrite Forall_forall in F. specialize (F w Hw).
        apply Hn. destruct w; simpl in *; trivial.
    + intros Hex. exfalso. apply Exists_exists in Hex as (v & Hv & Hn).
      rewrite Forall_forall in F. exact (Hn (F v Hv)).
  - split.
    + intros Hall. exfalso. apply Exists_exists in F as (v & Hv & Hn).
      rewrite Forall_forall in Hall. exact (Hn (Hall v Hv)).
    + intros _. now rewrite E.
Qed.

Lemma standardize_suburb_names_spec_witness :
  (exists df',
     standardize_suburb_names stations_table = Ok df'
     /\ get_col df' "Suburb" = [VStr "Sydney"; VStr "Glebe"]
     /\ standardize_suburb_names df' = Ok df')
  /\ standardize_suburb_names (mkDF ["Suburb"] [[VStr "glebe"]; [VInt 7]])
     = Raise AttributeError.
Proof.
  split.
  - refine (proj1 (standardize_suburb_names_spec stations_table _ _ _) _).
    + repeat constructor.
    + reflexivity.
    + repeat constructor.
    + repeat constructor.
  - refine (proj2 (standardize_suburb_names_spec
                     (mkDF ["Suburb"] [[VStr "glebe"]; [VInt 7]]) _ _ _) _).
    + repeat constructor.
    + reflexivity.
    + repeat constructor.
    + right. left. intros [].
Defined.

(** ** The shape of the decomposed addresses *)

Lemma traverse_elem {A B} (f : A -> result B) xs ys y :
  traverse f xs = Ok ys -> y ∈ ys -> exists x, x ∈ xs /\ f x = Ok y.
Proof.
  revert ys. induction xs as [|x xs IH]; intros ys H Hy; simpl in H.
  - inversion H; subst. inversion Hy.
  - destruct (f x) as [y0|] eqn:E; [|discriminate H]. cbn [bind] in H.
    destruct (traverse f xs) as [ys0|]; [|discriminate H]. cbn [bind] in H.
    inversion H; subst. apply elem_of_cons in Hy as [-> | Hy].
    + exists x. split; [left|exact E].
    + destruct (IH ys0 eq_refl Hy) as (x' & Hx' & E').
      exists x'. split; [now right|exact E'].
Qed.

Lemma strip_strip s : strip (strip s) = strip s.
Proof.
  unfold strip at 1. rewrite lstrip_id by apply strip_head.
  apply rstrip_id, strip_ends_clean.
Qed.

Lemma sub_in_address_text r addr v :
  sub_in_address r addr = Ok v -> exists a, v = VStr a.
Proof.
  destruct addr; simpl; intros H; try discriminate H.
  inversion H. eauto.
Qed.

(** X9.  The shape of the result of the address decomposition.  In the
    table [clean_address] returns for a table with the three columns,
    holding ASCII text, every Address cell is a text with no white space
    at either end, and every State cell is missing or a text of exactly
    three word characters.  The State column is appended when the table
    had none and overwritten when it had one. *)
Theorem clean_address_shape (df df' : DataFrame) :
  wf df -> ascii_addresses df ->
  has_col "Address" df && has_col "Postcode" df && has_col "Suburb" df = true ->
  clean_address df = Ok df' ->
  columns df'
  = (if has_col "State" df then columns df else columns df ++ ["State"])
  /\ Forall (fun v => exists a, v = VStr a /\ strip (chars a) = chars a)
       (get_col df' "Address")
  /\ Forall (fun v => v = VNull
                      \/ exists x y z, v = VStr (text [x; y; z])
                                       /\ word3 x y z = true)
       (get_col df' "State").
Proof.
  intros Hwf _ Hcols Hrun.
  pose proof (clean_address_columns df Hwf Hcols
                (clean_address_rows df df' Hcols Hrun)) as H.
  rewrite Hrun in H.
  destruct H as (a & st & Hac & Ha & Hst & _ & Hc).
  split; [exact Hc|]. rewrite Ha, Hst. clear Ha Hst Hc Hrun.
  unfold address_columns in Hac.
  destruct (traverse _ (zip (get_col df "Postcode") (get_col df "Address")))
    as [a1|] eqn:E1; [|discriminate Hac].
  cbn [bind] in Hac.
  destruct (traverse _ (zip (get_col df "Suburb") _)) as [a6|] eqn:E6;
    [|discriminate Hac].
  cbn [bind] in Hac. inversion Hac; subst a st; clear Hac. split.
  - apply Forall_forall. intros v Hv.
    apply list_elem_of_fmap in Hv as (w & -> & Hw).
    destruct (traverse_elem _ _ _ _ E6 Hw) as ([s x] & _ & Hx).
    unfold remove_suburb in Hx. cbn [fst snd] in Hx.
    destruct (py_str s) as [t|]; [|discriminate Hx]. cbn [bind] in Hx.
    apply sub_in_address_text in Hx as [b ->].
    cbn [str_map]. unfold strip_text. eexists. split; [reflexivity|].
    now rewrite chars_text, strip_strip.
  - apply Forall_forall. intros v Hv. unfold state_column in Hv.
    apply list_elem_of_fmap in Hv as (w & -> & Hw).
    destruct w as [|b| | | |]; cbn [str_map]; try (now left).
    destruct (stripped_addresses_elem _ _ Hw) as [s Hs].
    rewrite extract_state_spec by (rewrite Hs; apply strip_ends_clean).
    destruct (ends_in_word3 (chars b)) eqn:E; [|now left].
    right. unfold ends_in_word3 in E. apply andb_prop in E as [El Ew].
    apply Nat.leb_le in El.
    assert (Hlen : length (last3 (chars b)) = 3)
      by (unfold last3; rewrite length_drop; lia).
    destruct (last3 (chars b)) as [|x [|y [|z [|? ?]]]]; try discriminate Hlen.
    exists x, y, z. split; [reflexivity|].
    unfold word3. cbn [forallb] in Ew. now rewrite andb_true_r, andb_assoc in Ew.
Qed.

Lemma clean_address_shape_witness :
  columns addresses_cleaned = columns addresses_table ++ ["State"]
  /\ Forall (fun v => exists a, v = VStr a /\ strip (chars a) = chars a)
       (get_col addresses_cleaned "Address")
  /\ Forall (fun v => v = VNull
                      \/ exists x y z, v = VStr (text [x; y; z])
                                       /\ word3 x y z = true)
       (get_col addresses_cleaned "State").
Proof.
  apply (clean_address_shape addresses_table addresses_cleaned).
  - repeat constructor.
  - repeat split; repeat constructor.
  - reflexivity.
  - vm_compute. reflexivity.
Defined.

(** ** Concatenation *)

Lemma row_get_columns df df' c r :
  columns df' = columns df -> row_get df' c r = row_get df c r.
Proof. unfold row_get. now intros ->. Qed.

Lemma row_get_reindexed df cols c r :
  (c ∈ columns df -> c ∈ cols) ->
  row_get (mkDF cols []) c ((fun c' => row_get df c' r) <$> cols)
  = row_get df c r.
Proof.
  intros Hin. unfold row_get at 1. simpl.
  destruct (index_of c cols) as [i|] eqn:E.
  - unfold cell. rewrite list_lookup_fmap, (index_of_lookup _ _ _ E).
    reflexivity.
  - apply index_of_None in E. unfold row_get.
    destruct (index_of c (columns df)) as [j|] eqn:E'; [|reflexivity].
    destruct E. apply Hin. eapply list_elem_of_lookup_2, index_of_lookup, E'.
Qed.

Lemma union_columns_elem dfs c :
  c ∈ union_columns dfs <-> exists df, df ∈ dfs /\ c ∈ columns df.
Proof.
  unfold union_columns. rewrite first_occurrences_elem, list_elem_of_bind.
  split.
  - intros [(df & H1 & H2) _]. eauto.
  - intros (df & H1 & H2). split; [eauto|]. intros H. inversion H.
Qed.

Lemma concat_wf dfs : wf (concat dfs).
Proof.
  unfold wf, concat. simpl. apply Forall_bind, Forall_forall.
  intros df _. unfold reindex. apply Forall_fmap, Forall_forall.
  intros r _. simpl. apply length_fmap.
Qed.

Lemma concat_get_col dfs c :
  get_col (concat dfs) c = dfs ≫= (fun df => get_col df c).
Proof.
  unfold get_col, concat. simpl.
  assert (H : forall l, (forall df, df ∈ l -> df ∈ dfs) ->
            row_get (mkDF (union_columns dfs) (dfs ≫= reindex (union_columns dfs))) c
              <$> (l ≫= reindex (union_columns dfs))
            = l ≫= (fun df => row_get df c <$> rows df)).
  { induction l as [|df l IH]; intros Hl; [reflexivity|].
    rewrite !bind_cons, fmap_app, IH by (intros; apply Hl; now right).
    f_equal. unfold reindex. rewrite <- list_fmap_compose.
    apply list_fmap_ext. intros i r _. simpl.
    rewrite (row_get_columns (mkDF (union_columns dfs) []))
      by reflexivity.
    apply row_get_reindexed. intros Hc. apply union_columns_elem.
    exists df. split; [apply Hl; left|exact Hc]. }
  apply H. auto.
Qed.


Lemma index_of_NoDup cols i c :
  NoDup cols -> cols !! i = Some c -> index_of c cols = Some i.
Proof.
  intros Hnd Hi. destruct (index_of c cols) as [j|] eqn:E.
  - f_equal. eapply NoDup_lookup; [exact Hnd|eapply index_of_lookup, E|exact Hi].
  - apply index_of_None in E. destruct E.
    eapply list_elem_of_lookup_2, Hi.
Qed.

Lemma reindex_id df :
  wf df -> NoDup (columns df) -> reindex (columns df) df = rows df.
Proof.
  intros Hwf Hnd. unfold reindex. rewrite <- (list_fmap_id (rows df)) at 2.
  apply list_fmap_ext. intros k r Hr. simpl.
  assert (Hlen : length r = length (columns df)).
  { unfold wf in Hwf. rewrite Forall_forall in Hwf. apply Hwf.
    eapply list_elem_of_lookup_2, Hr. }
  apply list_eq. intros i. rewrite list_lookup_fmap.
  destruct (columns df !! i) as [c|] eqn:E; simpl.
  - unfold row_get. rewrite (index_of_NoDup _ _ _ Hnd E).
    unfold cell. destruct (r !! i) as [v|] eqn:Er; [reflexivity|].
    apply lookup_ge_None in Er. apply lookup_lt_Some in E. lia.
  - symmetry. apply lookup_ge_None. apply lookup_ge_None in E. lia.
Qed.

(** X15.  Concatenating a single table whose column names are distinct
    gives the table back. *)
Theorem concat_single (df : DataFrame) :
  wf df -> NoDup (columns df) -> concat [df] = df.
Proof.
  intros Hwf Hnd. unfold concat, union_columns.
  rewrite !bind_singleton.
  rewrite first_occurrences_id by (auto; intros x _ H; inversion H).
  rewrite reindex_id by assumption. now destruct df.
Qed.

Lemma concat_single_witness : concat [table_a] = table_a.
Proof.
  apply (concat_single table_a).
  - repeat constructor.
  - refine (bool_decide_unpack _ _). vm_compute. exact I.
Defined.

(** ** The merged table *)

Lemma drop_duplicates_wf df : wf df -> wf (drop_duplicates df).
Proof.
  unfold wf. simpl. rewrite !Forall_forall. intros H r Hr.
  apply H. now apply first_occurrences_elem in Hr as [Hr _].
Qed.

Lemma combine_wf dfs out : combine dfs out -> wf out.
Proof.
  intros H. destruct (combine_rows _ _ H) as [Hc Hp].
  pose proof (drop_duplicates_wf _ (concat_wf dfs)) as Hwf.
  unfold wf in *. rewrite Forall_forall in *. intros r Hr.
  rewrite Hc. rewrite Hp in Hr. exact (Hwf r Hr).
Qed.

(** X13.  The merged table, as it is before the audits, has no two equal
    rows, whatever the order the sort leaves; its column names are
    distinct and each of its rows has one cell per column. *)
Theorem combine_no_duplicates (dfs : list DataFrame) (out : DataFrame) :
  combine dfs out ->
  NoDup (rows out) /\ NoDup (columns out) /\ wf out.
Proof.
  intros H. destruct (combine_rows _ _ H) as [Hc Hp].
  split; [|split].
  - rewrite Hp. apply first_occurrences_NoDup.
  - rewrite Hc. apply first_occurrences_NoDup.
  - eapply combine_wf, H.
Qed.

Lemma combine_no_duplicates_witness :
  exists out,
    combine [table_a; table_b] out
    /\ NoDup (rows out) /\ NoDup (columns out) /\ wf out.
Proof.
  assert (H : combine [table_a; table_b]
                (stable_sort_values "PriceUpdatedDate"
                   (remove_duplicates (concat [table_a; table_b])).1)).
  { apply combine_sorted; [reflexivity|]. apply sort_values_exists.
    vm_compute. repeat constructor. }
  eexists. split; [exact H|]. exact (combine_no_duplicates _ _ H).
Defined.

Lemma sorted_perm_unique {A} (R : A -> A -> Prop) (l1 l2 : list A) :
  (forall x y, x ∈ l1 -> y ∈ l1 -> R x y -> R y x -> x = y) ->
  StronglySorted R l1 -> StronglySorted R l2 -> l1 ≡ₚ l2 -> l1 = l2.
Proof.
  revert l2. induction l1 as [|x l1 IH]; intros l2 Hanti S1 S2 Hp.
  - now apply Permutation_nil_l in Hp.
  - destruct l2 as [|y l2]; [now apply Permutation_nil_r in Hp|].
    apply StronglySorted_inv in S1 as [S1 F1].
    apply StronglySorted_inv in S2 as [S2 F2].
    rewrite Forall_forall in F1, F2.
    assert (Hxy : x = y).
    { assert (Hx : x ∈ y :: l2) by (rewrite <- Hp; left).
      assert (Hy : y ∈ x :: l1) by (rewrite Hp; left).
      apply elem_of_cons in Hx as [Hx | Hx]; [exact Hx|].
      apply elem_of_cons in Hy as [Hy | Hy]; [now symmetry|].
      apply Hanti; [left|now right| |].
      - apply F1, Hy.
      - apply F2, Hx. }
    subst y. f_equal. apply IH; try assumption.
    + intros a b Ha Hb. apply Hanti; now right.
    + now apply (inj (cons x)) in Hp.
Qed.

(** X16.  When no two different rows of the deduplicated table have equal
    dates, sorting leaves no choice: the merged table is determined by the
    tables. *)
Theorem combine_unique (dfs : list DataFrame) (out1 out2 : DataFrame) :
  let deduped := (remove_duplicates (concat dfs)).1 in
  let key := row_get deduped "PriceUpdatedDate" in
  (forall r1 r2, r1 ∈ rows deduped -> r2 ∈ rows deduped ->
     key_le (key r1) (key r2) -> key_le (key r2) (key r1) -> r1 = r2) ->
  combine dfs out1 -> combine dfs out2 -> out1 = out2.
Proof.
  intros deduped key Hanti H1 H2.
  destruct H1 as [out1 c1 Hcol1 Hs1|c1 Hcol1];
    destruct H2 as [out2 c2 Hcol2 Hs2|c2 Hcol2];
    try (subst c1 c2; congruence).
  destruct Hs1 as [s1 Hp1 HS1], Hs2 as [s2 Hp2 HS2].
  f_equal. f_equal.
  eapply sorted_perm_unique; [|exact HS1|exact HS2|now rewrite Hp1, Hp2].
  intros x y Hx Hy. rewrite Hp1 in Hx, Hy.
  apply list_elem_of_filter in Hx as [_ Hx].
  apply list_elem_of_filter in Hy as [_ Hy].
  apply Hanti; assumption.
Qed.

Lemma combine_unique_witness :
  exists out,
    combine [table_a; table_b] out
    /\ forall out', combine [table_a; table_b] out' -> out' = out.
Proof.
  assert (H : combine [table_a; table_b]
                (stable_sort_values "PriceUpdatedDate"
                   (remove_duplicates (concat [table_a; table_b])).1)).
  { apply combine_sorted; [reflexivity|]. apply sort_values_exists.
    vm_compute. repeat constructor. }
  eexists. split; [exact H|]. intros out' H'.
  refine (combine_unique [table_a; table_b] _ _ _ H' H).
  change (rows (remove_duplicates (concat [table_a; table_b])).1)
    with [[VStr "Metro Fuel"; VDate (Date 2024 5 2)];
          [VStr "Coastal"; VDate (Date 2024 5 1)];
          [VStr "Harbour"; VDate (Date 2024 4 30)]].
  intros r1 r2 Hr1 Hr2.
  repeat (apply elem_of_cons in Hr1 as [-> | Hr1]);
    try (now apply elem_of_nil in Hr1);
    repeat (apply elem_of_cons in Hr2 as [-> | Hr2]);
    try (now apply elem_of_nil in Hr2);
    try reflexivity;
    intros [E | E] [E' | E']; vm_compute in E, E'; discriminate.
Defined.

Lemma StronglySorted_lookup {A} (R : A -> A -> Prop) (l : list A) i j x y :
  StronglySorted R l -> i < j -> l !! i = Some x -> l !! j = Some y -> R x y.
Proof.
  intros Hs. revert i j. induction Hs as [|a l Hs IH Hall]; intros i j Hij Hi Hj.
  - now rewrite lookup_nil in Hi.
  - destruct j as [|j]; [lia|]. simpl in Hj. destruct i as [|i].
    + simpl in Hi. injection Hi as ->. rewrite Forall_forall in Hall.
      apply Hall. eapply list_elem_of_lookup_2, Hj.
    + simpl in Hi. apply (IH i j); [lia|assumption..].
Qed.

Lemma filter_Forall {A} (P : A -> Prop) `{forall x, Decision (P x)}
    (l : list A) :
  Forall P l -> filter P l = l.
Proof.
  induction 1 as [|x l Hx _ IH]; [reflexivity|].
  now rewrite filter_cons_True, IH.
Qed.

Lemma filter_none {A} (P : A -> Prop) `{forall x, Decision (P x)} (l : list A) :
  Forall (fun x => ~ P x) l -> filter P l = [].
Proof.
  induction 1 as [|x l Hx _ IH]; [reflexivity|].
  now rewrite filter_cons_False, IH.
Qed.

(** The order [sort_values] leaves: the rows with a key before the rows
    without one, the former in ascending order of the key, the latter in
    the order they had. *)
Lemma sort_values_order c df out :
  sort_values c df out ->
  (forall i j ri rj,
     i < j -> rows out !! i = Some ri -> rows out !! j = Some rj ->
     (isna (row_get df c ri) = true -> isna (row_get df c rj) = true)
     /\ (isna (row_get df c rj) = false ->
         key_le (row_get df c ri) (row_get df c rj)))
  /\ filter (lacks_key df c) (rows out) = filter (lacks_key df c) (rows df).
Proof.
  intros [sorted Hp Hs]. simpl.
  assert (Hkey : Forall (has_key df c) sorted).
  { apply Forall_forall. intros r Hr. rewrite Hp in Hr.
    now apply list_elem_of_filter in Hr as [Hr _]. }
  assert (Hnokey : Forall (lacks_key df c) (filter (lacks_key df c) (rows df))).
  { apply Forall_forall. intros r Hr.
    now apply list_elem_of_filter in Hr as [Hr _]. }
  rewrite Forall_forall in Hkey, Hnokey. split.
  - intros i j ri rj Hij Hi Hj.
    destruct (decide (j < length sorted)) as [Hjs|Hjs].
    + rewrite lookup_app_l in Hi, Hj by lia.
      split.
      * intros Hna. assert (Hk : has_key df c ri)
          by (apply Hkey; eapply list_elem_of_lookup_2, Hi).
        unfold has_key in Hk. congruence.
      * intros _. exact (StronglySorted_lookup _ _ _ _ _ _ Hs Hij Hi Hj).
    + rewrite (lookup_app_r sorted) in Hj by lia.
      assert (Hl : lacks_key df c rj)
        by (apply Hnokey; eapply list_elem_of_lookup_2, Hj).
      unfold lacks_key in Hl. split; [intros _; exact Hl|congruence].
  - rewrite filter_app. rewrite (filter_none _ sorted).
    + simpl. apply filter_Forall. apply Forall_forall. exact Hnokey.
    + apply Forall_forall. intros r Hr Hl. specialize (Hkey r Hr).
      unfold has_key, lacks_key in *. congruence.
Qed.

(** C8, amended.  For tables whose merge converts no integer to a float:
    the merged table has the union of the tables' columns, each once, in
    the order of their first appearance; each column of the row-wise
    concatenation is the sequence of the tables' columns of that name, with
    missing values for the rows of a table that lacks the column; the
    merged table has the rows of the concatenation, each once, so that
    their number is the sum of the inputs' row counts less the number of
    duplicates removed, and for two tables without duplicates of their own,
    the sum less the number of rows of the second that occur in the first.
    Without a PriceUpdatedDate column the rows are in first-seen order.
    With one, the rows that have a date come first in ascending order of
    the date and the rows without a date follow in first-seen order; the
    order among rows with equal dates is not fixed. *)
Theorem combine_spec (dfs : list DataFrame) (out : DataFrame) :
  keeps_integers dfs ->
  combine dfs out ->
  let merged := concat dfs in
  let deduped := (remove_duplicates merged).1 in
  let key := row_get out "PriceUpdatedDate" in
  columns out = union_columns dfs
  /\ NoDup (columns out)
  /\ (forall c, c ∈ columns out <-> exists df, df ∈ dfs /\ c ∈ columns df)
  /\ (forall c, get_col merged c = dfs ≫= (fun df => get_col df c))
  /\ NoDup (rows out)
  /\ (forall r, r ∈ rows out <-> r ∈ rows merged)
  /\ nrows out + (remove_duplicates merged).2 = sum_list (nrows <$> dfs)
  /\ (forall A B, dfs = [A; B] ->
        NoDup (reindex (union_columns dfs) A) ->
        NoDup (reindex (union_columns dfs) B) ->
        nrows out
        = nrows A + nrows B
          - length (filter (fun r => r ∈ reindex (union_columns dfs) A)
                      (reindex (union_columns dfs) B)))
  /\ (has_col "PriceUpdatedDate" out = false -> out = deduped)
  /\ (has_col "PriceUpdatedDate" out = true ->
      (forall i j ri rj,
         i < j -> rows out !! i = Some ri -> rows out !! j = Some rj ->
         (isna (key ri) = true -> isna (key rj) = true)
         /\ (isna (key rj) = false -> key_le (key ri) (key rj)))
      /\ filter (fun r => isna (key r) = true) (rows out)
         = filter (fun r => isna (key r) = true) (rows deduped)).
Proof.
  intros _ Hc merged deduped key.
  destruct (combine_rows dfs out Hc) as [Hcols Hperm].
  assert (Hn : nrows out = length (first_occurrences [] (rows merged))).
  { unfold nrows. now rewrite Hperm. }
  assert (Hkey : forall r, row_get deduped "PriceUpdatedDate" r = key r).
  { intros r. unfold key. apply row_get_columns. now rewrite Hcols. }
  assert (Hhas : has_col "PriceUpdatedDate" deduped
                 = has_col "PriceUpdatedDate" out).
  { symmetry. apply has_col_columns. now rewrite Hcols. }
  split; [exact Hcols|].
  split; [rewrite Hcols; apply first_occurrences_NoDup|].
  split; [intros c; rewrite Hcols; apply union_columns_elem|].
  split; [apply concat_get_col|].
  split; [rewrite Hperm; apply first_occurrences_NoDup|].
  split.
  { intros r. rewrite Hperm. simpl. rewrite first_occurrences_elem.
    split; [tauto|]. intros Hr. split; [exact Hr|]. intros H. inversion H. }
  split.
  { rewrite <- concat_nrows. fold merged. rewrite Hn.
    unfold remove_duplicates, drop_duplicates, nrows. simpl.
    pose proof (first_occurrences_length [] (rows merged)) as Hle.
    unfold merged, concat in Hle. simpl in Hle. lia. }
  split.
  { intros A B -> HA HB. rewrite Hn.
    change (rows merged) with ([A; B] ≫= reindex (union_columns [A; B])).
    rewrite bind_cons, bind_singleton.
    rewrite first_occurrences_two by assumption.
    unfold nrows, reindex. now rewrite !length_fmap. }
  split.
  { intros Hno. destruct Hc as [out' combined_df Hcol Hsort|combined_df Hcol];
      [|reflexivity].
    change (has_col "PriceUpdatedDate" deduped = true) in Hcol. congruence. }
  intros Hyes.
  destruct Hc as [out' combined_df Hcol Hsort|combined_df Hcol].
  - destruct (sort_values_order _ _ _ Hsort) as [Hord Hrest].
    fold merged in Hord, Hrest. fold deduped in Hord, Hrest. split.
    + intros i j ri rj Hij Hi Hj. rewrite <- !Hkey. now apply (Hord i j).
    + unfold lacks_key in Hrest.
      erewrite (filter_ext_elem _ (fun r => isna (row_get deduped
                                    "PriceUpdatedDate" r) = true) (rows out'));
        [|intros r _; now rewrite Hkey].
      erewrite (filter_ext_elem (fun r => isna (key r) = true)
                  (fun r => isna (row_get deduped "PriceUpdatedDate" r) = true)
                  (rows deduped)); [|intros r _; now rewrite Hkey].
      exact Hrest.
  - change (has_col "PriceUpdatedDate" deduped = false) in Hcol. congruence.
Qed.

Lemma combine_spec_witness :
  exists out,
    combine [table_a; table_b] out
    /\ nrows out = 2 + 2 - 1
    /\ rows out
       = [[VStr "Harbour"; VDate (Date 2024 4 30)];
          [VStr "Coastal"; VDate (Date 2024 5 1)];
          [VStr "Metro Fuel"; VDate (Date 2024 5 2)]].
Proof.
  assert (H : combine [table_a; table_b]
                (stable_sort_values "PriceUpdatedDate"
                   (remove_duplicates (concat [table_a; table_b])).1)).
  { apply combine_sorted; [reflexivity|]. apply sort_values_exists.
    vm_compute. repeat constructor. }
  eexists. split; [exact H|]. split; [|reflexivity].
  assert (Hk : keeps_integers [table_a; table_b]) by (vm_compute; reflexivity).
  destruct (combine_spec _ _ Hk H)
    as (_ & _ & _ & _ & _ & _ & _ & Htwo & _).
  rewrite (Htwo table_a table_b eq_refl).
  - reflexivity.
  - refine (bool_decide_unpack _ _). vm_compute. exact I.
  - refine (bool_decide_unpack _ _). vm_compute. exact I.
Defined.

(** ** Saving *)

Lemma check_invalid_values_frame f df :
  (forall col, length (f col) = length col) ->
  wf df ->
  same_except ["Price"] df (check_invalid_values f df).1
  /\ columns (check_invalid_values f df).1 = columns df
  /\ (has_col "Price" df = true ->
      get_col (check_invalid_values f df).1 "Price" = f (get_col df "Price")).
Proof.
  intros Hlen Hwf. rewrite check_invalid_values_table.
  destruct (has_col "Price" df) eqn:Hcol.
  - assert (Hl : length (f (get_col df "Price")) = nrows df)
      by now rewrite Hlen, get_col_length.
    split; [apply same_except_set_col; [assumption..|now left]|].
    split; [now rewrite set_col_columns, Hcol|].
    intros _. now apply set_col_same.
  - split; [now apply same_except_refl|]. split; [reflexivity|discriminate].
Qed.

Lemma same_except_weaken cs cs' df df' :
  (forall c, c ∈ cs -> c ∈ cs') -> same_except cs df df' ->
  same_except cs' df df'.
Proof.
  intros Hsub (Hwf & Hn & Hc). repeat split; [assumption..|].
  intros c Hc'. apply Hc. intros H. apply Hc', Hsub, H.
Qed.

Lemma save_to_csv_table (to_numeric : list value -> list value)
    (dfs : list DataFrame) (written : option DataFrame) :
  (forall col, length (to_numeric col) = length col) ->
  save_to_csv to_numeric dfs written ->
  (dfs = [] <-> written = None)
  /\ forall out, written = Some out ->
       exists sorted,
         combine dfs sorted
         /\ same_except ["Price"; "Postcode"] sorted out
         /\ columns out = union_columns dfs
         /\ nrows out + (remove_duplicates (concat dfs)).2
            = sum_list (nrows <$> dfs)
         /\ (has_col "Price" sorted = true ->
             get_col out "Price" = to_numeric (get_col sorted "Price"))
         /\ (has_col "Postcode" sorted = true ->
             exists strs,
               traverse py_str (get_col sorted "Postcode") = Ok strs
               /\ get_col out "Postcode" = audited_postcode <$> strs).
Proof.
  intros Hlen [|dfs' sorted df' report Hne Hcomb Haudit].
  - split; [tauto|]. intros out H. discriminate H.
  - split; [split; [contradiction|discriminate]|].
    intros out [= <-]. exists sorted. split; [exact Hcomb|].
    pose proof (combine_wf _ _ Hcomb) as Hwf.
    destruct (combine_rows _ _ Hcomb) as [Hcols Hperm].
    cbn [fst check_missing_values] in Haudit.
    set (priced := (check_invalid_values to_numeric sorted).1) in *.
    destruct (check_invalid_values_frame to_numeric sorted Hlen Hwf)
      as (F1 & C1 & P1). fold priced in F1, C1, P1.
    assert (Hwf1 : wf priced) by apply F1.
    assert (Hrows : nrows sorted + (remove_duplicates (concat dfs')).2
                    = sum_list (nrows <$> dfs')).
    { rewrite <- concat_nrows. unfold nrows at 1. rewrite Hperm.
      unfold remove_duplicates, drop_duplicates, nrows. cbn [fst snd rows].
      pose proof (first_occurrences_length [] (rows (concat dfs'))). lia. }
    destruct (has_col "Postcode" sorted) eqn:Hpc.
    + assert (Hpc1 : has_col "Postcode" priced = true)
        by (rewrite (has_col_columns _ sorted priced); assumption).
      assert (Hcol1 : get_col priced "Postcode" = get_col sorted "Postcode").
      { apply F1. intros H. apply list_elem_of_singleton in H. discriminate H. }
      destruct (traverse py_str (get_col priced "Postcode")) as [strs|e] eqn:E.
      * destruct (check_invalidate_postcodes_table priced strs Hwf1 Hpc1 E)
          as (df2 & Hrun & Hc2 & F2 & C2).
        rewrite Hrun in Haudit. inversion Haudit; subst df2; clear Haudit.
        assert (F : same_except ["Price"; "Postcode"] sorted df').
        { eapply same_except_trans.
          - eapply same_except_weaken; [|exact F1].
            intros c ->%list_elem_of_singleton. left.
          - eapply same_except_weaken; [|exact F2].
            intros c ->%list_elem_of_singleton. right. left. }
        split; [exact F|]. split; [now rewrite C2, C1|].
        split; [destruct F as (_ & -> & _); exact Hrows|].
        split.
        -- intros Hprice. rewrite <- (P1 Hprice).
           apply F2. intros H. apply list_elem_of_singleton in H.
           discriminate H.
        -- intros _. exists strs.
           rewrite <- Hcol1. split; [exact E|exact Hc2].
      * unfold check_invalidate_postcodes in Haudit.
        rewrite Hpc1, E in Haudit. discriminate Haudit.
    + assert (Hpc1 : has_col "Postcode" priced = false)
        by (rewrite (has_col_columns _ sorted priced); assumption).
      unfold check_invalidate_postcodes in Haudit. rewrite Hpc1 in Haudit.
      inversion Haudit; subst df'; clear Haudit.
      split; [eapply same_except_weaken; [|exact F1];
              intros c ->%list_elem_of_singleton; left|].
      split; [now rewrite C1|].
      split; [destruct F1 as (_ & -> & _); exact Hrows|].
      split; [exact P1|discriminate].
Qed.

(** X17.  What [save_to_csv] hands to the writer, for tables that can be
    saved together.  Nothing is written exactly when the list of tables is
    empty.  Otherwise the written table is the merged, deduplicated and
    sorted table after the audits: it has the columns of all the tables,
    as many rows as the tables have together less the duplicates removed,
    and it differs from the sorted table only in the Price column, which
    is its numeric coercion, and the Postcode column, converted by the
    postcode audit. *)
Theorem save_to_csv_spec (to_numeric : list value -> list value)
    (dfs : list DataFrame) (written : option DataFrame) :
  (forall col, length (to_numeric col) = length col) ->
  mergeable dfs ->
  save_to_csv to_numeric dfs written ->
  (dfs = [] <-> written = None)
  /\ forall out, written = Some out ->
       exists sorted,
         combine dfs sorted
         /\ same_except ["Price"; "Postcode"] sorted out
         /\ columns out = union_columns dfs
         /\ nrows out + (remove_duplicates (concat dfs)).2
            = sum_list (nrows <$> dfs)
         /\ (has_col "Price" sorted = true ->
             get_col out "Price" = to_numeric (get_col sorted "Price"))
         /\ (has_col "Postcode" sorted = true ->
             exists strs,
               traverse py_str (get_col sorted "Postcode") = Ok strs
               /\ get_col out "Postcode" = audited_postcode <$> strs).
Proof. intros Hlen _. now apply save_to_csv_table. Qed.

Lemma save_to_csv_spec_witness :
  exists out,
    save_to_csv plain_to_numeric [prices_table] (Some out)
    /\ columns out = ["Postcode"; "Price"; "PriceUpdatedDate"]
    /\ nrows out = 2
    /\ get_col out "Postcode" = [VInt 800; VInt 2000].
Proof.
  assert (Hc : combine [prices_table]
                 (stable_sort_values "PriceUpdatedDate"
                    (remove_duplicates (concat [prices_table])).1)).
  { apply combine_sorted; [reflexivity|]. apply sort_values_exists.
    vm_compute. repeat constructor. }
  assert (H : save_to_csv plain_to_numeric [prices_table]
                (Some (mkDF ["Postcode"; "Price"; "PriceUpdatedDate"]
                         [[VInt 800; VNull; VDate (Date 2024 5 1)];
                          [VInt 2000; VFloat (Q2Qc (1599 # 10));
                           VDate (Date 2024 5 2)]]))).
  { eapply save_written; [discriminate|exact Hc|]. vm_compute. reflexivity. }
  eexists. split; [exact H|].
  assert (Hm : mergeable [prices_table])
    by (split; [vm_compute; reflexivity|repeat constructor]).
  destruct (save_to_csv_spec _ _ _ plain_to_numeric_length Hm H) as [_ Hout].
  destruct (Hout _ eq_refl) as (sorted & _ & _ & Hcols & Hrows & _).
  split; [exact Hcols|]. split; [|reflexivity].
  simpl in Hrows. exact Hrows.
Defined.

(** ** The cleaning of one table *)

Lemma get_col_absent df c :
  has_col c df = false -> Forall (fun v => v = VNull) (get_col df c).
Proof.
  intros H%has_col_false. unfold get_col, row_get. rewrite H.
  apply Forall_fmap, Forall_forall. reflexivity.
Qed.

Lemma date_cells_cleaned f df dated :
  (forall col ts, f col = Ok ts -> length ts = length col) ->
  wf df -> clean_datetime_fields f df DATE_FIELDS = Ok dated ->
  Forall date_or_null (get_col dated "PriceUpdatedDate").
Proof.
  intros Hlen Hwf Hrun. destruct (has_col "PriceUpdatedDate" df) eqn:Hcol.
  - apply (clean_datetime_fields_dates f Hlen df DATE_FIELDS); auto.
    left. left.
  - eapply Forall_impl; [apply get_col_absent|].
    + erewrite has_col_columns; [exact Hcol|].
      now apply (clean_datetime_fields_frame f Hlen df DATE_FIELDS).
    + intros v ->. exact I.
Qed.

Lemma drop_duplicates_get_col (P : value -> Prop) df c :
  Forall P (get_col df c) -> Forall P (get_col (drop_duplicates df) c).
Proof.
  unfold get_col. rewrite !Forall_fmap, !Forall_forall. intros H r Hr.
  simpl in Hr. apply first_occurrences_elem in Hr as [Hr _].
  exact (H r Hr).
Qed.

Lemma process_table_frame f df df' :
  (forall col ts, f col = Ok ts -> length ts = length col) ->
  wf df -> process_table f df = Ok df' ->
  exists dated,
    clean_datetime_fields f df DATE_FIELDS = Ok dated
    /\ let deduped := (remove_duplicates dated).1 in
       wf df'
       /\ nrows df' = nrows deduped /\ nrows df' <= nrows df
       /\ columns df'
          = (if has_col "Address" df && has_col "Postcode" df
                && has_col "Suburb" df && negb (has_col "State" df)
             then columns df ++ ["State"] else columns df)
       /\ (forall c, c ∉ ["Suburb"; "Address"; "State"] ->
             get_col df' c = get_col deduped c)
       /\ Forall date_or_null (get_col df' "PriceUpdatedDate")
       /\ (has_col "Address" df && has_col "Postcode" df
           && has_col "Suburb" df = true -> rows df' <> []).
Proof.
  intros Hlen Hwf Hrun. unfold process_table in Hrun.
  destruct (clean_datetime_fields f df DATE_FIELDS) as [dated|] eqn:Ed;
    [|discriminate Hrun].
  cbn [bind] in Hrun. exists dated. split; [reflexivity|]. intros deduped.
  fold deduped in Hrun.
  destruct (clean_datetime_fields_frame f Hlen df DATE_FIELDS dated Hwf Ed)
    as ((Hwf0 & Hn0 & _) & Hc0).
  assert (Hcd : columns deduped = columns df) by exact Hc0.
  assert (Hwfd : wf deduped) by now apply drop_duplicates_wf.
  assert (Hnd : nrows deduped <= nrows df).
  { rewrite <- Hn0. apply first_occurrences_length. }
  assert (Hkd : Forall date_or_null (get_col deduped "PriceUpdatedDate"))
    by (apply drop_duplicates_get_col;
        exact (date_cells_cleaned f df dated Hlen Hwf Ed)).
  destruct (standardize_suburb_names deduped) as [d1|] eqn:E1;
    [|discriminate Hrun].
  cbn [bind] in Hrun.
  destruct (standardize_suburb_names_frame _ _ Hwfd E1) as [F1 C1].
  assert (Hwf1 : wf d1) by apply F1.
  destruct (standardize_address_state d1) as [d2|] eqn:E2;
    [|discriminate Hrun].
  cbn [bind] in Hrun.
  destruct (standardize_address_state_frame d1 d2 Hwf1 E2) as [F2 C2].
  assert (Hwf2 : wf d2) by apply F2.
  assert (Hc2 : columns d2 = columns df) by now rewrite C2, C1.
  assert (F12 : same_except ["Suburb"; "Address"; "State"] deduped d2).
  { eapply same_except_trans.
    - eapply same_except_weaken; [|exact F1].
      intros c ->%list_elem_of_singleton. left.
    - eapply same_except_weaken; [|exact F2].
      intros c ->%list_elem_of_singleton. right. left. }
  assert (Hh : forall c, has_col c d2 = has_col c df)
    by (intros c; now apply has_col_columns).
  assert (Hfin : same_except ["Suburb"; "Address"; "State"] deduped df'
                 /\ columns df'
                    = (if has_col "Address" df && has_col "Postcode" df
                          && has_col "Suburb" df && negb (has_col "State" df)
                       then columns df ++ ["State"] else columns df)
                 /\ (has_col "Address" df && has_col "Postcode" df
                     && has_col "Suburb" df = true -> rows df' <> [])).
  { destruct (has_col "Address" d2 && has_col "Postcode" d2
              && has_col "Suburb" d2) eqn:H3.
    - pose proof (clean_address_rows d2 df' H3 Hrun) as Hrows2.
      pose proof (clean_address_columns d2 Hwf2 H3 Hrows2) as H.
      rewrite Hrun in H. destruct H as (a & st & _ & _ & _ & F3 & C3).
      split; [|split].
      + eapply same_except_trans; [exact F12|].
        eapply same_except_weaken; [|exact F3].
        intros c [-> | ->%list_elem_of_singleton]%elem_of_cons;
          [right; left|right; right; left].
      + rewrite C3, !Hh in *. rewrite H3, Hc2.
        now destruct (has_col "State" df).
      + intros _. apply (nrows_not_nil d2); [apply F3|exact Hrows2].
    - rewrite clean_address_absent in Hrun by exact H3.
      inversion Hrun; subst df'. split; [exact F12|].
      rewrite !Hh in H3. rewrite H3, Hc2. split; [reflexivity|discriminate]. }
  destruct Hfin as ((Hwf' & Hn' & Hcols') & Hcolumns & Hrows').
  split; [exact Hwf'|]. split; [exact Hn'|]. split; [lia|].
  split; [exact Hcolumns|]. split; [exact Hcols'|].
  split; [|exact Hrows'].
  rewrite Hcols'; [exact Hkd|].
  intros H. repeat (apply elem_of_cons in H as [H | H]; [discriminate H|]).
  inversion H.
Qed.

(** X12.  The cleaning of one table (the body of the loop of the main
    block), for a table holding ASCII text.  When it returns, the date
    cleaning has returned, and the table has the rows that are left after
    date cleaning and the removal of duplicates, never more than before;
    its columns are those it had, with State appended when the table has
    the Address, Postcode and Suburb columns and no State column; every
    column other than Suburb, Address and State is as the removal of
    duplicates left it; the PriceUpdatedDate cells are dates or missing;
    and a table with the Address, Postcode and Suburb columns has a row:
    for such a table without rows the cleaning raises. *)
Theorem process_table_spec
    (to_datetime : list value -> result (list (option datetime)))
    (df df' : DataFrame) :
  (forall col ts, to_datetime col = Ok ts -> length ts = length col) ->
  wf df -> ascii_addresses df ->
  process_table to_datetime df = Ok df' ->
  exists dated,
    clean_datetime_fields to_datetime df DATE_FIELDS = Ok dated
    /\ let deduped := (remove_duplicates dated).1 in
       wf df'
       /\ nrows df' = nrows deduped /\ nrows df' <= nrows df
       /\ columns df'
          = (if has_col "Address" df && has_col "Postcode" df
                && has_col "Suburb" df && negb (has_col "State" df)
             then columns df ++ ["State"] else columns df)
       /\ (forall c, c ∉ ["Suburb"; "Address"; "State"] ->
             get_col df' c = get_col deduped c)
       /\ Forall date_or_null (get_col df' "PriceUpdatedDate")
       /\ (has_col "Address" df && has_col "Postcode" df
           && has_col "Suburb" df = true -> rows df' <> []).
Proof. intros Hlen Hwf _. now apply process_table_frame. Qed.

Lemma process_table_spec_witness :
  exists df',
    process_table plain_to_datetime stations_table = Ok df'
    /\ nrows df' = 2
    /\ columns df' = columns stations_table ++ ["State"]
    /\ get_col df' "PriceUpdatedDate" = [VDate (Date 2024 5 1); VNull].
Proof.
  assert (H : process_table plain_to_datetime stations_table
              = Ok (mkDF ["ServiceStationName"; "Address"; "Suburb";
                          "Postcode"; "PriceUpdatedDate"; "State"]
                      [[VStr "Metro Fuel"; VStr "12 Main St"; VStr "Sydney";
                        VInt 2000; VDate (Date 2024 5 1); VStr "NSW"];
                       [VStr "Coastal"; VStr "1 High Street"; VStr "Glebe";
                        VInt 2037; VNull; VStr "NSW"]]))
    by (vm_compute; reflexivity).
  eexists. split; [exact H|].
  destruct (process_table_spec plain_to_datetime stations_table _
              plain_to_datetime_length
              ltac:(repeat constructor)
              ltac:(repeat split; repeat constructor) H)
    as (dated & _ & _ & _ & _ & Hc & _).
  split; [reflexivity|]. split; [exact Hc|reflexivity].
Defined.

(** ** The whole run *)

Lemma traverse_Raise {A B} (f : A -> result B) xs e :
  traverse f xs = Raise e ->
  exists before x after,
    xs = before ++ x :: after /\ f x = Raise e
    /\ exists ys, traverse f before = Ok ys.
Proof.
  induction xs as [|x xs IH]; simpl; intros H; [discriminate H|].
  destruct (f x) as [y|e'] eqn:E; cbn [bind] in H.
  - destruct (traverse f xs) as [ys|e''] eqn:E'; cbn [bind] in H;
      [discriminate H|].
    inversion H; subst e''.
    destruct (IH eq_refl) as (before & x' & after & -> & Hx & ys & Hys).
    exists (x :: before), x', after. split; [reflexivity|].
    split; [exact Hx|]. exists (y :: ys). simpl. now rewrite E, Hys.
  - inversion H; subst e'. exists [], x, xs. split; [reflexivity|].
    split; [exact E|]. now exists [].
Qed.

(** The first element on which [f] raises ends the traversal. *)
Lemma traverse_app_Raise {A B} (f : A -> result B) before x after ys e :
  traverse f before = Ok ys -> f x = Raise e ->
  traverse f (before ++ x :: after) = Raise e.
Proof.
  revert ys. induction before as [|b before IH]; intros ys; simpl.
  - intros _ ->. reflexivity.
  - destruct (f b) as [y|]; [|discriminate]. cbn [bind].
    destruct (traverse f before) as [ys'|] eqn:E; [|discriminate].
    intros _ Hx. now rewrite (IH ys' eq_refl Hx).
Qed.

Lemma traverse_Forall2 {A B} (f : A -> result B) xs ys :
  traverse f xs = Ok ys -> Forall2 (fun x y => f x = Ok y) xs ys.
Proof.
  revert ys. induction xs as [|x xs IH]; intros ys H; simpl in H.
  - inversion H. constructor.
  - destruct (f x) as [y|] eqn:E; [|discriminate H]. cbn [bind] in H.
    destruct (traverse f xs) as [ys'|]; [|discriminate H]. cbn [bind] in H.
    inversion H; subst. constructor; [exact E|]. now apply IH.
Qed.

Lemma cleaned_tables_facts f all_data cleaned :
  (forall col ts, f col = Ok ts -> length ts = length col) ->
  Forall wf all_data ->
  traverse (process_table f) all_data = Ok cleaned ->
  sum_list (nrows <$> cleaned) <= sum_list (nrows <$> all_data)
  /\ Forall (fun df => Forall date_or_null (get_col df "PriceUpdatedDate"))
       cleaned.
Proof.
  intros Hlen Hwf H%traverse_Forall2.
  induction H as [|df df' l l' Hdf _ IH]; [split; [reflexivity|constructor]|].
  apply Forall_cons in Hwf as [Hwf1 Hwf].
  destruct (IH Hwf) as [IH1 IH2].
  destruct (process_table_frame f df df' Hlen Hwf1 Hdf)
    as (dated & _ & _ & _ & Hn & _ & _ & Hk & _).
  split; [rewrite !fmap_cons; simpl; lia|]. now constructor.
Qed.

Lemma cleaned_tables_combine f all_data cleaned :
  (forall col ts, f col = Ok ts -> length ts = length col) ->
  Forall wf all_data ->
  traverse (process_table f) all_data = Ok cleaned ->
  exists out, combine cleaned out.
Proof.
  intros Hlen Hwf H.
  destruct (cleaned_tables_facts f _ _ Hlen Hwf H) as [_ Hk].
  apply combine_exists. cbv zeta.
  set (merged := concat cleaned).
  assert (Hm : Forall date_or_null (get_col merged "PriceUpdatedDate")).
  { unfold merged. rewrite concat_get_col. apply Forall_bind.
    eapply Forall_impl; [exact Hk|]. auto. }
  apply (drop_duplicates_get_col _ _ _) in Hm.
  unfold get_col in Hm. rewrite Forall_fmap in Hm. exact Hm.
Qed.

Lemma combine_date_cells cleaned out :
  Forall (fun df => Forall date_or_null (get_col df "PriceUpdatedDate"))
    cleaned ->
  combine cleaned out ->
  Forall date_or_null (get_col out "PriceUpdatedDate").
Proof.
  intros Hk Hc. destruct (combine_rows _ _ Hc) as [Hcols Hperm].
  set (merged := concat cleaned) in *.
  assert (Hm : Forall date_or_null (get_col merged "PriceUpdatedDate")).
  { unfold merged. rewrite concat_get_col. apply Forall_bind.
    eapply Forall_impl; [exact Hk|]. auto. }
  apply (drop_duplicates_get_col _ _ _) in Hm.
  unfold get_col in *. rewrite Forall_fmap, Forall_forall in *.
  intros r Hr. rewrite Hperm in Hr. simpl.
  rewrite (row_get_columns (drop_duplicates merged)) by exact Hcols.
  exact (Hm r Hr).
Qed.

(** X19.  The tables the loop of the main block returns can always be
    merged and sorted: their PriceUpdatedDate cells are dates or missing,
    so the comparison of two keys never fails; and together they have no
    more rows than the downloaded tables.  (Stated for tables holding ASCII
    text and cleaned tables that can be saved together.) *)
Theorem cleaned_tables_sortable
    (to_datetime : list value -> result (list (option datetime)))
    (all_data cleaned : list DataFrame) :
  (forall col ts, to_datetime col = Ok ts -> length ts = length col) ->
  Forall wf all_data -> Forall ascii_addresses all_data ->
  traverse (process_table to_datetime) all_data = Ok cleaned ->
  mergeable cleaned ->
  (exists out, combine cleaned out)
  /\ sum_list (nrows <$> cleaned) <= sum_list (nrows <$> all_data)
  /\ forall out, combine cleaned out ->
       Forall date_or_null (get_col out "PriceUpdatedDate").
Proof.
  intros Hlen Hwf _ H _. split; [eapply cleaned_tables_combine; eassumption|].
  destruct (cleaned_tables_facts _ _ _ Hlen Hwf H) as [Hn Hk].
  split; [exact Hn|].
  intros out Hc. eapply combine_date_cells; eassumption.
Qed.

Lemma cleaned_tables_sortable_witness :
  exists cleaned,
    traverse (process_table plain_to_datetime)
      [stations_table; more_stations_table]
    = Ok cleaned
    /\ (exists out, combine cleaned out)
    /\ sum_list (nrows <$> cleaned) <= 3.
Proof.
  destruct (traverse (process_table plain_to_datetime)
              [stations_table; more_stations_table]) as [cleaned|] eqn:E;
    [|vm_compute in E; discriminate E].
  exists cleaned. split; [reflexivity|].
  assert (Hm : mergeable cleaned).
  { vm_compute in E. injection E as <-.
    split; [vm_compute; reflexivity|repeat constructor]. }
  destruct (cleaned_tables_sortable plain_to_datetime
              [stations_table; more_stations_table] cleaned
              plain_to_datetime_length
              ltac:(repeat constructor)
              ltac:(repeat constructor) E Hm) as (H1 & H2 & _).
  split; [exact H1|exact H2].
Defined.

(** X20.  The main block, for downloaded tables holding ASCII text whose
    cleaned tables can be saved together.  Nothing is saved exactly when
    no table was downloaded or the cleaning of a table raised.  A table
    whose cleaning raises ends the run with its exception, whatever the
    tables before it were and whatever follows: the exception of the run
    is the one of the first table whose cleaning fails, and the tables
    before it were cleaned in vain.  A table is saved only when every
    table was cleaned; it is the one [save_to_csv] makes of the cleaned
    tables, it has no more rows than the downloaded tables have together
    and its PriceUpdatedDate cells are dates or missing. *)
Theorem main_block_spec
    (to_datetime : list value -> result (list (option datetime)))
    (to_numeric : list value -> list value)
    (all_data : list DataFrame) (outcome : result (option DataFrame)) :
  (forall col ts, to_datetime col = Ok ts -> length ts = length col) ->
  (forall col, length (to_numeric col) = length col) ->
  Forall wf all_data -> Forall ascii_addresses all_data ->
  (forall cleaned,
     traverse (process_table to_datetime) all_data = Ok cleaned ->
     mergeable cleaned) ->
  main_block to_datetime to_numeric all_data outcome ->
  (all_data = [] <-> outcome = Ok None)
  /\ (forall before df after cleaned e,
        all_data = before ++ df :: after ->
        traverse (process_table to_datetime) before = Ok cleaned ->
        process_table to_datetime df = Raise e ->
        outcome = Raise e)
  /\ (forall e, outcome = Raise e ->
        e <> Unmodelled
        /\ exists before df after,
             all_data = before ++ df :: after
             /\ process_table to_datetime df = Raise e
             /\ exists cleaned,
                  traverse (process_table to_datetime) before = Ok cleaned)
  /\ (forall out, outcome = Ok (Some out) ->
        exists cleaned,
          traverse (process_table to_datetime) all_data = Ok cleaned
          /\ save_to_csv to_numeric cleaned (Some out)
          /\ nrows out <= sum_list (nrows <$> all_data)
          /\ Forall date_or_null (get_col out "PriceUpdatedDate")).
Proof.
  intros Hlen Hlen' Hwf _ _ H.
  inversion H as [|all e Hne Hrun He|all cleaned written Hne Hrun Hsave]; subst.
  - split; [tauto|]. split.
    { intros before df after cleaned e Hall. now destruct before. }
    split; [intros e H'|intros out H']; discriminate H'.
  - split; [split; [contradiction|discriminate]|].
    split.
    { intros before df after cleaned e' -> Hb Hdf.
      rewrite (traverse_app_Raise _ _ _ _ _ _ Hb Hdf) in Hrun.
      injection Hrun as ->. reflexivity. }
    split; [|intros out H'; discriminate H'].
    intros e' [= <-]. split; [exact He|]. now apply traverse_Raise.
  - destruct (cleaned_tables_facts _ _ _ Hlen Hwf Hrun) as [Hn Hk].
    destruct (save_to_csv_table _ _ _ Hlen' Hsave) as [Hnone Hout].
    assert (Hcl : cleaned <> []).
    { intros ->. destruct all_data as [|d all]; [contradiction|].
      simpl in Hrun.
      destruct (process_table to_datetime d); [|discriminate Hrun].
      cbn [bind] in Hrun.
      destruct (traverse (process_table to_datetime) all);
        discriminate Hrun. }
    split; [split; [contradiction|]|].
    { intros [= ->]. destruct Hcl. now apply Hnone. }
    split.
    { intros before df after cleaned' e' -> Hb Hdf.
      rewrite (traverse_app_Raise _ _ _ _ _ _ Hb Hdf) in Hrun.
      discriminate Hrun. }
    split; [intros e H'; discriminate H'|].
    intros out [= ->]. exists cleaned. split; [exact Hrun|].
    split; [exact Hsave|].
    destruct (Hout out eq_refl) as (sorted & Hc & F & _ & Hrows & _).
    split; [lia|].
    pose proof (combine_date_cells cleaned sorted Hk Hc) as Hs.
    destruct F as (_ & _ & Hsame). rewrite Hsame; [exact Hs|].
    intros H'. repeat (apply elem_of_cons in H' as [H' | H']; [discriminate H'|]).
    inversion H'.
Qed.

Lemma main_block_spec_witness :
  exists out,
    main_block plain_to_datetime plain_to_numeric [prices_table]
      (Ok (Some out))
    /\ nrows out <= 2
    /\ Forall date_or_null (get_col out "PriceUpdatedDate").
Proof.
  assert (Hc : combine [prices_table]
                 (stable_sort_values "PriceUpdatedDate"
                    (remove_duplicates (concat [prices_table])).1)).
  { apply combine_sorted; [reflexivity|]. apply sort_values_exists.
    vm_compute. repeat constructor. }
  assert (H : main_block plain_to_datetime plain_to_numeric [prices_table]
                (Ok (Some (mkDF ["Postcode"; "Price"; "PriceUpdatedDate"]
                             [[VInt 800; VNull; VDate (Date 2024 5 1)];
                              [VInt 2000; VFloat (Q2Qc (1599 # 10));
                               VDate (Date 2024 5 2)]])))).
  { eapply (main_saved _ _ _ [prices_table]); [discriminate|reflexivity|].
    eapply save_written; [discriminate|exact Hc|]. vm_compute. reflexivity. }
  eexists. split; [exact H|].
  assert (Hwf : Forall wf [prices_table]) by repeat constructor.
  assert (Hascii : Forall ascii_addresses [prices_table])
    by (repeat constructor).
  assert (Hm : forall cleaned,
            traverse (process_table plain_to_datetime) [prices_table]
            = Ok cleaned -> mergeable cleaned).
  { intros cleaned E. vm_compute in E. injection E as <-.
    split; [vm_compute; reflexivity|repeat constructor]. }
  destruct (main_block_spec plain_to_datetime plain_to_numeric [prices_table] _
              plain_to_datetime_length plain_to_numeric_length
              Hwf Hascii Hm H) as (_ & _ & _ & Hout).
  destruct (Hout _ eq_refl) as (cleaned & _ & _ & Hn & Hd).
  split; [exact Hn|exact Hd].
Defined.

(** ** The download *)

Lemma omap_id_cons {A} (o : option A) (l : list (option A)) :
  omap id (o :: l)
  = match o with
    | Some y => y :: omap id l
    | None => omap id l
    end.
Proof. reflexivity. Qed.

Lemma length_omap_id {A} (l : list (option A)) : length (omap id l) <= length l.
Proof.
  induction l as [|[y|] l IH]; rewrite ?omap_id_cons; simpl; lia.
Qed.

Lemma hrefs_before_gap_length links :
  length (hrefs_before_gap links) <= length links.
Proof.
  induction links as [|[u|] links IH]; simpl; lia.
Qed.

Section DownloadFacts.

Variable content : Type.
Variable get : nat -> string -> option content.
Variable read_csv read_excel : content -> option DataFrame.


Lemma scan_links_closed links all_data requested :
  let urls := filter wanted (hrefs_before_gap links) in
  scan_links content get read_csv read_excel links all_data requested
  = (all_data
       ++ omap id (imap (fun i => fetched_table content get read_csv read_excel (length requested + i)) urls),
     requested ++ urls).
Proof.
  revert all_data requested.
  induction links as [|[file_url|] links IH]; intros all_data requested;
    cbn [hrefs_before_gap scan_links].
  - cbn. now rewrite !app_nil_r.
  - destruct (decide (wanted file_url)) as [Hw | Hw].
    + rewrite filter_cons_True by exact Hw. unfold wanted in Hw. rewrite Hw.
      assert (Hi : forall acc,
                acc ++ omap id (imap (fun i => fetched_table content get read_csv read_excel (length (requested ++ [file_url]) + i))
                                  (filter wanted (hrefs_before_gap links)))
                = acc ++ omap id (imap ((fun i => fetched_table content get read_csv read_excel (length requested + i)) ∘ S)
                                    (filter wanted (hrefs_before_gap links)))).
      { intros acc. f_equal. f_equal. apply imap_ext. intros i x _. simpl.
        rewrite length_app. simpl. f_equal. lia. }
      rewrite imap_cons, omap_id_cons. unfold fetched_table at 1.
      rewrite Nat.add_0_r.
      destruct (get (length requested) file_url) as [c|]; cbn [mbind option_bind id].
      * destruct (read_file content read_csv read_excel (file_name_of file_url) c)
          as [df|]; rewrite IH, Hi, <- !app_assoc; reflexivity.
      * rewrite IH, Hi, <- !app_assoc; reflexivity.
    + rewrite filter_cons_False by exact Hw. unfold wanted in Hw.
      apply not_true_is_false in Hw. rewrite Hw. apply IH.
  - cbn. now rewrite !app_nil_r.
Qed.

(** X21.  What the download collects.  The files requested are the links
    whose file name (the part of the URL after its last slash, in lower
    case) contains 2024 or 2025, in the order of the page, up to the first
    link that has no href: there the scan stops and the tables collected so
    far are returned.  The tables returned are those of the requested
    files whose request succeeded, whose name ends in .csv or .xlsx and
    whose parser did not raise, in the same order.  A page that cannot be
    fetched gives no table and no request. *)
Theorem download_fuel_data_spec (links : list (option string)) :
  let urls := filter wanted (hrefs_before_gap links) in
  download_fuel_data content get read_csv read_excel (Some links)
  = (omap id (imap (fetched_table content get read_csv read_excel) urls), urls)
  /\ download_fuel_data content get read_csv read_excel None = ([], [])
  /\ length (download_fuel_data content get read_csv read_excel (Some links)).1
     <= length urls
  /\ length urls <= length links.
Proof.
  cbv zeta. unfold download_fuel_data. rewrite scan_links_closed. cbn [fst].
  split; [reflexivity|]. split; [reflexivity|]. split.
  - rewrite app_nil_l. etransitivity; [apply length_omap_id|].
    now rewrite length_imap.
  - etransitivity; [apply length_filter|apply hrefs_before_gap_length].
Qed.

End DownloadFacts.

Lemma starts_with_spec p s :
  starts_with p s = true <-> exists post, s = p ++ post.
Proof.
  revert s. induction p as [|c p IH]; intros s; simpl.
  - split; [eauto|reflexivity].
  - destruct s as [|d s].
    + split; [discriminate|]. intros [post H]. discriminate H.
    + rewrite andb_true_iff, Ascii.eqb_eq, IH. split.
      * intros [-> [post ->]]. eauto.
      * intros [post H]. inversion H. eauto.
Qed.

Lemma contains_spec sub s :
  contains sub s = true <-> exists pre post, s = pre ++ sub ++ post.
Proof.
  induction s as [|d s IH]; simpl; rewrite orb_true_iff, starts_with_spec.
  - split.
    + intros [[post H] | H]; [exists [], post; exact H|discriminate H].
    + intros (pre & post & H). left. destruct pre; [eauto|discriminate H].
  - rewrite IH. split.
    + intros [[post H] | (pre & post & H)].
      * exists [], post. exact H.
      * exists (d :: pre), post. simpl. now rewrite H.
    + intros (pre & post & H). destruct pre as [|x pre]; simpl in H.
      * left. eauto.
      * right. inversion H. eauto.
Qed.

Lemma ends_with_spec suffix s :
  ends_with suffix s = true <-> exists pre, s = pre ++ suffix.
Proof.
  unfold ends_with. rewrite starts_with_spec. split.
  - intros [post H]. exists (rev post).
    apply (f_equal (@rev ascii)) in H.
    now rewrite rev_involutive, rev_app_distr, rev_involutive in H.
  - intros [pre ->]. exists (rev pre). apply rev_app_distr.
Qed.

Lemma last_segment_foldl acc n :
  "/"%char ∉ n ->
  foldl (fun acc c => if Ascii.eqb c "/" then [] else acc ++ [c]) acc n
  = acc ++ n.
Proof.
  revert acc. induction n as [|c n IH]; intros acc Hn; simpl.
  - now rewrite app_nil_r.
  - apply not_elem_of_cons in Hn as [Hc Hn].
    destruct (Ascii.eqb_spec c "/") as [->|_]; [now destruct Hc|].
    rewrite IH by exact Hn. now rewrite <- app_assoc.
Qed.

Lemma last_segment_app d n :
  "/"%char ∉ n -> last_segment (d ++ "/"%char :: n) = n.
Proof.
  intros Hn. unfold last_segment. rewrite foldl_app. simpl.
  now rewrite last_segment_foldl.
Qed.

(** X22.  Which part of a URL decides.  Only what follows the last slash
    of the URL counts, in lower case: the file is wanted when this name
    contains 2024 or 2025 somewhere, and it is read as CSV or as a
    spreadsheet when this name ends in .csv or .xlsx, whatever the case of
    the letters in the URL; a year in a directory of the URL selects
    nothing. *)
Theorem file_name_of_spec (dir name : string) :
  "/"%char ∉ chars name ->
  let file_name := Chars.lower <$> chars name in
  file_name_of (dir +:+ "/" +:+ name) = file_name
  /\ (wanted (dir +:+ "/" +:+ name)
      <-> exists pre post year,
            year ∈ YEAR_FILTER /\ file_name = pre ++ chars year ++ post)
  /\ (forall suffix,
        ends_with suffix (file_name_of (dir +:+ "/" +:+ name)) = true
        <-> exists pre, file_name = pre ++ suffix).
Proof.
  intros Hn file_name.
  assert (E : file_name_of (dir +:+ "/" +:+ name) = file_name).
  { unfold file_name_of. rewrite !chars_app.
    change (chars "/") with ["/"%char]. simpl.
    now rewrite last_segment_app. }
  split; [exact E|]. split.
  - unfold wanted. rewrite E. unfold in_year_filter, YEAR_FILTER.
    cbn [existsb]. rewrite orb_false_r, orb_true_iff, !contains_spec.
    split.
    + intros [(pre & post & H) | (pre & post & H)];
        exists pre, post; eexists; (split; [|exact H]);
        [left|right; left].
    + intros (pre & post & year & Hy & H).
      apply elem_of_cons in Hy as [-> | Hy]; [left; eauto|].
      apply list_elem_of_singleton in Hy as ->. right. eauto.
  - intros suffix. rewrite E. apply ends_with_spec.
Qed.

Lemma file_name_of_spec_witness :
  file_name_of "https://data.example/2025/FuelCheck_Mar2024.XLSX"
  = chars "fuelcheck_mar2024.xlsx"
  /\ wanted "https://data.example/2025/FuelCheck_Mar2024.XLSX"
  /\ ~ wanted "https://data.example/2025/prices.csv".
Proof.
  destruct (file_name_of_spec "https://data.example/2025"
              "FuelCheck_Mar2024.XLSX") as (H1 & H2 & _).
  { refine (bool_decide_unpack _ _). vm_compute. exact I. }
  split; [exact H1|]. split.
  - apply H2. exists (chars "fuelcheck_mar"), (chars ".xlsx"), "2024".
    split; [left|reflexivity].
  - intros H. vm_compute in H. discriminate H.
Defined.

(** ** The matcher and the texts of a pattern *)

Lemma after_nil st : after st [] (rest st) = st.
Proof. destruct st. unfold after. simpl. now rewrite Nat.add_0_r. Qed.

Lemma after_app st w1 w2 t :
  after (after st w1 (w2 ++ t)) w2 t = after st (w1 ++ w2) t.
Proof. unfold after. simpl. rewrite length_app. f_equal. lia. Qed.

Lemma star_loop_lang ic r1 :
  (forall st st',
     st' ∈ run ic r1 st
     <-> exists w t', lang ic r1 w /\ rest st = w ++ t' /\ st' = after st w t') ->
  forall fuel st st',
    length (rest st) < fuel ->
    (st' ∈ star_loop (run ic r1) fuel st
     <-> exists w t',
           lang ic (Star r1) w /\ rest st = w ++ t' /\ st' = after st w t').
Proof.
  intros Hbody fuel st st' Hfuel. split.
  - clear Hfuel. revert st. induction fuel as [|fuel IH]; intros st H.
    + apply list_elem_of_singleton in H as ->.
      exists [], (rest st). split; [constructor|]. split; [reflexivity|].
      symmetry. apply after_nil.
    + rewrite star_loop_S in H. apply elem_of_app in H as [H | H].
      * apply list_elem_of_bind in H as (st1 & Hst' & Hst1).
        apply list_elem_of_filter in Hst1 as [Hadv Hst1].
        apply Hbody in Hst1 as (w1 & t1 & L1 & E1 & ->).
        destruct (IH _ Hst') as (w2 & t' & L2 & E2 & ->).
        cbn [rest after] in E2. subst t1.
        exists (w1 ++ w2), t'. split.
        -- constructor; try assumption. intros ->.
           apply Is_true_eq_true, Nat.ltb_lt in Hadv. simpl in Hadv. lia.
        -- split; [now rewrite E1, app_assoc|apply after_app].
      * apply list_elem_of_singleton in H as ->.
        exists [], (rest st). split; [constructor|]. split; [reflexivity|].
        symmetry. apply after_nil.
  - intros (w & t' & L & E & ->). revert fuel st t' Hfuel E.
    remember (Star r1) as r eqn:Er.
    induction L as [| | | |r|r w1 w2 L1 _ Hne L2 IH2| |]; try discriminate Er;
      intros fuel st t' Hfuel E.
    + simpl in E. subst t'. rewrite after_nil.
      destruct fuel; [left|]. rewrite star_loop_S. apply elem_of_app. right.
      left.
    + injection Er as ->. destruct fuel as [|fuel]; [lia|].
      rewrite star_loop_S. apply elem_of_app. left.
      apply list_elem_of_bind. exists (after st w1 (w2 ++ t')). split.
      * rewrite <- after_app. apply IH2; [reflexivity| |reflexivity].
        cbn [rest after]. rewrite E, !length_app in Hfuel.
        rewrite length_app. destruct w1; [now destruct Hne|]. simpl in Hfuel. lia.
      * apply list_elem_of_filter. split.
        -- apply Is_true_eq_left, Nat.ltb_lt. simpl.
           destruct w1; [now destruct Hne|]. simpl. lia.
        -- apply Hbody. exists w1, (w2 ++ t'). split; [exact L1|].
           split; [now rewrite E, app_assoc|reflexivity].
Qed.

(** The matcher finds the texts of the pattern: from a state, a pattern
    without groups and anchors leads to the states behind a prefix of the
    remaining text that is a text of the pattern. *)
Lemma run_lang ic r :
  plain r = true ->
  forall st st',
    st' ∈ run ic r st
    <-> exists w t', lang ic r w /\ rest st = w ++ t' /\ st' = after st w t'.
Proof.
  induction r as [|c|k|r1 IH1 r2 IH2|r1 IH1|r1 IH1|r1 _| |]; intros Hp st st';
    try discriminate Hp.
  - simpl. rewrite list_elem_of_singleton. split.
    + intros ->. exists [], (rest st). split; [constructor|].
      split; [reflexivity|]. symmetry. apply after_nil.
    + intros (w & t' & L & E & ->). inversion L; subst. simpl in E.
      subst t'. apply after_nil.
  - cbn [run]. unfold one. destruct st as [pos [|x t] g]; cbn [rest].
    + split; [intros H; inversion H|].
      intros (w & t' & L & E & _). inversion L; subst. discriminate E.
    + destruct (lit_matches ic c x) eqn:Em.
      * rewrite list_elem_of_singleton. split.
        -- intros ->. exists [x], t. split; [now constructor|].
           split; [reflexivity|]. unfold step, after. simpl. f_equal. lia.
        -- intros (w & t' & L & E & ->). inversion L; subst.
           inversion E; subst. unfold step, after. simpl. f_equal. lia.
      * split; [intros H; inversion H|].
        intros (w & t' & L & E & _). inversion L; subst.
        inversion E; subst. congruence.
  - cbn [run]. unfold one. destruct st as [pos [|x t] g]; cbn [rest].
    + split; [intros H; inversion H|].
      intros (w & t' & L & E & _). inversion L; subst. discriminate E.
    + destruct (in_cls k x) eqn:Em.
      * rewrite list_elem_of_singleton. split.
        -- intros ->. exists [x], t. split; [now constructor|].
           split; [reflexivity|]. unfold step, after. simpl. f_equal. lia.
        -- intros (w & t' & L & E & ->). inversion L; subst.
           inversion E; subst. unfold step, after. simpl. f_equal. lia.
      * split; [intros H; inversion H|].
        intros (w & t' & L & E & _). inversion L; subst.
        inversion E; subst. congruence.
  - cbn [plain] in Hp. apply andb_prop in Hp as [Hp1 Hp2].
    rewrite run_seq, list_elem_of_bind. split.
    + intros (st1 & H2 & H1).
      apply (IH1 Hp1) in H1 as (w1 & t1 & L1 & E1 & ->).
      apply (IH2 Hp2) in H2 as (w2 & t' & L2 & E2 & ->).
      cbn [rest after] in E2. subst t1.
      exists (w1 ++ w2), t'. split; [now constructor|].
      split; [now rewrite E1, app_assoc|apply after_app].
    + intros (w & t' & L & E & ->). inversion L; subst.
      exists (after st w1 (w2 ++ t')). split.
      * apply (IH2 Hp2). exists w2, t'. split; [assumption|].
        split; [reflexivity|]. symmetry. apply after_app.
      * apply (IH1 Hp1). exists w1, (w2 ++ t'). split; [assumption|].
        split; [now rewrite E, app_assoc|reflexivity].
  - cbn [plain] in Hp. cbn [run].
    apply star_loop_lang; [apply IH1, Hp|lia].
  - cbn [plain] in Hp. cbn [run]. rewrite elem_of_app, list_elem_of_singleton.
    split.
    + intros [H | ->].
      * apply (IH1 Hp) in H as (w & t' & L & E & ->).
        exists w, t'. split; [now constructor|]. now split.
      * exists [], (rest st). split; [constructor|]. split; [reflexivity|].
        symmetry. apply after_nil.
    + intros (w & t' & L & E & ->). inversion L; subst.
      * right. simpl in E. subst t'. apply after_nil.
      * left. apply (IH1 Hp). eauto.
Qed.

(** ** Patterns that end in [\s*$] *)

Lemma bind_bind {A B C} (f : A -> list B) (g : B -> list C) (l : list A) :
  (l ≫= f) ≫= g = l ≫= (fun x => f x ≫= g).
Proof.
  induction l as [|x l IH]; [reflexivity|].
  now rewrite !bind_cons, bind_app, IH.
Qed.

Lemma run_seq_assoc ic a b c st :
  run ic (Seq a (Seq b c)) st = run ic (Seq (Seq a b) c) st.
Proof. rewrite !run_seq, bind_bind. reflexivity. Qed.

Lemma head_bind_Some {A B} (f : A -> list B) (l : list A) y :
  head (l ≫= f) = Some y -> exists x, x ∈ l /\ head (f x) = Some y.
Proof.
  induction l as [|x l IH]; [discriminate|]. rewrite bind_cons.
  destruct (f x) as [|z zs] eqn:E; simpl.
  - intros H. destruct (IH H) as (x' & Hx' & Hy). exists x'.
    split; [now right|exact Hy].
  - intros [= ->]. exists x. split; [left|now rewrite E].
Qed.

Lemma head_bind_is_Some {A B} (f : A -> list B) (l : list A) x :
  x ∈ l -> f x <> [] -> is_Some (head (l ≫= f)).
Proof.
  intros Hx Hf. destruct (l ≫= f) as [|y ys] eqn:E; [|now eexists].
  exfalso. apply Hf.
  assert (H : forall z, z ∈ f x -> z ∈ l ≫= f)
    by (intros z Hz; apply list_elem_of_bind; eauto).
  rewrite E in H. destruct (f x) as [|z zs]; [reflexivity|].
  specialize (H z ltac:(left)). inversion H.
Qed.

Lemma span_all p t : forallb p t = true <-> span p t = length t.
Proof.
  induction t as [|c t IH]; simpl; [tauto|].
  destruct (p c); simpl; [|split; [discriminate|lia]].
  rewrite IH. lia.
Qed.

Lemma span_stop p t :
  span p t < length t -> exists x, t !! span p t = Some x /\ p x = false.
Proof.
  induction t as [|c t IH]; simpl; [lia|].
  destruct (p c) eqn:E; [|intros _; exists c; now split].
  intros H. apply IH. lia.
Qed.

(** [\s*$] from any state: it matches when white space only is left, and
    the match first found takes all of it. *)
Lemma head_run_tail ic st :
  head (run ic tail_pattern st)
  = if forallb Chars.is_space (rest st)
    then Some (after st (rest st) []) else None.
Proof.
  unfold tail_pattern. rewrite run_seq, run_star_cls.
  change (in_cls Space) with Chars.is_space.
  set (n := span Chars.is_space (rest st)).
  destruct (forallb Chars.is_space (rest st)) eqn:E.
  - apply span_all in E. fold n in E.
    rewrite seq_0_S_rev, fmap_cons, bind_cons.
    change (run ic Eol (advance n st))
      with (if at_eol (advance n st) then [advance n st] else []).
    unfold at_eol, advance. cbn [rest]. rewrite E, drop_all. simpl.
    unfold after. now rewrite <- E.
  - assert (Hn : n < length (rest st)).
    { pose proof (span_le Chars.is_space (rest st)) as Hle. fold n in Hle.
      destruct (decide (n = length (rest st))) as [Heq|]; [|lia].
      apply span_all in Heq. congruence. }
    destruct (span_stop _ _ Hn) as (x & Hx & Hpx). fold n in Hx.
    rewrite bind_all_nil; [reflexivity|].
    intros s [j [-> Hj]]%list_elem_of_fmap.
    apply elem_of_rev, elem_of_seq in Hj.
    change (run ic Eol (advance j st))
      with (if at_eol (advance j st) then [advance j st] else []).
    unfold at_eol, advance. cbn [rest].
    destruct (drop j (rest st)) as [|d [|e u]] eqn:Ed; [| |reflexivity].
    + apply drop_nil_inv in Ed. lia.
    + assert (j = n).
      { apply (f_equal length) in Ed. rewrite length_drop in Ed.
        simpl in Ed. lia. }
      subst j. apply (f_equal (fun l => l !! 0)) in Ed.
      rewrite lookup_drop, Nat.add_0_r, Hx in Ed. inversion Ed; subst d.
      destruct (Chars.code x =? 10) eqn:E10; [|reflexivity].
      apply newline_is_space in E10. congruence.
Qed.

Lemma match_at_anchored ic R pos t st' :
  plain R = true ->
  match_at ic (Seq R tail_pattern) pos t false = Some st' ->
  st' = MState (pos + length t) [] None /\ ends_as ic R t.
Proof.
  intros Hp. rewrite match_at_free, run_seq. intros H.
  apply head_bind_Some in H as (st1 & H1 & H2).
  apply (run_lang ic R Hp) in H1 as (w & t' & L & E & ->).
  cbn [rest] in E. rewrite head_run_tail in H2. cbn [rest after] in H2.
  destruct (forallb Chars.is_space t') eqn:Eb; [|discriminate H2].
  inversion H2; subst st'. split.
  - unfold after. simpl. f_equal. rewrite E, length_app. lia.
  - exists w, t'. now split.
Qed.

Lemma match_at_anchored_ends ic R pos t :
  plain R = true -> ends_as ic R t ->
  is_Some (match_at ic (Seq R tail_pattern) pos t false).
Proof.
  intros Hp (w & ws & -> & L & Hb). rewrite match_at_free, run_seq.
  apply (head_bind_is_Some _ _ (after (MState pos (w ++ ws) None) w ws)).
  - apply (run_lang ic R Hp). exists w, ws. now split.
  - pose proof (head_run_tail ic (after (MState pos (w ++ ws) None) w ws)) as H.
    cbn [rest after] in H. unfold blank in Hb. rewrite Hb in H.
    intros E. rewrite E in H. discriminate H.
Qed.

Lemma search_first ic r pos t b st' :
  search ic r pos t false = Some (b, st') ->
  exists i, i <= length t /\ b = pos + i
    /\ match_at ic r b (drop i t) false = Some st'
    /\ forall i', i' < i -> match_at ic r (pos + i') (drop i' t) false = None.
Proof.
  revert pos. induction t as [|c t IH]; intros pos; rewrite search_eq.
  - destruct (match_at ic r pos [] false) as [s|] eqn:E; [|discriminate].
    intros [= <- <-]. exists 0. rewrite Nat.add_0_r. simpl.
    split; [lia|]. split; [reflexivity|]. split; [exact E|]. lia.
  - destruct (match_at ic r pos (c :: t) false) as [s|] eqn:E.
    + intros [= <- <-]. exists 0. rewrite Nat.add_0_r. simpl.
      split; [lia|]. split; [reflexivity|]. split; [exact E|]. lia.
    + intros H. destruct (IH _ H) as (i & Hi & -> & Hm & Hmin).
      exists (S i). simpl. split; [lia|]. split; [lia|].
      split; [now replace (pos + S i) with (S pos + i) by lia|].
      intros [|i'] Hi'; [now rewrite Nat.add_0_r|].
      simpl. replace (pos + S i') with (S pos + i') by lia. apply Hmin. lia.
Qed.

Lemma search_none ic r pos t :
  search ic r pos t false = None ->
  forall i, i <= length t -> match_at ic r (pos + i) (drop i t) false = None.
Proof.
  revert pos. induction t as [|c t IH]; intros pos; rewrite search_eq.
  - destruct (match_at ic r pos [] false) eqn:E; [discriminate|].
    intros _ i Hi. simpl in Hi. replace i with 0 by lia.
    now rewrite Nat.add_0_r.
  - destruct (match_at ic r pos (c :: t) false) eqn:E; [discriminate|].
    intros H [|i] Hi; [now rewrite Nat.add_0_r|].
    simpl. replace (pos + S i) with (S pos + i) by lia.
    apply IH; [exact H|simpl in Hi; lia].
Qed.

Lemma sub_loop_nil fuel ic r pos adv : sub_loop fuel ic r [] pos [] adv = [].
Proof.
  revert pos adv. induction fuel as [|fuel IH]; intros pos adv; [reflexivity|].
  rewrite sub_loop_S.
  destruct (search ic r pos [] adv) as [[b st']|] eqn:E; [|reflexivity].
  destruct (search_reaches _ _ _ _ _ _ _ E) as (i & k & _ & _ & Hr & _).
  rewrite Hr, drop_nil, take_nil. simpl. apply IH.
Qed.

(** Removing a pattern that ends in [\s*$]: the text is cut at the first
    position from which it ends as the pattern asks, and it is returned
    as it is when there is no such position. *)
Lemma re_sub_anchored ic R s :
  plain R = true ->
  (forall b, first_position (ends_as ic R) s b ->
     re_sub ic (Seq R tail_pattern) [] s = take b s)
  /\ ((forall b, b <= length s -> ~ ends_as ic R (drop b s)) ->
      re_sub ic (Seq R tail_pattern) [] s = s).
Proof.
  intros Hp. split.
  - intros b (Hb & He & Hmin).
    destruct (search ic (Seq R tail_pattern) 0 s false) as [[b0 st']|] eqn:E.
    + destruct (search_first _ _ _ _ _ _ E) as (i & Hi & -> & Hm & Hnone).
      simpl in *.
      destruct (match_at_anchored _ _ _ _ _ Hp Hm) as [-> He0].
      assert (i = b).
      { destruct (lt_eq_lt_dec i b) as [[Hlt | Heq] | Hgt]; [|exact Heq|].
        - now destruct (Hmin i Hlt).
        - destruct (match_at_anchored_ends ic R b (drop b s) Hp He) as [x Hx].
          specialize (Hnone b Hgt). simpl in Hnone. congruence. }
      subst i. unfold re_sub.
      replace (2 * length s + 2) with (S (2 * length s + 1)) by lia.
      rewrite sub_loop_S, E. cbn [consumed rest].
      now rewrite sub_loop_nil, Nat.sub_0_r, !app_nil_r.
    + pose proof (search_none _ _ _ _ E b Hb) as Hnone. simpl in Hnone.
      destruct (match_at_anchored_ends ic R b (drop b s) Hp He) as [x Hx].
      congruence.
  - intros Hnone. apply re_sub_no_match.
    destruct (search ic (Seq R tail_pattern) 0 s false) as [[b0 st']|] eqn:E;
      [|reflexivity].
    destruct (search_first _ _ _ _ _ _ E) as (i & Hi & -> & Hm & _).
    destruct (match_at_anchored _ _ _ _ _ Hp Hm) as [_ He0].
    now destruct (Hnone i Hi).
Qed.

Lemma match_at_ext ic r r' pos t adv :
  (forall st, run ic r st = run ic r' st) ->
  match_at ic r pos t adv = match_at ic r' pos t adv.
Proof. intros H. unfold match_at. now rewrite H. Qed.

Lemma search_ext ic r r' pos t adv :
  (forall st, run ic r st = run ic r' st) ->
  search ic r pos t adv = search ic r' pos t adv.
Proof.
  intros H. revert pos adv. induction t as [|c t IH]; intros pos adv;
    rewrite !(search_eq _ _ pos), (match_at_ext _ _ _ _ _ _ H);
    [reflexivity|].
  now rewrite IH.
Qed.

Lemma re_sub_ext ic r r' repl s :
  (forall st, run ic r st = run ic r' st) ->
  re_sub ic r repl s = re_sub ic r' repl s.
Proof.
  intros H. unfold re_sub. generalize (2 * length s + 2) as fuel.
  generalize 0 as pos. generalize false as adv. revert s.
  intros s adv pos fuel. revert s adv pos.
  induction fuel as [|fuel IH]; intros s adv pos; [reflexivity|].
  rewrite !sub_loop_S, (search_ext _ _ _ _ _ _ H).
  destruct (search ic r' pos s adv) as [[b st']|]; [|reflexivity].
  now rewrite IH.
Qed.

(** ** The texts of the patterns of the decomposition *)

Lemma blank_nil : blank [].
Proof. reflexivity. Qed.

Lemma blank_cons c ws : blank (c :: ws) <-> Chars.is_space c = true /\ blank ws.
Proof. unfold blank. simpl. apply andb_true_iff. Qed.

Lemma blank_app ws1 ws2 : blank (ws1 ++ ws2) <-> blank ws1 /\ blank ws2.
Proof. unfold blank. rewrite forallb_app. apply andb_true_iff. Qed.

Lemma lang_star_space ic w : lang ic (Star (Cls Space)) w <-> blank w.
Proof.
  split.
  - remember (Star (Cls Space)) as r eqn:Er. intros L.
    induction L as [| | | |r|r w1 w2 L1 _ Hne L2 IH2| |]; try discriminate Er.
    + apply blank_nil.
    + injection Er as ->. inversion L1; subst. apply blank_cons.
      split; [assumption|]. now apply IH2.
  - induction w as [|c w IH]; intros H; [constructor|].
    apply blank_cons in H as [Hc Hw].
    change (c :: w) with ([c] ++ w).
    constructor; [now constructor|discriminate|now apply IH].
Qed.

Lemma lang_plus_space ic w :
  lang ic (Plus (Cls Space)) w <-> w <> [] /\ blank w.
Proof.
  unfold Plus. split.
  - intros L. inversion L as [| | |r1 r2 w1 w2 L1 L2| | | |]; subst.
    inversion L1; subst. apply lang_star_space in L2.
    split; [discriminate|]. apply blank_cons. now split.
  - intros [Hne H]. destruct w as [|c w]; [now destruct Hne|].
    apply blank_cons in H as [Hc Hw]. change (c :: w) with ([c] ++ w).
    constructor; [now constructor|now apply lang_star_space].
Qed.

Lemma lang_lits ic s w :
  lang ic (Lits s) w <-> Forall2 (fun c x => lit_matches ic c x = true) s w.
Proof.
  revert w. induction s as [|c s IH]; intros w; simpl.
  - split.
    + intros L. inversion L; subst. constructor.
    + intros H. inversion H; subst. constructor.
  - split.
    + intros L. inversion L as [| | |r1 r2 w1 w2 L1 L2| | | |]; subst.
      inversion L1; subst. simpl. constructor; [assumption|now apply IH].
    + intros H. inversion H as [|? x ? w' Hx Hw]; subst.
      change (x :: w') with ([x] ++ w').
      constructor; [now constructor|now apply IH].
Qed.

Lemma plain_lits s : plain (Lits s) = true.
Proof. induction s; simpl; [reflexivity|assumption]. Qed.

Lemma pattern_of_text_lang p P :
  pattern_of_text p = Some P ->
  plain P = true
  /\ forall w, lang true P w <-> Forall2 (fun c x => wild_matches c x = true) p w.
Proof.
  revert P. induction p as [|c p IH]; intros P; simpl.
  - intros [= <-]. split; [reflexivity|]. intros w. split.
    + intros L. inversion L; subst. constructor.
    + intros H. inversion H; subst. constructor.
  - destruct (pattern_of_text p) as [r|]; [|discriminate]. simpl.
    destruct (IH r eq_refl) as [Hp Hl].
    assert (Hgen : forall a : regex,
              plain a = true ->
              (forall x, lang true a [x] <-> wild_matches c x = true) ->
              (forall w, lang true a w -> exists x, w = [x]) ->
              plain (Seq a r) = true
              /\ forall w, lang true (Seq a r) w
                   <-> Forall2 (fun c x => wild_matches c x = true) (c :: p) w).
    { intros a Ha Hone Hsingle. split; [simpl; now rewrite Ha|].
      intros w. split.
      - intros L. inversion L as [| | |r1 r2 w1 w2 L1 L2| | | |]; subst.
        destruct (Hsingle _ L1) as [x ->]. simpl.
        constructor; [now apply Hone|now apply Hl].
      - intros H. inversion H as [|? x ? w' Hx Hw]; subst.
        change (x :: w') with ([x] ++ w').
        constructor; [now apply Hone|now apply Hl]. }
    unfold wild_matches in Hgen.
    destruct (Ascii.eqb c ".") eqn:Edot.
    + intros [= <-]. apply Hgen; [reflexivity| |].
      * intros x. split; [intros L; now inversion L|now constructor].
      * intros w L. inversion L; eauto.
    + destruct (is_special c); [discriminate|]. intros [= <-].
      apply Hgen; [reflexivity| |].
      * intros x. split; [intros L; now inversion L|now constructor].
      * intros w L. inversion L; eauto.
Qed.

Lemma pattern_of_text_defined p :
  (forall c, c ∈ p -> c = "."%char \/ is_special c = false) ->
  exists P, pattern_of_text p = Some P.
Proof.
  induction p as [|c p IH]; intros H; simpl; [eauto|].
  destruct IH as [P ->]; [intros x Hx; apply H; now right|]. simpl.
  destruct (Ascii.eqb_spec c "."); [eauto|].
  destruct (H c ltac:(left)) as [? | ->]; [contradiction|eauto].
Qed.

Lemma ends_as_postcode p P u :
  pattern_of_text p = Some P ->
  ends_as true (Seq (Plus (Cls Space)) P) u <-> postcode_end p u.
Proof.
  intros HP. destruct (pattern_of_text_lang _ _ HP) as [_ Hl]. split.
  - intros (w & ws & -> & L & Hb).
    inversion L as [| | |r1 r2 w1 w2 L1 L2| | | |]; subst.
    apply lang_plus_space in L1 as [Hne Hb1]. apply Hl in L2.
    exists w1, w2, ws. rewrite <- app_assoc. now repeat split.
  - intros (ws1 & w & ws2 & -> & Hne & Hb1 & Hb2 & Hw).
    exists (ws1 ++ w), ws2. rewrite <- app_assoc. split; [reflexivity|].
    split; [|exact Hb2].
    constructor; [now apply lang_plus_space|now apply Hl].
Qed.

Lemma remove_postcode_run postcode p P a :
  py_str postcode = Ok p -> pattern_of_text (chars p) = Some P ->
  remove_postcode postcode (VStr a)
  = Ok (VStr (text (re_sub true (Seq (Seq (Plus (Cls Space)) P) tail_pattern)
                      [] (chars a)))).
Proof.
  intros Hp HP. unfold remove_postcode, postcode_pattern.
  rewrite Hp. cbn [bind]. rewrite HP. cbn [bind sub_in_address].
  do 3 f_equal. apply re_sub_ext. intros st.
  change (Seq (Star (Cls Space)) Eol) with tail_pattern.
  apply run_seq_assoc.
Qed.

Lemma first_position_ext (E E' : list ascii -> Prop) s b :
  (forall u, E u <-> E' u) -> first_position E s b -> first_position E' s b.
Proof.
  intros H (Hb & He & Hmin). split; [exact Hb|]. split; [now apply H|].
  intros b' Hb' He'. apply (Hmin b' Hb'). now apply H.
Qed.

Lemma remove_postcode_cut postcode p a :
  py_str postcode = Ok p ->
  (forall c, c ∈ chars p -> c = "."%char \/ is_special c = false) ->
  (forall b, first_position (postcode_end (chars p)) (chars a) b ->
     remove_postcode postcode (VStr a)
     = Ok (VStr (text (take b (chars a)))))
  /\ ((forall b, b <= length (chars a) ->
         ~ postcode_end (chars p) (drop b (chars a))) ->
      remove_postcode postcode (VStr a) = Ok (VStr a)).
Proof.
  intros Hp Hc. destruct (pattern_of_text_defined _ Hc) as [P HP].
  destruct (pattern_of_text_lang _ _ HP) as [Hplain _].
  rewrite (remove_postcode_run _ _ _ _ Hp HP).
  destruct (re_sub_anchored true (Seq (Plus (Cls Space)) P) (chars a))
    as [H1 H2]; [simpl; now rewrite Hplain|].
  split.
  - intros b Hb. rewrite (H1 b); [reflexivity|].
    eapply first_position_ext; [|exact Hb].
    intros u. symmetry. now apply ends_as_postcode.
  - intros Hnone. rewrite H2; [now rewrite text_chars|].
    intros b Hb He. apply (Hnone b Hb). now apply (ends_as_postcode _ P).
Qed.

(** ** Where a text is cut *)

Lemma blank_rev ws : blank ws -> blank (rev ws).
Proof.
  unfold blank. rewrite !forallb_forall. intros H x Hx.
  apply H. now apply in_rev.
Qed.

Lemma blank_last ws x : blank ws -> last ws = Some x -> Chars.is_space x = true.
Proof.
  intros H [l ->]%last_Some. apply blank_app in H as [_ H].
  now apply blank_cons in H as [H _].
Qed.

Lemma trailing_blank_length l ws :
  ends_solid l -> blank ws ->
  span Chars.is_space (rev (l ++ ws)) = length ws.
Proof.
  intros (x & [l' ->]%last_Some & Hx) Hb.
  rewrite !rev_app_distr. simpl.
  rewrite span_app_stop; [apply length_rev| |exact Hx].
  now apply blank_rev.
Qed.

Lemma blank_suffix_unique l1 l2 ws ws' :
  l1 ++ ws = l2 ++ ws' -> ends_solid l1 -> ends_solid l2 ->
  blank ws -> blank ws' -> l1 = l2 /\ ws = ws'.
Proof.
  intros E H1 H2 Hb Hb'. apply app_inj_2; [|exact E].
  rewrite <- (trailing_blank_length l1 ws H1 Hb).
  rewrite <- (trailing_blank_length l2 ws' H2 Hb'). now rewrite E.
Qed.

Lemma ends_solid_app l k : ends_solid k -> ends_solid (l ++ k).
Proof.
  intros (x & [k' ->]%last_Some & Hx). exists x. split; [|exact Hx].
  rewrite app_assoc. apply last_snoc.
Qed.

Lemma ends_solid_not_blank l : ends_solid l -> ~ blank l.
Proof.
  intros (x & Hl & Hx) Hb. rewrite (blank_last _ _ Hb Hl) in Hx.
  discriminate Hx.
Qed.

Lemma last_drop (q : list ascii) b : b < length q -> last (drop b q) = last q.
Proof.
  intros Hb. destruct (drop b q) as [|c t] eqn:E.
  - apply drop_nil_inv in E. lia.
  - symmetry. eapply last_drop_cons, E.
Qed.

(** After a text [q] that does not end with white space, the first
    position from which the text has the form [E] is the end of [q],
    provided no longer end has the form. *)
Lemma first_position_clean (E : list ascii -> Prop) q u :
  ends_clean q -> E u ->
  (forall q', ends_solid q' -> last q' = last q -> ~ E (q' ++ u)) ->
  first_position E (q ++ u) (length q).
Proof.
  intros Hq Hu Hno. split; [rewrite length_app; lia|].
  split; [now rewrite drop_app_length|].
  intros b' Hb'. rewrite drop_app_le by lia.
  apply Hno; [|now apply last_drop].
  destruct (last (drop b' q)) as [x|] eqn:El.
  - exists x. split; [exact El|]. apply Hq.
    now rewrite <- (last_drop q b' Hb').
  - apply last_None, drop_nil_inv in El. lia.
Qed.

Lemma digit_match c x :
  Chars.is_digit c = true -> wild_matches c x = true -> x = c.
Proof.
  intros Hc%digit_cases. unfold digit_chars in Hc. simpl in Hc.
  repeat (apply elem_of_cons in Hc as [-> | Hc]);
    [..|now apply elem_of_nil in Hc];
    destruct x as [[] [] [] [] [] [] [] []]; intros H;
    first [reflexivity | vm_compute in H; discriminate H].
Qed.

Lemma digits_match p w :
  forallb Chars.is_digit p = true ->
  Forall2 (fun c x => wild_matches c x = true) p w -> w = p.
Proof.
  intros Hp H. induction H as [|c x p w Hx _ IH]; [reflexivity|].
  simpl in Hp. apply andb_prop in Hp as [Hc Hp].
  now rewrite (digit_match c x Hc Hx), IH.
Qed.

Lemma digits_wild p :
  forallb Chars.is_digit p = true ->
  Forall2 (fun c x => wild_matches c x = true) p p.
Proof.
  induction p as [|c p IH]; intros Hp; [constructor|].
  simpl in Hp. apply andb_prop in Hp as [Hc Hp]. constructor; [|now apply IH].
  apply digit_cases in Hc. unfold digit_chars in Hc. simpl in Hc.
  repeat (apply elem_of_cons in Hc as [-> | Hc]);
    [..|now apply elem_of_nil in Hc]; reflexivity.
Qed.

Lemma digits_solid p :
  p <> [] -> forallb Chars.is_digit p = true -> ends_solid p.
Proof.
  intros Hne Hp. destruct (last p) as [x|] eqn:El;
    [|now apply last_None in El].
  exists x. split; [exact El|].
  apply last_Some in El as [p' ->]. rewrite forallb_app in Hp.
  apply andb_prop in Hp as [_ Hx]. simpl in Hx. rewrite andb_true_r in Hx.
  now destruct (digit_facts x Hx).
Qed.

Lemma digit_not_special c : Chars.is_digit c = true -> is_special c = false.
Proof.
  intros Hc%digit_cases. unfold digit_chars in Hc. simpl in Hc.
  repeat (apply elem_of_cons in Hc as [-> | Hc]);
    [..|now apply elem_of_nil in Hc]; reflexivity.
Qed.

(** A postcode written in digits at the end of the address, after white
    space: the address loses the white space, the postcode and what white
    space follows. *)
Lemma remove_postcode_digits postcode p a q ws1 ws2 :
  py_str postcode = Ok p ->
  chars p <> [] -> forallb Chars.is_digit (chars p) = true ->
  chars a = q ++ ws1 ++ chars p ++ ws2 ->
  ends_clean q -> ws1 <> [] -> blank ws1 -> blank ws2 ->
  remove_postcode postcode (VStr a) = Ok (VStr (text q)).
Proof.
  intros Hp Hne Hd Ha Hq Hws1 Hb1 Hb2.
  assert (Hc : forall c, c ∈ chars p -> c = "."%char \/ is_special c = false).
  { intros c Hin. right. apply digit_not_special.
    rewrite forallb_forall in Hd. apply Hd. now apply list_elem_of_In. }
  destruct (remove_postcode_cut postcode p a Hp Hc) as [H1 _].
  rewrite (H1 (length q)); [now rewrite Ha, take_app_length|].
  rewrite Ha. apply first_position_clean; [exact Hq| |].
  - exists ws1, (chars p), ws2. repeat split; try assumption.
    now apply digits_wild.
  - intros q' Hq' _ (ws1' & w' & ws2' & E & _ & Hb1' & Hb2' & Hw).
    apply (digits_match _ _ Hd) in Hw. subst w'.
    pose proof (digits_solid _ Hne Hd) as Hsolid.
    destruct (blank_suffix_unique (q' ++ ws1 ++ chars p) (ws1' ++ chars p)
                ws2 ws2') as [E1 _]; try assumption.
    + now rewrite <- !app_assoc.
    + rewrite app_assoc. now apply ends_solid_app.
    + now apply ends_solid_app.
    + rewrite app_assoc in E1. apply app_inv_tail in E1.
      apply (ends_solid_not_blank q' Hq').
      rewrite <- E1 in Hb1'. now apply blank_app in Hb1' as [? _].
Qed.

(** X10.  The first step of the decomposition on one row of ASCII text,
    without patterns.  For a postcode whose text has no pattern operator other
    than dots, the address is cut at the first position from which it
    consists of white space (at least one character), the postcode (a dot
    of the postcode standing for any character but a line feed, a letter
    for itself in either case) and white space; it is unchanged when there
    is no such position.  For a postcode written in digits this means: an
    address that ends in white space, the postcode and possibly more white
    space loses them, whatever stands before. *)
Theorem remove_postcode_spec (postcode : value) (p a : string) :
  py_str postcode = Ok p -> ascii_text p -> ascii_text a ->
  (forall c, c ∈ chars p -> c = "."%char \/ is_special c = false) ->
  (forall b, first_position (postcode_end (chars p)) (chars a) b ->
     remove_postcode postcode (VStr a)
     = Ok (VStr (text (take b (chars a)))))
  /\ ((forall b, b <= length (chars a) ->
         ~ postcode_end (chars p) (drop b (chars a))) ->
      remove_postcode postcode (VStr a) = Ok (VStr a))
  /\ (forall q ws1 ws2,
        chars p <> [] -> forallb Chars.is_digit (chars p) = true ->
        chars a = q ++ ws1 ++ chars p ++ ws2 ->
        ends_clean q -> ws1 <> [] -> blank ws1 -> blank ws2 ->
        remove_postcode postcode (VStr a) = Ok (VStr (text q))).
Proof.
  intros Hp _ _ Hc.
  destruct (remove_postcode_cut postcode p a Hp Hc) as [H1 H2].
  split; [exact H1|]. split; [exact H2|].
  intros q ws1 ws2 Hne Hd Ha Hq Hws1 Hb1 Hb2.
  now apply (remove_postcode_digits postcode p a q ws1 ws2).
Qed.

Lemma remove_postcode_spec_witness :
  remove_postcode (VInt 2000) (VStr "12 Main St, Sydney NSW  2000 ")
  = Ok (VStr "12 Main St, Sydney NSW").
Proof.
  refine (proj2 (proj2 (remove_postcode_spec (VInt 2000) "2000"
                          "12 Main St, Sydney NSW  2000 " eq_refl
                          eq_refl eq_refl _))
            (chars "12 Main St, Sydney NSW") (chars "  ") (chars " ")
            _ _ _ _ _ _ _).
  - intros c Hc. right. simpl in Hc.
    repeat (apply elem_of_cons in Hc as [-> | Hc]; [reflexivity|]).
    now apply elem_of_nil in Hc.
  - discriminate.
  - reflexivity.
  - reflexivity.
  - intros c Hl. vm_compute in Hl. inversion Hl. reflexivity.
  - discriminate.
  - reflexivity.
  - reflexivity.
Defined.

Lemma comma_match ic x : lit_matches ic "," x = true <-> x = ","%char.
Proof.
  split; [|intros ->; now destruct ic].
  destruct ic, x as [[] [] [] [] [] [] [] []]; intros H;
    first [reflexivity | vm_compute in H; discriminate H].
Qed.

Lemma ends_as_comma u :
  ends_as false (Seq (Star (Cls Space)) (Lit ",")) u <-> comma_end u.
Proof.
  split.
  - intros (w & ws & -> & L & Hb).
    inversion L as [| | |r1 r2 w1 w2 L1 L2| | | |]; subst.
    apply lang_star_space in L1. inversion L2 as [|c x Hx| | | | | |]; subst.
    apply comma_match in Hx as ->.
    exists w1, ws. rewrite <- app_assoc. now repeat split.
  - intros (ws1 & ws2 & -> & Hb1 & Hb2).
    exists (ws1 ++ [","%char]), ws2. rewrite <- app_assoc.
    split; [reflexivity|]. split; [|exact Hb2].
    constructor; [now apply lang_star_space|now constructor].
Qed.

Lemma comma_solid l : ends_solid (l ++ [","%char]).
Proof. exists ","%char. split; [apply last_snoc|reflexivity]. Qed.

Lemma remove_comma_cut (a : string) :
  (forall b, first_position comma_end (chars a) b ->
     remove_comma a = VStr (text (take b (chars a))))
  /\ ((forall b, b <= length (chars a) -> ~ comma_end (drop b (chars a))) ->
      remove_comma a = VStr a).
Proof.
  assert (Hrun : remove_comma a
                 = VStr (text (re_sub false
                                 (Seq (Seq (Star (Cls Space)) (Lit ","))
                                    tail_pattern) [] (chars a)))).
  { unfold remove_comma, comma_pattern. do 2 f_equal. apply re_sub_ext.
    intros st. change (Seq (Star (Cls Space)) Eol) with tail_pattern.
    apply run_seq_assoc. }
  destruct (re_sub_anchored false (Seq (Star (Cls Space)) (Lit ","))
              (chars a) eq_refl) as [H1 H2].
  split.
  - intros b Hb. rewrite Hrun, (H1 b); [reflexivity|].
    eapply first_position_ext; [|exact Hb].
    intros u. symmetry. apply ends_as_comma.
  - intros Hnone. rewrite Hrun, H2; [now rewrite text_chars|].
    intros b Hb He. apply (Hnone b Hb). now apply ends_as_comma.
Qed.

(** A text whose last character that is not white space is no comma is
    left as it is. *)
Lemma remove_comma_keeps a l x ws :
  chars a = l ++ x :: ws ->
  Chars.is_space x = false -> x <> ","%char -> blank ws ->
  remove_comma a = VStr a.
Proof.
  intros Ha Hx Hne Hb. apply remove_comma_cut.
  intros b _ (ws1 & ws2 & E & Hb1 & Hb2).
  pose proof (take_drop b (chars a)) as Hsplit. rewrite E, Ha in Hsplit.
  destruct (blank_suffix_unique (take b (l ++ x :: ws) ++ ws1 ++ [","%char])
              (l ++ [x]) ws2 ws) as [E1 _]; try assumption.
  - rewrite <- !app_assoc. exact Hsplit.
  - rewrite app_assoc. apply comma_solid.
  - exists x. split; [apply last_snoc|exact Hx].
  - rewrite app_assoc in E1. apply (f_equal last) in E1.
    rewrite !last_snoc in E1. inversion E1. congruence.
Qed.

(** X23.  The second step of the decomposition on one ASCII text,
    without patterns.  When the last character of the text that is not white space
    is a comma, the text loses this comma, the white space after it and
    the white space before it; only this last comma is removed.  In every
    other case the text is unchanged. *)
Theorem remove_comma_spec (a : string) :
  ascii_text a ->
  (forall b, first_position comma_end (chars a) b ->
     remove_comma a = VStr (text (take b (chars a))))
  /\ (forall q ws1 ws2,
        chars a = q ++ ws1 ++ ","%char :: ws2 ->
        ends_clean q -> blank ws1 -> blank ws2 ->
        remove_comma a = VStr (text q))
  /\ (forall l x ws,
        chars a = l ++ x :: ws ->
        Chars.is_space x = false -> x <> ","%char -> blank ws ->
        remove_comma a = VStr a)
  /\ (blank (chars a) -> remove_comma a = VStr a).
Proof.
  intros _. destruct (remove_comma_cut a) as [Hcut Hkeep].
  split; [exact Hcut|]. split; [|split].
  - intros q ws1 ws2 Ha Hq Hb1 Hb2.
    rewrite (Hcut (length q)); [now rewrite Ha, take_app_length|].
    rewrite Ha. apply first_position_clean; [exact Hq| |].
    + exists ws1, ws2. now repeat split.
    + intros q' Hq' _ (ws1' & ws2' & E & Hb1' & Hb2').
      destruct (blank_suffix_unique (q' ++ ws1 ++ [","%char])
                  (ws1' ++ [","%char]) ws2 ws2') as [E1 _];
        try assumption.
      * now rewrite <- !app_assoc.
      * rewrite app_assoc. apply comma_solid.
      * apply comma_solid.
      * rewrite app_assoc in E1. apply app_inv_tail in E1.
        apply (ends_solid_not_blank q' Hq').
        rewrite <- E1 in Hb1'. now apply blank_app in Hb1' as [? _].
  - apply remove_comma_keeps.
  - intros Hb. apply Hkeep. intros b _ (ws1 & ws2 & E & Hb1 & Hb2).
    pose proof (take_drop b (chars a)) as Hsplit. rewrite E in Hsplit.
    rewrite <- Hsplit in Hb. apply blank_app in Hb as [_ Hb].
    apply blank_app in Hb as [_ Hb]. apply blank_cons in Hb as [Hb _].
    discriminate Hb.
Qed.

Lemma remove_comma_spec_witness :
  remove_comma "12 Main St, Sydney ,  " = VStr "12 Main St, Sydney".
Proof.
  refine (proj1 (proj2 (remove_comma_spec "12 Main St, Sydney ,  " eq_refl))
            (chars "12 Main St, Sydney") (chars " ") (chars "  ") _ _ _ _).
  - reflexivity.
  - intros c Hl. vm_compute in Hl. inversion Hl. reflexivity.
  - reflexivity.
  - reflexivity.
Defined.

Lemma lower_space y : Chars.is_space (Chars.lower y) = Chars.is_space y.
Proof. destruct y as [[] [] [] [] [] [] [] []]; reflexivity. Qed.

Lemma same_ci_space c x :
  same_ci c x = true -> Chars.is_space x = Chars.is_space c.
Proof.
  unfold same_ci, lit_matches. intros H%Ascii.eqb_eq.
  now rewrite <- (lower_space x), <- H, lower_space.
Qed.

Lemma same_ci_solid s w :
  Forall2 (fun c x => same_ci c x = true) s w -> ends_solid s -> ends_solid w.
Proof.
  intros H (c & [s' ->]%last_Some & Hc).
  apply Forall2_app_inv_l in H as (w' & wx & _ & Hx & ->).
  inversion Hx as [|? x ? ? Hcx Hnil]; subst. inversion Hnil; subst.
  exists x. split; [apply last_snoc|].
  now rewrite (same_ci_space _ _ Hcx).
Qed.

Lemma ends_as_suburb s u :
  ends_as true
    (Seq (Star (Cls Space))
       (Seq (Opt (Lit ",")) (Seq (Star (Cls Space)) (Lits s)))) u
  <-> suburb_end s u.
Proof.
  split.
  - intros (w & ws & -> & L & Hb).
    inversion L as [| | |r1 r2 w1 w' L1 L'| | | |]; subst.
    inversion L' as [| | |r1 r2 c w'' Lc L''| | | |]; subst.
    inversion L'' as [| | |r1 r2 w2 w3 L2 L3| | | |]; subst.
    apply lang_star_space in L1, L2. apply lang_lits in L3.
    exists w1, c, w2, w3, ws. rewrite <- !app_assoc.
    split; [reflexivity|]. split; [|now repeat split].
    inversion Lc as [| | | | | |r|r w0 L0]; subst; [now left|].
    inversion L0 as [|c0 x Hx| | | | | |]; subst.
    apply comma_match in Hx as ->. now right.
  - intros (ws1 & c & ws2 & w & ws3 & -> & Hc & Hb1 & Hb2 & Hb3 & Hw).
    exists (ws1 ++ c ++ ws2 ++ w), ws3. rewrite <- !app_assoc.
    split; [reflexivity|]. split; [|exact Hb3].
    constructor; [now apply lang_star_space|].
    constructor.
    + destruct Hc as [-> | ->]; [constructor|].
      constructor. now constructor.
    + constructor; [now apply lang_star_space|now apply lang_lits].
Qed.

Lemma remove_suburb_run suburb s a :
  py_str suburb = Ok s ->
  remove_suburb suburb (VStr a)
  = Ok (VStr (text (re_sub true
                      (Seq (Seq (Star (Cls Space))
                              (Seq (Opt (Lit ","))
                                 (Seq (Star (Cls Space)) (Lits (chars s)))))
                         tail_pattern) [] (chars a)))).
Proof.
  intros Hs. unfold remove_suburb, suburb_pattern. rewrite Hs.
  cbn [bind sub_in_address]. do 3 f_equal. apply re_sub_ext. intros st.
  change (Seq (Star (Cls Space)) Eol) with tail_pattern.
  rewrite !run_seq, !bind_bind. apply list_bind_ext; [|reflexivity].
  intros s1. rewrite !run_seq, !bind_bind. apply list_bind_ext; [|reflexivity].
  intros s2. now rewrite !run_seq, !bind_bind.
Qed.

Lemma solid_chars q :
  ends_solid q ->
  exists x, last q = Some x
            /\ x ∈ filter (fun y => Chars.is_space y = false) q.
Proof.
  intros (x & Hl & Hx). exists x. split; [exact Hl|].
  apply list_elem_of_filter. split; [exact Hx|].
  apply last_Some in Hl as [q' ->]. apply elem_of_app. right. left.
Qed.

Lemma blank_chars ws :
  blank ws -> filter (fun y => Chars.is_space y = false) ws = [].
Proof.
  induction ws as [|c ws IH]; intros H; [reflexivity|].
  apply blank_cons in H as [Hc Hws].
  rewrite filter_cons_False by (rewrite Hc; discriminate). now apply IH.
Qed.

Lemma remove_suburb_cut suburb s a :
  py_str suburb = Ok s ->
  (forall b, first_position (suburb_end (chars s)) (chars a) b ->
     remove_suburb suburb (VStr a) = Ok (VStr (text (take b (chars a)))))
  /\ ((forall b, b <= length (chars a) ->
         ~ suburb_end (chars s) (drop b (chars a))) ->
      remove_suburb suburb (VStr a) = Ok (VStr a)).
Proof.
  intros Hs. rewrite (remove_suburb_run _ _ _ Hs).
  destruct (re_sub_anchored true
              (Seq (Star (Cls Space))
                 (Seq (Opt (Lit ","))
                    (Seq (Star (Cls Space)) (Lits (chars s))))) (chars a))
    as [H1 H2]; [simpl; apply plain_lits|].
  split.
  - intros b Hb. rewrite (H1 b); [reflexivity|].
    eapply first_position_ext; [|exact Hb].
    intros u. symmetry. apply ends_as_suburb.
  - intros Hnone. rewrite H2; [now rewrite text_chars|].
    intros b Hb He. apply (Hnone b Hb). now apply ends_as_suburb.
Qed.

(** An address that ends in the suburb, after a text that does not end
    with white space: the address loses the suburb and the separator
    before it. *)
Lemma remove_suburb_clean suburb s a q ws1 c ws2 w ws3 :
  py_str suburb = Ok s ->
  chars a = q ++ ws1 ++ c ++ ws2 ++ w ++ ws3 ->
  ends_solid (chars s) ->
  Forall2 (fun c x => same_ci c x = true) (chars s) w ->
  ends_clean q ->
  c = [","%char] \/ (c = [] /\ last q <> Some ","%char) ->
  blank ws1 -> blank ws2 -> blank ws3 ->
  remove_suburb suburb (VStr a) = Ok (VStr (text q)).
Proof.
  intros Hs Ha Hsolid Hw Hq Hc Hb1 Hb2 Hb3.
  destruct (remove_suburb_cut suburb s a Hs) as [Hcut _].
  rewrite (Hcut (length q)); [now rewrite Ha, take_app_length|].
  rewrite Ha. apply first_position_clean; [exact Hq| |].
  - exists ws1, c, ws2, w, ws3. repeat split; try assumption.
    destruct Hc as [-> | [-> _]]; [now right|now left].
  - intros q' Hq' Hlq (ws1' & c' & ws2' & w' & ws3' & E & Hc' & Hb1' & Hb2'
                       & Hb3' & Hw').
    pose proof (same_ci_solid _ _ Hw Hsolid) as Sw.
    pose proof (same_ci_solid _ _ Hw' Hsolid) as Sw'.
    destruct (blank_suffix_unique (q' ++ ws1 ++ c ++ ws2 ++ w)
                (ws1' ++ c' ++ ws2' ++ w') ws3 ws3') as [E1 _];
      try assumption.
    + now rewrite <- !app_assoc.
    + rewrite !app_assoc. now apply ends_solid_app.
    + rewrite !app_assoc. now apply ends_solid_app.
    + assert (Hlen : length w = length w').
      { apply Forall2_length in Hw, Hw'. congruence. }
      rewrite !app_assoc in E1. apply app_inj_2 in E1 as [E1 _];
        [|exact Hlen].
      apply (f_equal (filter (fun y => Chars.is_space y = false))) in E1.
      rewrite !filter_app in E1.
      rewrite (blank_chars ws1), (blank_chars ws2), (blank_chars ws1'),
        (blank_chars ws2') in E1 by assumption.
      rewrite !app_nil_r in E1. simpl in E1.
      destruct (solid_chars q' Hq') as (x & Hlast & Hx).
      assert (Hfc : forall k, k = [] \/ k = [","%char] ->
                filter (fun y => Chars.is_space y = false) k = k).
      { intros k [-> | ->]; reflexivity. }
      rewrite (Hfc c'), (Hfc c) in E1
        by (try assumption; destruct Hc as [-> | [-> _]]; auto).
      destruct Hc as [-> | [-> Hne]].
      * apply (f_equal length) in E1. rewrite length_app in E1.
        destruct (filter _ q') as [|? ?]; [inversion Hx|].
        destruct Hc' as [-> | ->]; simpl in E1; lia.
      * rewrite app_nil_r in E1. rewrite E1 in Hx.
        destruct Hc' as [-> | ->]; [inversion Hx|].
        apply list_elem_of_singleton in Hx. subst x.
        apply Hne. now rewrite <- Hlq.
Qed.

(** X11.  The last step of the decomposition on one row of ASCII text,
    without patterns.  The address is cut at the first position from which it
    consists of white space, possibly a comma, white space, the suburb in
    any case of its letters, and white space; it is unchanged when there
    is no such position.  So an address that ends in the suburb loses it
    with the white space and the comma before it, also when the suburb is
    the end of a longer word (no separator is required). *)
Theorem remove_suburb_spec (suburb : value) (s a : string) :
  py_str suburb = Ok s -> ascii_text s -> ascii_text a ->
  (forall b, first_position (suburb_end (chars s)) (chars a) b ->
     remove_suburb suburb (VStr a) = Ok (VStr (text (take b (chars a)))))
  /\ ((forall b, b <= length (chars a) ->
         ~ suburb_end (chars s) (drop b (chars a))) ->
      remove_suburb suburb (VStr a) = Ok (VStr a))
  /\ (forall q ws1 c ws2 w ws3,
        chars a = q ++ ws1 ++ c ++ ws2 ++ w ++ ws3 ->
        ends_solid (chars s) ->
        Forall2 (fun c x => same_ci c x = true) (chars s) w ->
        ends_clean q ->
        c = [","%char] \/ (c = [] /\ last q <> Some ","%char) ->
        blank ws1 -> blank ws2 -> blank ws3 ->
        remove_suburb suburb (VStr a) = Ok (VStr (text q))).
Proof.
  intros Hs _ _. destruct (remove_suburb_cut suburb s a Hs) as [Hcut Hkeep].
  split; [exact Hcut|]. split; [exact Hkeep|].
  intros q ws1 c ws2 w ws3 Ha Hsolid Hw Hq Hc Hb1 Hb2 Hb3.
  now apply (remove_suburb_clean suburb s a q ws1 c ws2 w ws3).
Qed.

Lemma remove_suburb_spec_witness :
  remove_suburb (VStr "Sydney") (VStr "12 Main St , SYDNEY ")
  = Ok (VStr "12 Main St")
  /\ remove_suburb (VStr "Sydney") (VStr "Kingsydney") = Ok (VStr "King").
Proof.
  split.
  - refine (proj2 (proj2 (remove_suburb_spec (VStr "Sydney") "Sydney"
                            "12 Main St , SYDNEY " eq_refl eq_refl eq_refl))
              (chars "12 Main St") (chars " ") (chars ",") (chars " ")
              (chars "SYDNEY") (chars " ") _ _ _ _ _ _ _ _).
    + reflexivity.
    + exists "y"%char. split; reflexivity.
    + repeat constructor.
    + intros c Hl. vm_compute in Hl. inversion Hl. reflexivity.
    + now left.
    + reflexivity.
    + reflexivity.
    + reflexivity.
  - refine (proj2 (proj2 (remove_suburb_spec (VStr "Sydney") "Sydney"
                            "Kingsydney" eq_refl eq_refl eq_refl))
              (chars "King") [] [] [] (chars "sydney") [] _ _ _ _ _ _ _ _).
    + reflexivity.
    + exists "y"%char. split; reflexivity.
    + repeat constructor.
    + intros c Hl. vm_compute in Hl. inversion Hl. reflexivity.
    + right. split; [reflexivity|]. intros H. vm_compute in H. discriminate H.
    + reflexivity.
    + reflexivity.
    + reflexivity.
Defined.

(** ** The state name in addresses *)

Lemma run_lits w pos t g :
  run true (Lits w) (MState pos t g)
  = match strip_prefix_ci w t with
    | Some t' => [MState (pos + length w) t' g]
    | None => []
    end.
Proof.
  revert pos t. induction w as [|c w IH]; intros pos t.
  - simpl. now rewrite Nat.add_0_r.
  - cbn [Lits]. rewrite run_seq. cbn [run]. destruct t as [|x t].
    + now rewrite one_nil.
    + rewrite one_cons. cbn [strip_prefix_ci]. unfold same_ci.
      destruct (lit_matches true c x); [|reflexivity].
      rewrite bind_singleton, IH.
      destruct (strip_prefix_ci w t); [|reflexivity].
      simpl. do 2 f_equal. lia.
Qed.

Lemma match_at_lits w pos t :
  match_at true (Lits w) pos t false
  = (fun t' => MState (pos + length w) t' None) <$> strip_prefix_ci w t.
Proof.
  rewrite match_at_free, run_lits. now destruct (strip_prefix_ci w t).
Qed.

Lemma strip_prefix_ci_length w t t' :
  strip_prefix_ci w t = Some t' -> length t = length w + length t'.
Proof.
  revert t. induction w as [|c w IH]; intros [|x t]; simpl; try discriminate.
  - intros [= <-]. reflexivity.
  - intros [= <-]. reflexivity.
  - destruct (same_ci c x); [|discriminate]. intros H%IH. lia.
Qed.

(** An occurrence that begins in [l] and ends in [r]: either it lies in
    [l], or the rest of [w] begins [r]. *)
Lemma strip_prefix_ci_app w l r :
  is_Some (strip_prefix_ci w (l ++ r)) ->
  (length w <= length l /\ forall r', is_Some (strip_prefix_ci w (l ++ r')))
  \/ (length l < length w
      /\ is_Some (strip_prefix_ci (drop (length l) w) r)).
Proof.
  revert l. induction w as [|c w IH]; intros l H.
  - left. split; [simpl; lia|]. intros r'. now eexists.
  - destruct l as [|x l].
    + right. split; [simpl; lia|exact H].
    + simpl in H. destruct (same_ci c x) eqn:E; [|now destruct H].
      destruct (IH _ H) as [[Hlen Hall] | [Hlen Hrest]].
      * left. split; [simpl; lia|]. intros r'. simpl. rewrite E. apply Hall.
      * right. split; [simpl; lia|exact Hrest].
Qed.

Section ReplaceLiteral.

Variables w repl : list ascii.

(** The replacement does not begin an occurrence, nor does a later part
    of the pattern begin with the replacement's first character. *)
Hypothesis w_not_nil : w <> [].
Hypothesis inside_repl :
  forall j o, j < length repl -> strip_prefix_ci w (drop j repl ++ o) = None.
Hypothesis into_repl :
  forall m o, 0 < m -> m < length w ->
    strip_prefix_ci (drop m w) (repl ++ o) = None.

Lemma no_occurrence_past_end (t : list ascii) i :
  length t <= i -> ~ occurs_at w t i.
Proof.
  intros Hi [x Hx]. rewrite drop_ge in Hx by exact Hi.
  destruct w; [now destruct w_not_nil|discriminate Hx].
Qed.

Lemma sub_loop_no_occurrence fuel pos t :
  2 * length t + 1 < fuel ->
  forall i, ~ occurs_at w (sub_loop fuel true (Lits w) repl pos t false) i.
Proof.
  revert pos t. induction fuel as [|fuel IH]; intros pos t Hfuel i; [lia|].
  rewrite sub_loop_S.
  destruct (search true (Lits w) pos t false) as [[b st']|] eqn:E.
  - destruct (search_first _ _ _ _ _ _ E) as (i0 & Hi0 & -> & Hm & Hmin).
    rewrite match_at_lits in Hm.
    destruct (strip_prefix_ci w (drop i0 t)) as [t2|] eqn:E2;
      [|discriminate Hm].
    simpl in Hm. inversion Hm; subst st'; clear Hm. cbn [consumed rest].
    replace (pos + i0 - pos) with i0 by lia.
    assert (Hw : 0 < length w) by (destruct w; [now destruct w_not_nil|simpl; lia]).
    replace (pos + i0 + length w =? pos + i0) with false
      by (symmetry; apply Nat.eqb_neq; lia).
    pose proof (strip_prefix_ci_length _ _ _ E2) as Hlen.
    rewrite length_drop in Hlen.
    set (out2 := sub_loop fuel true (Lits w) repl (pos + i0 + length w) t2 false).
    assert (IH2 : forall k, ~ occurs_at w out2 k) by (apply IH; lia).
    set (u := take i0 t).
    assert (Hu : length u = i0) by (unfold u; rewrite length_take; lia).
    destruct (le_lt_dec (length u + length repl) i) as [Hbig | Hsmall].
    + intros H. apply (IH2 (i - (length u + length repl))).
      unfold occurs_at in *.
      rewrite drop_app_ge, drop_app_ge in H by lia.
      now replace (i - length u - length repl)
        with (i - (length u + length repl)) in H by lia.
    + destruct (le_lt_dec (length u) i) as [Hmid | Hlow].
      * intros [x Hx]. rewrite drop_app_ge in Hx by lia.
        rewrite drop_app_le in Hx by lia.
        rewrite inside_repl in Hx by lia. discriminate Hx.
      * intros H. unfold occurs_at in H. rewrite drop_app_le in H by lia.
        apply strip_prefix_ci_app in H as [[_ Hall] | [Hlen' Hrest]].
        -- specialize (Hall (drop i0 t)).
           assert (Ht : drop i u ++ drop i0 t = drop i t).
           { unfold u. rewrite <- (take_drop i0 t) at 3.
             rewrite drop_app_le by (rewrite length_take; lia). reflexivity. }
           rewrite Ht in Hall.
           assert (Hnone : match_at true (Lits w) (pos + i) (drop i t) false
                           = None) by (apply Hmin; lia).
           rewrite match_at_lits in Hnone. destruct Hall as [y Hy].
           rewrite Hy in Hnone. discriminate Hnone.
        -- rewrite length_drop in Hlen', Hrest.
           rewrite into_repl in Hrest by lia. now destruct Hrest.
  - intros [x Hx].
    destruct (le_lt_dec i (length t)) as [Hle | Hgt].
    + pose proof (search_none _ _ _ _ E i Hle) as Hnone.
      rewrite match_at_lits, Hx in Hnone. discriminate Hnone.
    + apply (no_occurrence_past_end t i); [lia|now exists x].
Qed.

Lemma re_sub_no_occurrence s i :
  ~ occurs_at w (re_sub true (Lits w) repl s) i.
Proof. unfold re_sub. apply sub_loop_no_occurrence. lia. Qed.

Lemma re_sub_unchanged s :
  (forall i, ~ occurs_at w s i) -> re_sub true (Lits w) repl s = s.
Proof.
  intros Hno. apply re_sub_no_match.
  destruct (search true (Lits w) 0 s false) as [[b st']|] eqn:E;
    [|reflexivity].
  destruct (search_first _ _ _ _ _ _ E) as (i0 & _ & _ & Hm & _).
  rewrite match_at_lits in Hm.
  destruct (strip_prefix_ci w (drop i0 s)) as [t2|] eqn:E2;
    [|discriminate Hm].
  destruct (Hno i0). now exists t2.
Qed.

End ReplaceLiteral.

Lemma state_name_replacement :
  STATE_NAME <> []
  /\ (forall j o, j < length (chars "NSW") ->
        strip_prefix_ci STATE_NAME (drop j (chars "NSW") ++ o) = None)
  /\ (forall m o, 0 < m -> m < length STATE_NAME ->
        strip_prefix_ci (drop m STATE_NAME) (chars "NSW" ++ o) = None).
Proof.
  split; [discriminate|]. split.
  - intros j o Hj. simpl in Hj.
    destruct j as [|[|[|j]]]; [reflexivity..|lia].
  - intros m o Hm Hlt. change (length STATE_NAME) with 15 in Hlt.
    do 15 (destruct m as [|m]; [first [lia | reflexivity]|]). lia.
Qed.

Lemma str_accessor_text col :
  Exists (fun v => is_text v = true) col -> str_accessor col = Ok tt.
Proof.
  intros H. unfold str_accessor.
  replace (existsb is_text col) with true; [reflexivity|].
  symmetry. apply existsb_exists. apply Exists_exists in H as (v & Hv & Ht).
  exists v. split; [now apply list_elem_of_In|exact Ht].
Qed.

Lemma str_accessor_numbers col :
  Exists (fun v => isna v = false) col ->
  Forall (fun v => isna v || is_number v = true) col ->
  str_accessor col = Raise AttributeError.
Proof.
  intros Hex Hall. unfold str_accessor.
  replace (existsb is_text col) with false.
  - replace (forallb isna col) with false.
    + replace (forallb (fun v => isna v || is_number v) col) with true;
        [reflexivity|].
      symmetry. apply forallb_forall. rewrite Forall_forall in Hall.
      intros v Hv. apply Hall. now apply list_elem_of_In.
    + symmetry. apply not_true_is_false. intros H.
      apply Exists_exists in Hex as (v & Hv & Hn).
      rewrite forallb_forall in H. rewrite (H v) in Hn; [discriminate|].
      now apply list_elem_of_In.
  - symmetry. apply not_true_is_false. intros H.
    apply existsb_exists in H as (v & Hv & Ht).
    rewrite Forall_forall in Hall. apply list_elem_of_In in Hv.
    specialize (Hall v Hv). now destruct v.
Qed.

(** X8.  The state name in addresses, for ASCII text.  After the
    replacement no address text contains NEW SOUTH WALES in any case of its
    letters any more; a text that did not contain it is unchanged; hence
    replacing twice is replacing once, on a text and on a table whose
    Address column holds a text.  On a table whose Address column holds
    numbers, and no text, the call raises an AttributeError. *)
Theorem replace_state_name_spec :
  (forall a, ascii_text a ->
     exists out,
       replace_state_name a = VStr out
       /\ (forall i, ~ occurs_at STATE_NAME (chars out) i)
       /\ ((forall i, ~ occurs_at STATE_NAME (chars a) i) -> out = a)
       /\ replace_state_name out = VStr out)
  /\ (forall df,
        wf df -> has_col "Address" df = true -> ascii_column df "Address" ->
        Exists (fun v => is_text v = true) (get_col df "Address") ->
        exists df',
          standardize_address_state df = Ok df'
          /\ get_col df' "Address"
             = str_map replace_state_name <$> get_col df "Address"
          /\ standardize_address_state df' = Ok df')
  /\ (forall df,
        has_col "Address" df = true ->
        Exists (fun v => isna v = false) (get_col df "Address") ->
        Forall (fun v => isna v || is_number v = true) (get_col df "Address") ->
        standardize_address_state df = Raise AttributeError).
Proof.
  destruct state_name_replacement as (N & I1 & I2).
  assert (Hno : forall s i,
            ~ occurs_at STATE_NAME
                (re_sub true (Lits STATE_NAME) (chars "NSW") s) i)
    by (apply re_sub_no_occurrence; assumption).
  assert (Hcell : forall a,
            str_map replace_state_name (replace_state_name a)
            = replace_state_name a).
  { intros a. unfold replace_state_name. cbn [str_map].
    rewrite chars_text. do 2 f_equal.
    apply re_sub_unchanged. apply Hno. }
  split; [|split].
  - intros a _. eexists. split; [reflexivity|]. rewrite chars_text.
    split; [apply Hno|]. split.
    + intros Hnone. fold STATE_NAME.
      rewrite re_sub_unchanged by exact Hnone. apply text_chars.
    + exact (Hcell a).
  - intros df Hwf Hcol _ Htext.
    set (vals := str_map replace_state_name <$> get_col df "Address").
    assert (Hl : length vals = nrows df)
      by (unfold vals; now rewrite length_fmap, get_col_length).
    set (df1 := set_col df "Address" vals).
    assert (Hwf1 : wf df1) by now apply set_col_wf.
    assert (Hc1 : get_col df1 "Address" = vals) by now apply set_col_same.
    assert (Hcol1 : has_col "Address" df1 = true).
    { rewrite (has_col_columns _ df df1); [exact Hcol|].
      unfold df1. now rewrite set_col_columns, Hcol. }
    assert (Htext1 : Exists (fun v => is_text v = true) vals).
    { unfold vals. apply Exists_fmap. eapply Exists_impl; [exact Htext|].
      intros v Hv. now destruct v. }
    assert (Hv : str_map replace_state_name <$> vals = vals).
    { unfold vals. rewrite <- list_fmap_compose. apply list_fmap_ext.
      intros k v _. simpl. destruct v; try reflexivity. apply Hcell. }
    exists df1. split; [|split; [exact Hc1|]].
    + unfold standardize_address_state.
      now rewrite Hcol, (str_accessor_text _ Htext).
    + unfold standardize_address_state.
      rewrite Hcol1, Hc1, (str_accessor_text _ Htext1), Hv. cbn [bind].
      f_equal. rewrite <- Hc1. now apply set_col_get_col.
  - intros df Hcol Hex Hall. unfold standardize_address_state.
    now rewrite Hcol, (str_accessor_numbers _ Hex Hall).
Qed.

(** ** Addresses in the usual form *)

Lemma ends_solid_clean l : ends_solid l -> ends_clean l.
Proof. intros (x & Hl & Hx) c Hc. congruence. Qed.

Lemma word3_solid x y z : word3 x y z = true -> ends_solid [x; y; z].
Proof.
  unfold word3. intros H. apply andb_prop in H as [_ Hz].
  exists z. split; [reflexivity|]. now apply word_not_space.
Qed.

Lemma strip_id l :
  l <> [] -> lstrip l = l -> ends_clean (l) -> forall k,
  ends_clean (l ++ k) -> strip (l ++ k) = l ++ k.
Proof.
  intros Hne Hl _ k Hk. unfold strip.
  rewrite lstrip_id; [now apply rstrip_id|].
  intros c Hc. apply (lstrip_head l). rewrite Hl.
  destruct l; [now destruct Hne|exact Hc].
Qed.

Lemma strip_text_text l : strip_text (text l) = VStr (text (strip l)).
Proof. unfold strip_text. now rewrite chars_text. Qed.

Lemma address_row_standard postcode suburb p s a street state :
  py_str postcode = Ok p -> py_str suburb = Ok s ->
  standard_address p s (chars a) street state ->
  address_row postcode suburb (VStr a)
  = Ok (VStr (text street), VStr (text state)).
Proof.
  intros Hp Hs (ws0 & c & ws1 & w & ws2 & ws3 & ws4 & Ha & Hne & Hl & Hq & Hc
                & Hb0 & Hb1 & Hw & Hsolid & Hne2 & Hb2 & Hst & Hne3 & Hb3
                & Hpne & Hd & Hb4).
  destruct state as [|x [|y [|z [|? ?]]]]; try discriminate Hst.
  cbn [word3_exact] in Hst.
  set (q2 := street ++ ws0 ++ c ++ ws1 ++ w).
  set (q1 := q2 ++ ws2 ++ [x; y; z]).
  assert (Sw : ends_solid w) by (eapply same_ci_solid; eassumption).
  assert (Hq2 : ends_clean q2).
  { apply ends_solid_clean. unfold q2. rewrite !app_assoc.
    now apply ends_solid_app. }
  assert (Hq1 : ends_clean q1).
  { apply ends_solid_clean. unfold q1. rewrite app_assoc.
    now apply ends_solid_app, word3_solid. }
  assert (S2 : strip q2 = q2).
  { unfold q2. now apply strip_id. }
  assert (S1 : strip q1 = q1).
  { unfold q1, q2. rewrite <- !app_assoc. apply strip_id; try assumption.
    unfold q1, q2 in Hq1. now rewrite <- !app_assoc in Hq1. }
  assert (S0 : strip street = street).
  { rewrite <- (app_nil_r street). apply strip_id; try assumption.
    now rewrite app_nil_r. }
  unfold address_row.
  rewrite (remove_postcode_digits postcode p a q1 ws3 ws4 Hp Hpne Hd);
    try assumption;
    [|rewrite Ha; unfold q1, q2; now rewrite <- !app_assoc].
  cbn [bind str_map].
  assert (Hz : Chars.is_word z = true /\ Chars.is_space z = false).
  { unfold word3 in Hst. apply andb_prop in Hst as [_ Hz].
    split; [exact Hz|now apply word_not_space]. }
  rewrite (remove_comma_keeps (text q1) (q2 ++ ws2 ++ [x; y]) z []);
    [|rewrite chars_text; unfold q1; now rewrite <- !app_assoc
     |apply Hz
     |intros ->; destruct Hz as [Hz _]; vm_compute in Hz; discriminate Hz
     |reflexivity].
  assert (Hcut : cut_state_tail q1 = q2).
  { unfold cut_state_tail, q1.
    now rewrite state_tail_start_app, take_app_length by assumption. }
  assert (Hext : ends_in_word3 q1 = true /\ last3 q1 = [x; y; z]).
  { unfold q1.
    replace (q2 ++ ws2 ++ [x; y; z]) with ((q2 ++ ws2) ++ [x; y; z])
      by now rewrite <- app_assoc.
    now rewrite ends_in_word3_app, Hst, last3_app. }
  destruct Hext as [Hw3 Hl3].
  cbn [str_map]. rewrite !strip_text_text, S1. cbn [str_map].
  rewrite remove_state_spec by (now rewrite chars_text).
  rewrite chars_text, Hcut. cbn [str_map]. rewrite strip_text_text, S2.
  rewrite (remove_suburb_clean suburb s (text q2) street ws0 c ws1 w [] Hs);
    try assumption;
    [|rewrite chars_text; unfold q2; now rewrite app_nil_r|reflexivity].
  cbn [bind str_map]. rewrite strip_text_text, S0.
  rewrite extract_state_spec by (now rewrite chars_text).
  now rewrite chars_text, Hw3, Hl3.
Qed.

Lemma address_columns_lookup ps ss addrs a st i p s v :
  address_columns ps ss addrs = Ok (a, st) ->
  ps !! i = Some p -> ss !! i = Some s -> addrs !! i = Some v ->
  exists ai sti,
    address_row p s v = Ok (ai, sti)
    /\ a !! i = Some ai /\ st !! i = Some sti.
Proof.
  intros H Hp Hs Hv. unfold address_columns in H.
  destruct (traverse _ (zip ps addrs)) as [a1|] eqn:E1; [|discriminate H].
  cbn [bind] in H.
  destruct (traverse _ (zip ss _)) as [a6|] eqn:E6; [|discriminate H].
  cbn [bind] in H. inversion H; subst a st; clear H.
  apply traverse_Forall2 in E1, E6.
  assert (Hz1 : zip ps addrs !! i = Some (p, v)).
  { apply lookup_zip_with_Some. exists p, v. now repeat split. }
  destruct (Forall2_lookup_l _ _ _ _ _ E1 Hz1) as (y1 & Hy1 & R1).
  cbn [fst snd] in R1.
  set (a3 := str_map strip_text (str_map remove_comma y1)).
  assert (H3 : stripped_addresses a1 !! i = Some a3).
  { unfold stripped_addresses. now rewrite !list_lookup_fmap, Hy1. }
  assert (Hz6 : zip ss (addresses_without_state (stripped_addresses a1)) !! i
                = Some (s, str_map strip_text (str_map remove_state a3))).
  { apply lookup_zip_with_Some. eexists s, _. split; [reflexivity|].
    split; [exact Hs|]. unfold addresses_without_state.
    now rewrite !list_lookup_fmap, H3. }
  destruct (Forall2_lookup_l _ _ _ _ _ E6 Hz6) as (y6 & Hy6 & R6).
  cbn [fst snd] in R6.
  exists (str_map strip_text y6), (str_map extract_state a3).
  split; [|split].
  - unfold address_row. rewrite R1. cbn [bind]. fold a3. now rewrite R6.
  - now rewrite list_lookup_fmap, Hy6.
  - unfold state_column. now rewrite list_lookup_fmap, H3.
Qed.

(** X24.  Addresses in the usual form, in a table holding ASCII text.
    In a row whose address consists of a street part, the suburb of the
    row in any case (after white space, after a comma, or directly), a
    state of three word characters and the postcode of the row written in
    digits, with white space between them, the decomposition leaves the
    street part in Address and puts the state in State. *)
Theorem clean_address_standard (df df' : DataFrame) (i : nat) (r : row)
    (p s a : string) (street state : list ascii) :
  wf df -> ascii_addresses df ->
  has_col "Address" df && has_col "Postcode" df && has_col "Suburb" df = true ->
  clean_address df = Ok df' ->
  rows df !! i = Some r ->
  py_str (row_get df "Postcode" r) = Ok p ->
  py_str (row_get df "Suburb" r) = Ok s ->
  row_get df "Address" r = VStr a ->
  standard_address p s (chars a) street state ->
  get_col df' "Address" !! i = Some (VStr (text street))
  /\ get_col df' "State" !! i = Some (VStr (text state)).
Proof.
  intros Hwf _ Hcols Hrun Hr Hp Hs Ha Hstd.
  pose proof (clean_address_columns df Hwf Hcols
                (clean_address_rows df df' Hcols Hrun)) as H.
  rewrite Hrun in H.
  destruct H as (acol & st & Hac & <- & <- & _).
  assert (Hget : forall c, get_col df c !! i = Some (row_get df c r))
    by (intros c; unfold get_col; now rewrite list_lookup_fmap, Hr).
  destruct (address_columns_lookup _ _ _ _ _ i _ _ _ Hac
              (Hget "Postcode") (Hget "Suburb") (Hget "Address"))
    as (ai & sti & Hrow & Hai & Hsti).
  rewrite Ha, (address_row_standard _ _ p s a street state Hp Hs Hstd) in Hrow.
  inversion Hrow; subst ai sti. now split.
Qed.

Lemma clean_address_standard_witness :
  get_col addresses_cleaned "Address" !! 0 = Some (VStr "12 Main St")
  /\ get_col addresses_cleaned "State" !! 0 = Some (VStr "NSW").
Proof.
  refine (clean_address_standard addresses_table addresses_cleaned 0
            [VStr "12 Main St, Sydney NSW 2000"; VStr "Sydney"; VInt 2000]
            "2000" "Sydney" "12 Main St, Sydney NSW 2000"
            (chars "12 Main St") (chars "NSW") _ _ _ _ _ _ _ _ _).
  - repeat constructor.
  - repeat split; repeat constructor.
  - reflexivity.
  - vm_compute. reflexivity.
  - reflexivity.
  - reflexivity.
  - reflexivity.
  - reflexivity.
  - exists [], (chars ","), (chars " "), (chars "Sydney"), (chars " "),
      (chars " "), [].
    split; [reflexivity|]. split; [discriminate|]. split; [reflexivity|].
    split; [intros c Hl; vm_compute in Hl; inversion Hl; reflexivity|].
    split; [now left|]. split; [reflexivity|]. split; [reflexivity|].
    split; [repeat constructor|].
    split; [exists "y"%char; split; reflexivity|].
    split; [discriminate|]. split; [reflexivity|]. split; [reflexivity|].
    split; [discriminate|]. split; [reflexivity|].
    split; [discriminate|]. split; reflexivity.
Defined.

(** ** Removing duplicates before and after merging *)

Lemma first_occurrences_fmap {A B} `{EqDecision A, EqDecision B}
    (f : A -> B) (seen l : list A) :
  (forall x y, x ∈ seen ++ l -> y ∈ seen ++ l -> f x = f y -> x = y) ->
  f <$> first_occurrences seen l = first_occurrences (f <$> seen) (f <$> l).
Proof.
  revert seen. induction l as [|x l IH]; intros seen Hinj; [reflexivity|].
  rewrite fmap_cons. cbn [first_occurrences].
  assert (Hsub : forall s', (forall z, z ∈ s' ++ l -> z ∈ seen ++ x :: l) ->
            forall a b, a ∈ s' ++ l -> b ∈ s' ++ l -> f a = f b -> a = b)
    by (intros s' Hs a b Ha Hb; apply Hinj; now apply Hs).
  destruct (decide (x ∈ seen)) as [Hin | Hout].
  - rewrite decide_True by (apply list_elem_of_fmap; eauto).
    apply IH, Hsub. intros z Hz. apply elem_of_app in Hz as [Hz | Hz];
      apply elem_of_app; [now left|right; now right].
  - rewrite decide_False.
    + rewrite fmap_cons. f_equal. apply (IH (x :: seen)), Hsub.
      intros z Hz. apply elem_of_app in Hz as [Hz | Hz]; apply elem_of_app.
      * apply elem_of_cons in Hz as [-> | Hz]; [right; left|now left].
      * right. now right.
    + intros (y & Hxy & Hy)%list_elem_of_fmap. apply Hout.
      rewrite (Hinj x y); [exact Hy| | |exact Hxy]; apply elem_of_app.
      * right. left.
      * now left.
Qed.

Lemma first_occurrences_twice {A} `{EqDecision A} (s t l : list A) :
  first_occurrences s (first_occurrences t l) = first_occurrences (s ++ t) l.
Proof.
  revert s t. induction l as [|x l IH]; intros s t; [reflexivity|].
  cbn [first_occurrences]. destruct (decide (x ∈ t)) as [Ht | Ht].
  - rewrite decide_True by (apply elem_of_app; now right). apply IH.
  - cbn [first_occurrences]. destruct (decide (x ∈ s)) as [Hs | Hs].
    + rewrite decide_True by (apply elem_of_app; now left).
      rewrite IH. apply first_occurrences_seen_ext. intros z.
      rewrite !elem_of_app, elem_of_cons. split; [|tauto].
      intros [? | [-> | ?]]; tauto.
    + rewrite decide_False by (rewrite elem_of_app; tauto).
      f_equal. rewrite IH. apply first_occurrences_seen_ext. intros z.
      simpl. repeat (rewrite elem_of_cons || rewrite elem_of_app). tauto.
Qed.

Lemma reindex_inj (cols : list string) df (r1 r2 : list value) :
  wf df -> NoDup (columns df) -> (forall c, c ∈ columns df -> c ∈ cols) ->
  r1 ∈ rows df -> r2 ∈ rows df ->
  (fun c => row_get df c r1) <$> cols = (fun c => row_get df c r2) <$> cols ->
  r1 = r2.
Proof.
  intros Hwf Hnd Hsub H1 H2 E. unfold wf in Hwf. rewrite Forall_forall in Hwf.
  pose proof (Hwf r1 H1) as L1. pose proof (Hwf r2 H2) as L2.
  apply list_eq. intros i.
  destruct (columns df !! i) as [c|] eqn:Ec.
  - assert (Hc : c ∈ cols) by (eapply Hsub, list_elem_of_lookup_2, Ec).
    destruct (index_of c cols) as [j|] eqn:Ej;
      [|now apply index_of_None in Ej].
    apply (f_equal (fun l => l !! j)) in E.
    rewrite !list_lookup_fmap, (index_of_lookup _ _ _ Ej) in E.
    simpl in E. unfold row_get in E.
    rewrite (index_of_NoDup _ _ _ Hnd Ec) in E. unfold cell in E.
    apply lookup_lt_Some in Ec.
    destruct (r1 !! i) as [v1|] eqn:E1, (r2 !! i) as [v2|] eqn:E2;
      try (apply lookup_ge_None in E1; lia);
      try (apply lookup_ge_None in E2; lia).
    simpl in E. congruence.
  - apply lookup_ge_None in Ec.
    rewrite (proj2 (lookup_ge_None r1 i)), (proj2 (lookup_ge_None r2 i));
      [reflexivity|lia|lia].
Qed.

Lemma concat_deduplicated (dfs : list DataFrame) :
  Forall (fun df => wf df /\ NoDup (columns df)) dfs ->
  (remove_duplicates
     (concat ((fun df => (remove_duplicates df).1) <$> dfs))).1
  = (remove_duplicates (concat dfs)).1.
Proof.
  intros Hall. unfold remove_duplicates. cbn [fst].
  unfold drop_duplicates, concat. cbn [columns rows].
  assert (Hcols : union_columns (drop_duplicates <$> dfs) = union_columns dfs).
  { unfold union_columns. f_equal. rewrite list_fmap_bind.
    apply list_bind_ext; [|reflexivity]. intros df. reflexivity. }
  change (fun df => mkDF (columns df) (first_occurrences [] (rows df)))
    with drop_duplicates.
  rewrite Hcols. f_equal. set (cols := union_columns dfs).
  assert (H : forall l seen,
            (forall df, df ∈ l -> df ∈ dfs) ->
            first_occurrences seen ((drop_duplicates <$> l) ≫= reindex cols)
            = first_occurrences seen (l ≫= reindex cols)).
  { induction l as [|df l IH]; intros seen Hl; [reflexivity|].
    rewrite fmap_cons, !bind_cons, !first_occurrences_app.
    assert (Hdf : df ∈ dfs) by (apply Hl; left).
    rewrite Forall_forall in Hall. destruct (Hall df Hdf) as [Hwf Hnd].
    assert (Hdd : reindex cols (drop_duplicates df)
                  = first_occurrences [] (reindex cols df)).
    { unfold reindex. cbn [rows drop_duplicates].
      change (fun r => (fun c => row_get (drop_duplicates df) c r) <$> cols)
        with (fun r => (fun c => row_get df c r) <$> cols).
      rewrite (first_occurrences_fmap _ [] (rows df)); [reflexivity|].
      intros r1 r2 H1 H2. simpl in H1, H2.
      apply (reindex_inj cols df); try assumption.
      intros c Hc. apply union_columns_elem. eauto. }
    rewrite Hdd, first_occurrences_twice, app_nil_r. f_equal.
    rewrite (first_occurrences_seen_ext
               (first_occurrences [] (reindex cols df) ++ seen)
               (reindex cols df ++ seen)).
    - apply IH. intros d Hd. apply Hl. now right.
    - intros z. rewrite !elem_of_app, first_occurrences_elem.
      split; [tauto|]. intros [? | ?]; [left; split; [assumption|]|tauto].
      intros Hz. inversion Hz. }
  apply H. auto.
Qed.

(** X25.  Removing duplicates before merging changes nothing after it:
    for tables with distinct column names, the merged and deduplicated
    table, and so every table [save_to_csv] may sort it into, is the same
    whether or not each table was deduplicated first. *)
Theorem dedup_before_merge (dfs : list DataFrame) :
  Forall (fun df => wf df /\ NoDup (columns df)) dfs ->
  (remove_duplicates
     (concat ((fun df => (remove_duplicates df).1) <$> dfs))).1
  = (remove_duplicates (concat dfs)).1
  /\ forall out,
       combine ((fun df => (remove_duplicates df).1) <$> dfs) out
       <-> combine dfs out.
Proof.
  intros Hall. pose proof (concat_deduplicated dfs Hall) as E.
  split; [exact E|]. intros out. split; intros H.
  - inversion H as [out' cdf Hcol Hsort | cdf Hcol Hout]; subst cdf.
    + subst out'. rewrite E in Hcol, Hsort.
      now apply combine_sorted.
    + rewrite E in Hcol. rewrite E. now apply combine_unsorted.
  - inversion H as [out' cdf Hcol Hsort | cdf Hcol Hout]; subst cdf.
    + subst out'. rewrite <- E in Hcol, Hsort.
      now apply combine_sorted.
    + rewrite <- E in Hcol. rewrite <- E. now apply combine_unsorted.
Qed.

Lemma dedup_before_merge_witness :
  let a := mkDF ["StationCode"] [[VInt 7]; [VInt 7]; [VInt 8]] in
  let b := mkDF ["StationCode"; "Price"] [[VInt 7; VNull]; [VInt 9; VNull]] in
  (remove_duplicates
     (concat [(remove_duplicates a).1; (remove_duplicates b).1])).1
  = (remove_duplicates (concat [a; b])).1.
Proof.
  refine (proj1 (dedup_before_merge
           [mkDF ["StationCode"] [[VInt 7]; [VInt 7]; [VInt 8]];
            mkDF ["StationCode"; "Price"] [[VInt 7; VNull]; [VInt 9; VNull]]]
           _)).
  repeat constructor; try (intros H; inversion H; fail).
  - intros H. apply elem_of_cons in H as [H | H]; [discriminate H|inversion H].
Defined.
